(** * Retirement bookkeeping registries: sorted array and AVL tree

    A shallow embedding of the two registries of the repository and of the
    slot table of its concurrent workload generator:

    - [Sort]: the array registry of [sort_test.c] ([swap], [partition],
      [insertion_sort], [quicksort], [forkscan_util_sort],
      [binary_search_mark], [filter_marked_array]);
    - [Avl]: the ordered registry of [forkscan-changed/avl.c] (the same code
      is repeated in [sort_test.c]);
    - [Workload]: [remove_node] of [forkscan_test/main.c], as a step
      relation over the interleavings of its atomic operations;
    - [Harness] and [AvlHarness]: one round of the loops of
      [test_quicksort_scenario] and [test_avl_scenario] of [sort_test.c];
    - [Workers]: [add], [contains] and the loop of [worker_thread] of
      [forkscan_test/main.c] as a machine of any number of threads, and
      the loop of [main] that fills the table.

    Conventions.  Keys are [size_t] values; the code only compares them, so
    they are integers of [Z] and every result holds in particular for the
    keys below [2^64].  Indices, lengths, heights and flags are C [int]s,
    taken in [Z].  On a buffer of [n] entries every index expression of
    the code stays between [-1] and [n], inside [int], except the sum
    [min + max] in [partition], which can pass [INT_MAX] on buffers of
    more than [2^30] entries: that sum is made in [int] ([to_int],
    [midpoint]), and the theorems about the sort carry the bound under
    which it is exact.  The heights of balanced trees are small
    ([avl_inv_size]).  A C array is a list together with the length the
    caller passes; the list may be longer than that length. *)

From Stdlib Require Import ZArith Lia.
From stdpp Require Import base list sorting gmap.
From Equations Require Import Equations.
From Equations.Prop Require Import Logic.

Local Open Scope Z_scope.

(** ** The array registry *)

Module Sort.

(** The parameters [min] and [max] of the source are [lo] and [hi] here.

    [a[i]] for reading.  An index outside the buffer is undefined behaviour
    in C; the model reads [0] there.  The theorems below are about ranges
    that lie inside the buffer, where every access of the code does too. *)
Definition load (a : list Z) (i : Z) : Z :=
  if decide (0 <= i) then default 0 (a !! Z.to_nat i) else 0.

(** [a[i] = v].  Outside the buffer the model leaves the list as it is. *)
Definition store (a : list Z) (i v : Z) : list Z :=
  if decide (0 <= i) then <[Z.to_nat i := v]> a else a.

Definition swap (addrs : list Z) (n m : Z) : list Z :=
  let tmp := load addrs n in
  let addrs := store addrs n (load addrs m) in
  store addrs m tmp.

(** The loop of [partition]: [for (int i = min; i < max; i++)], with the
    buffer and [mid] as the state it updates. *)
Equations? partition_loop (addrs : list Z) (pivot_val hi i mid : Z) : list Z * Z
  by wf (Z.to_nat (hi - i)) lt :=
  partition_loop addrs pivot_val hi i mid with decide (i < hi) := {
    | left _ =>
        if decide (load addrs i <= pivot_val)
        then partition_loop (swap addrs i mid) pivot_val hi (i + 1) (mid + 1)
        else partition_loop addrs pivot_val hi (i + 1) mid
    | right _ => (addrs, mid) }.
Proof. all: lia. Qed.

Definition INT_MAX : Z := 2147483647.

(** The value an [int] holds after an operation whose exact result is
    [z]: [z] itself inside the range of [int]; outside it the operation is
    undefined in C, and the model takes the two's complement wrap-around
    of the usual targets. *)
Definition to_int (z : Z) : Z := (z + 2 ^ 31) mod 2 ^ 32 - 2 ^ 31.

(** [(min + max) / 2], with the sum made in [int] as [partition] makes
    it. *)
Definition midpoint (lo hi : Z) : Z := to_int (lo + hi) ÷ 2.

Definition partition (addrs : list Z) (lo hi : Z) : list Z * Z :=
  let pivot := midpoint lo hi in
  let pivot_val := load addrs pivot in
  let mid := lo in
  let addrs := swap addrs pivot hi in
  let '(addrs, mid) := partition_loop addrs pivot_val hi lo mid in
  (swap addrs mid hi, mid).

(** The inner loop of [insertion_sort]:
    [for (int j = i; j > min && addrs[j - 1] > addrs[j]; j--)]. *)
Equations? insertion_inner (addrs : list Z) (lo j : Z) : list Z
  by wf (Z.to_nat (j - lo)) lt :=
  insertion_inner addrs lo j
    with decide (j > lo /\ load addrs (j - 1) > load addrs j) := {
    | left _ => insertion_inner (swap addrs j (j - 1)) lo (j - 1)
    | right _ => addrs }.
Proof. lia. Qed.

(** The outer loop: [for (int i = min + 1; i <= max; i++)]. *)
Equations? insertion_outer (addrs : list Z) (lo hi i : Z) : list Z
  by wf (Z.to_nat (hi + 1 - i)) lt :=
  insertion_outer addrs lo hi i with decide (i <= hi) := {
    | left _ => insertion_outer (insertion_inner addrs lo i) lo hi (i + 1)
    | right _ => addrs }.
Proof. lia. Qed.

Definition insertion_sort (addrs : list Z) (lo hi : Z) : list Z :=
  insertion_outer addrs lo hi (lo + 1).

Definition SORT_THRESHOLD : Z := 16.

(** [mid] stays between the bounds of the loop, whatever the buffer holds:
    this is what makes the recursion of [quicksort] terminate. *)
Lemma partition_loop_mid addrs pivot_val hi i mid :
  i <= hi ->
  mid <= snd (partition_loop addrs pivot_val hi i mid) <= mid + (hi - i).
Proof.
  funelim (partition_loop addrs pivot_val hi i mid); intros Hi.
  - destruct (decide (load addrs i <= pivot_val)) as [Hle|Hgt].
    + specialize (H ltac:(lia)). simpl. lia.
    + specialize (H0 ltac:(lia)). simpl. lia.
  - simpl. lia.
Qed.

Lemma partition_mid addrs lo hi :
  lo <= hi -> lo <= snd (partition addrs lo hi) <= hi.
Proof.
  intros Hle. unfold partition.
  pose proof (partition_loop_mid
    (swap addrs (midpoint lo hi) hi) (load addrs (midpoint lo hi)) hi lo lo Hle)
    as Hm.
  destruct (partition_loop _ _ _ _ _) as [a m]. simpl in *. lia.
Qed.

Equations? quicksort (addrs : list Z) (lo hi : Z) : list Z
  by wf (Z.to_nat (hi - lo)) lt :=
  quicksort addrs lo hi with decide (hi - lo > SORT_THRESHOLD) := {
    | left _ with inspect (partition addrs lo hi) := {
        | exist _ (addrs1, mid) Hp =>
            let addrs2 := quicksort addrs1 lo (mid - 1) in
            quicksort addrs2 (mid + 1) hi }
    | right _ => insertion_sort addrs lo hi }.
Proof.
  all: unfold SORT_THRESHOLD in *.
  all: pose proof (partition_mid addrs lo hi ltac:(lia)) as Hm.
  all: rewrite Hp in Hm; simpl in Hm; lia.
Qed.

(** How one call of [quicksort] handles its sub-range [lo..hi]: by
    [partition] around the entry at [pivot], which ends at [mid], followed
    by the two recursive calls; or by [insertion_sort]. *)
Inductive handled : Type :=
  | ByPartition (lo hi pivot mid : Z)
  | ByInsertion (lo hi : Z).

(** The calls of [quicksort addrs lo hi] in the order they are made: the
    same tests and the same recursion as [quicksort], recording each call
    instead of returning the buffer. *)
Equations? quicksort_calls (addrs : list Z) (lo hi : Z) : list handled
  by wf (Z.to_nat (hi - lo)) lt :=
  quicksort_calls addrs lo hi with decide (hi - lo > SORT_THRESHOLD) := {
    | left _ with inspect (partition addrs lo hi) := {
        | exist _ (addrs1, mid) Hp =>
            let addrs2 := quicksort addrs1 lo (mid - 1) in
            ByPartition lo hi (midpoint lo hi) mid
              :: quicksort_calls addrs1 lo (mid - 1)
              ++ quicksort_calls addrs2 (mid + 1) hi }
    | right _ => [ByInsertion lo hi] }.
Proof.
  all: unfold SORT_THRESHOLD in *.
  all: pose proof (partition_mid addrs lo hi ltac:(lia)) as Hm.
  all: rewrite Hp in Hm; simpl in Hm; lia.
Qed.

Definition forkscan_util_sort (a : list Z) (length : Z) : list Z :=
  quicksort a 0 (length - 1).

(** The loop of [binary_search_mark]: [while (low <= high)].  It returns
    the result of the function and the two buffers as the call leaves
    them. *)
Equations? binary_search_loop (arr : list Z) (target : Z) (flags : list Z)
  (low high : Z) : Z * list Z * list Z
  by wf (Z.to_nat (high + 1 - low)) lt :=
  binary_search_loop arr target flags low high with decide (low <= high) := {
    | left _ =>
        let mid := low + (high - low) ÷ 2 in
        if decide (load arr mid = target)
        then (mid, arr,
              if decide (load flags mid = 0) then store flags mid 1 else flags)
        else if decide (target < load arr mid)
        then binary_search_loop arr target flags low (mid - 1)
        else binary_search_loop arr target flags (mid + 1) high
    | right _ => (-1, arr, flags) }.
Proof.
  all: assert (0 <= (high - low) ÷ 2 <= high - low)
    by (rewrite Z.quot_div_nonneg by lia; split;
        [apply Z.div_pos; lia | apply Z.div_le_upper_bound; lia]).
  all: lia.
Qed.

Definition binary_search_mark (arr : list Z) (n target : Z) (flags : list Z)
  : Z * list Z * list Z :=
  binary_search_loop arr target flags 0 (n - 1).

(** The loop of [filter_marked_array]: [for (int i = 0; i < *n; i++)]; [*n]
    is only written after the loop. *)
Equations? filter_loop (arr flags : list Z) (n i new_n : Z)
  : list Z * list Z * Z
  by wf (Z.to_nat (n - i)) lt :=
  filter_loop arr flags n i new_n with decide (i < n) := {
    | left _ =>
        if decide (load flags i = 0)
        then filter_loop (store arr new_n (load arr i)) (store flags new_n 0)
               n (i + 1) (new_n + 1)
        else filter_loop arr flags n (i + 1) new_n
    | right _ => (arr, flags, new_n) }.
Proof. all: lia. Qed.

(** Returns the buffer, the flags and the new value of [*n]. *)
Definition filter_marked_array (arr : list Z) (n : Z) (flags : list Z)
  : list Z * list Z * Z :=
  filter_loop arr flags n 0 0.

End Sort.

(** ** The ordered registry *)

Module Avl.

(** [avl_node_t *]: [NULL], or a node with its key, stored height, marked
    flag and two children.  The registry owns its nodes and nothing else
    points to them, so a subtree is a value. *)
Inductive avl_node : Type :=
  | NULL
  | Node (key : Z) (height : Z) (marked : Z) (left right : avl_node).

Record avl_tree : Type := { root : avl_node }.

Definition height (node : avl_node) : Z :=
  match node with
  | NULL => 0
  | Node _ h _ _ _ => h
  end.

Definition max_int (a b : Z) : Z := if decide (a > b) then a else b.

(** Allocation is taken to succeed; on failure the code exits. *)
Definition new_node (key : Z) : avl_node := Node key 1 0 NULL NULL.

(** The rotations dereference [y->left] (resp. [x->right]): on a [NULL]
    there the C code crashes, and the model returns [None]. *)
Definition right_rotate (y : avl_node) : option avl_node :=
  match y with
  | Node ky hy my (Node kx hx mx xl T2) yr =>
      let y' := Node ky (max_int (height T2) (height yr) + 1) my T2 yr in
      Some (Node kx (max_int (height xl) (height y') + 1) mx xl y')
  | _ => None
  end.

Definition left_rotate (x : avl_node) : option avl_node :=
  match x with
  | Node kx hx mx xl (Node ky hy my T2 yr) =>
      let x' := Node kx (max_int (height xl) (height T2) + 1) mx xl T2 in
      Some (Node ky (max_int (height x') (height yr) + 1) my x' yr)
  | _ => None
  end.

Definition get_balance (node : avl_node) : Z :=
  match node with
  | NULL => 0
  | Node _ _ _ l r => height l - height r
  end.

(** [node->key], a crash on [NULL]. *)
Definition key_of (node : avl_node) : option Z :=
  match node with
  | NULL => None
  | Node k _ _ _ _ => Some k
  end.

(** C's [c && d] where evaluating [d] may crash: [d] is evaluated only
    when [c] holds. *)
Definition and_then (c : bool) (d : option bool) : option bool :=
  if c then d else Some false.

(** The second half of [insert_node], run after the recursive call has
    replaced a child: the height is recomputed and the four rotation tests
    are tried in the order of the code. *)
Definition insert_rebalance (node : avl_node) (key : Z) : option avl_node :=
  match node with
  | NULL => None
  | Node k _ m l r =>
      let node := Node k (1 + max_int (height l) (height r)) m l r in
      let balance := get_balance node in
      c1 ← and_then (bool_decide (balance > 1))
             (lk ← key_of l; Some (bool_decide (key < lk)));
      if c1 : bool then right_rotate node else
      c2 ← and_then (bool_decide (balance < -1))
             (rk ← key_of r; Some (bool_decide (key > rk)));
      if c2 : bool then left_rotate node else
      c3 ← and_then (bool_decide (balance > 1))
             (lk ← key_of l; Some (bool_decide (key > lk)));
      if c3 : bool then
        l' ← left_rotate l;
        right_rotate (Node k (1 + max_int (height l) (height r)) m l' r)
      else
      c4 ← and_then (bool_decide (balance < -1))
             (rk ← key_of r; Some (bool_decide (key < rk)));
      if c4 : bool then
        r' ← right_rotate r;
        left_rotate (Node k (1 + max_int (height l) (height r)) m l r')
      else Some node
  end.

(** Returns the new subtree and the value left in [*inserted]: every path
    ends in one of the two places that write it. *)
Fixpoint insert_node (node : avl_node) (key : Z) : option (avl_node * Z) :=
  match node with
  | NULL => Some (new_node key, 1)
  | Node k h m l r =>
      if decide (key < k) then
        '(l', inserted) ← insert_node l key;
        node' ← insert_rebalance (Node k h m l' r) key;
        Some (node', inserted)
      else if decide (key > k) then
        '(r', inserted) ← insert_node r key;
        node' ← insert_rebalance (Node k h m l r') key;
        Some (node', inserted)
      else Some (node, 0)
  end.

Fixpoint contains_node (node : avl_node) (key : Z) : Z :=
  match node with
  | NULL => 0
  | Node k _ _ l r =>
      if decide (key = k) then 1
      else if decide (key < k) then contains_node l key
      else contains_node r key
  end.

(** Returns the subtree after the call, the function's result and the
    value of [*found]. *)
Fixpoint mark_node (node : avl_node) (key : Z) (found : Z)
  : avl_node * Z * Z :=
  match node with
  | NULL => (NULL, 0, found)
  | Node k h m l r =>
      if decide (key = k) then
        (Node k h (if decide (m = 0) then 1 else m) l r, 1, 1)
      else if decide (key < k) then
        let '(l', ret, found') := mark_node l key found in
        (Node k h m l' r, ret, found')
      else
        let '(r', ret, found') := mark_node r key found in
        (Node k h m l r', ret, found')
  end.

(** The visitor [f] receives the node and the caller's [data], which it
    may update. *)
Fixpoint inorder_traverse {D : Type} (node : avl_node)
  (f : avl_node -> D -> D) (data : D) : D :=
  match node with
  | NULL => data
  | Node _ _ _ l r =>
      let data := inorder_traverse l f data in
      let data := f node data in
      inorder_traverse r f data
  end.

Definition avl_create : avl_tree := {| root := NULL |}.

Definition avl_insert (tree : avl_tree) (key : Z) : option (avl_tree * Z) :=
  let inserted := 0 in
  '(node, inserted) ← insert_node (root tree) key;
  Some ({| root := node |}, inserted).

Definition avl_contains (tree : avl_tree) (key : Z) : Z :=
  contains_node (root tree) key.

Definition avl_mark (tree : avl_tree) (key : Z) : avl_tree * Z :=
  let found := 0 in
  let '(node, _, found) := mark_node (root tree) key found in
  ({| root := node |}, found).

(** The loop of [avl_build_from_array]: [for (int i = 0; i < n; i++)]. *)
Equations? build_loop (keys : list Z) (n i : Z) (tree : avl_tree)
  : option avl_tree
  by wf (Z.to_nat (n - i)) lt :=
  build_loop keys n i tree with decide (i < n) := {
    | left _ =>
        '(tree', _) ← avl_insert tree (Sort.load keys i);
        build_loop keys n (i + 1) tree'
    | right _ => Some tree }.
Proof. lia. Qed.

Definition avl_build_from_array (keys : list Z) (n : Z) : option avl_tree :=
  build_loop keys n 0 avl_create.

Definition avl_inorder {D : Type} (tree : avl_tree)
  (f : avl_node -> D -> D) (data : D) : D :=
  inorder_traverse (root tree) f data.

End Avl.

(** ** The slot table of the workload generator *)

Module Workload.

(** A [Node *] is the address of a node; [NULL] is [None]. *)
Definition ptr : Type := nat.

(** The memory the operations share: the slot table [array], where a key
    without an entry holds [NULL], and the [collected] field of the
    nodes. *)
Record memory : Type := {
  array : gmap Z ptr;
  collected : gmap ptr Z;
}.

(** What a thread does to the shared memory and to the reclaimer. *)
Inductive event : Type :=
  | SlotExchanged (tid : nat) (key : Z) (oldval : option ptr)
  | FlagExchanged (tid : nat) (node : ptr) (wasCollected : Z)
  | Retired (tid : nat) (node : ptr).

(** [add(key)] run to its end while no other thread runs: the load finds
    the slot empty or not; [newNode] is the address the allocator returns;
    the compare-and-swap then succeeds. *)
Definition add (m : memory) (key : Z) (newNode : ptr) : memory * bool :=
  match array m !! key with
  | Some _ => (m, false)
  | None =>
      ({| array := <[key := newNode]> (array m);
          collected := <[newNode := 0]> (collected m) |}, true)
  end.

(** Where a thread stands inside [remove_node(key)]: before the exchange
    on the slot, before the exchange on [oldval->collected], before the
    test of [wasCollected], or after its [return]. *)
Inductive remove_pc : Type :=
  | AtSlot (key : Z)
  | AtFlag (oldval : ptr)
  | AtRetire (oldval : ptr) (wasCollected : Z)
  | Returned (result : bool).

(** One atomic step of [remove_node] by thread [tid]. *)
Definition remove_node_step (tid : nat) (m : memory) (pc : remove_pc)
  : memory * remove_pc * list event :=
  match pc with
  | AtSlot key =>
      let oldval := array m !! key in
      let m' := {| array := delete key (array m); collected := collected m |} in
      match oldval with
      | None => (m', Returned false, [SlotExchanged tid key None])
      | Some node => (m', AtFlag node, [SlotExchanged tid key (Some node)])
      end
  | AtFlag oldval =>
      let wasCollected := default 0 (collected m !! oldval) in
      ({| array := array m; collected := <[oldval := 1]> (collected m) |},
       AtRetire oldval wasCollected,
       [FlagExchanged tid oldval wasCollected])
  | AtRetire oldval wasCollected =>
      if decide (wasCollected = 0)
      then (m, Returned true, [Retired tid oldval])
      else (m, Returned true, [])
  | Returned result => (m, Returned result, [])
  end.

(** The threads, the memory they share and what has happened so far. *)
Record config : Type := {
  mem : memory;
  threads : list remove_pc;
  trace : list event;
}.

(** The scheduler lets thread [tid] make its next step. *)
Definition step (c : config) (tid : nat) : config :=
  match threads c !! tid with
  | None => c
  | Some pc =>
      let '(m', pc', evs) := remove_node_step tid (mem c) pc in
      {| mem := m'; threads := <[tid := pc']> (threads c);
         trace := trace c ++ evs |}
  end.

Definition run (schedule : list nat) (c : config) : config :=
  foldl step c schedule.

Definition returned (pc : remove_pc) : bool :=
  match pc with Returned _ => true | _ => false end.

Definition finished (c : config) : bool := forallb returned (threads c).

(** Two threads enter [remove_node(key)] together. *)
Definition two_removers (m : memory) (key : Z) : config :=
  {| mem := m; threads := [AtSlot key; AtSlot key]; trace := [] |}.

(** The hand-offs to the reclaimer, and the values read from [collected]. *)
Definition retire_calls (tr : list event) : list (nat * ptr) :=
  omap (fun e => match e with Retired tid node => Some (tid, node) | _ => None end) tr.

Definition flag_reads (tr : list event) : list (nat * ptr * Z) :=
  omap (fun e => match e with
                 | FlagExchanged tid node was => Some (tid, node, was)
                 | _ => None
                 end) tr.

End Workload.

(** ** The benchmark loop of the array registry *)

Module Harness.

Import Sort.

(** The loop of [test_quicksort_scenario] that initialises the flags of the
    new entries: [for (int i = curr_n; i < curr_n + NEW_POINTERS; i++)],
    with [stop] for the bound. *)
Equations? clear_flags (flags : list Z) (i stop : Z) : list Z
  by wf (Z.to_nat (stop - i)) lt :=
  clear_flags flags i stop with decide (i < stop) := {
    | left _ => clear_flags (store flags i 0) (i + 1) stop
    | right _ => flags }.
Proof. lia. Qed.

(** The marking loop: [for (int i = 0; i < curr_n; i += 2)], each round a
    [binary_search_mark] for the key at [i]. *)
Equations? mark_every_other (array flags : list Z) (curr_n i : Z)
  : list Z * list Z
  by wf (Z.to_nat (curr_n - i)) lt :=
  mark_every_other array flags curr_n i with decide (i < curr_n) := {
    | left _ =>
        let r := binary_search_mark array curr_n (load array i) flags in
        mark_every_other r.1.2 r.2 curr_n (i + 2)
    | right _ => (array, flags) }.
Proof. lia. Qed.

(** One round of the loop of [test_quicksort_scenario], from the point
    where [generate_random_array] has written the [new_pointers] new keys
    behind the live ones: the flags of the new keys are cleared, the whole
    is sorted, every other key is marked and the marked keys are filtered
    out.  Returns the buffers and the new [curr_n]. *)
Definition quicksort_scenario_round (new_pointers : Z) (array flags : list Z) (curr_n : Z)
  : list Z * list Z * Z :=
  let flags := clear_flags flags curr_n (curr_n + new_pointers) in
  let curr_n := curr_n + new_pointers in
  let array := forkscan_util_sort array curr_n in
  let '(array, flags) := mark_every_other array flags curr_n 0 in
  filter_marked_array array curr_n flags.

End Harness.

(** ** The benchmark loop of the ordered registry *)

Module AvlHarness.

Import Sort Avl.

(** The marking loop of [test_avl_scenario]:
    [for (int i = 0; i < NEW_POINTERS; i += 2) avl_mark(tree, new_array[i]);]
    the results of [avl_mark] are dropped. *)
Equations? avl_mark_every_other (tree : avl_tree) (new_array : list Z)
    (new_pointers i : Z) : avl_tree
  by wf (Z.to_nat (new_pointers - i)) lt :=
  avl_mark_every_other tree new_array new_pointers i
    with decide (i < new_pointers) := {
    | left _ =>
        avl_mark_every_other (avl_mark tree (load new_array i)).1
          new_array new_pointers (i + 2)
    | right _ => tree }.
Proof. lia. Qed.

(** One iteration of the loop of [test_avl_scenario], after
    [generate_random_array] has filled [new_array]: every new key is
    inserted, by the loop that [avl_build_from_array] also runs, and then
    every other one is marked. *)
Definition avl_scenario_round (new_pointers : Z) (new_array : list Z)
    (tree : avl_tree) : option avl_tree :=
  tree ← build_loop new_array new_pointers 0 tree;
  Some (avl_mark_every_other tree new_array new_pointers 0).

End AvlHarness.

(** ** The worker threads of the workload generator *)

Module Workers.

Import Workload.

(** The value [contains(key)] returns: that of one atomic load of the
    slot.  The two [fflush(stdout)] calls around the load do not touch
    the table; they are steps of [contains_step] below. *)
Definition contains (m : memory) (key : Z) : bool :=
  bool_decide (is_Some (array m !! key)).

(** [remove_node(key)] run to its end while no other thread runs: the
    memory after it, its result and the nodes it handed to
    [forkscan_retire]. *)
Definition remove_node (m : memory) (key : Z) : memory * bool * list ptr :=
  let '(m1, pc1, ev1) := remove_node_step 0 m (AtSlot key) in
  let '(m2, pc2, ev2) := remove_node_step 0 m1 pc1 in
  let '(m3, pc3, ev3) := remove_node_step 0 m2 pc2 in
  (m3, match pc3 with Returned result => result | _ => false end,
   (retire_calls (ev1 ++ ev2 ++ ev3)).*2).

(** Where a thread stands inside [add(key)]: before the load of the slot,
    before [forkscan_malloc], before the compare-and-swap, before [free],
    or after its [return]. *)
Inductive add_pc : Type :=
  | AtLoad (key : Z)
  | AtMalloc (key : Z)
  | AtCas (key : Z) (newNode : ptr)
  | AtFree (newNode : ptr)
  | AddReturned (result : bool).

(** One atomic step of [add].  [next_node] is the address the allocator
    hands out next: allocation succeeds, and an address stands for one
    allocation and is not handed out again.  The writes that initialise
    the new node are made while no other thread knows its address and
    are part of the allocation step.  [free] changes nothing that the
    operations read. *)
Definition add_step (m : memory) (next_node : ptr) (pc : add_pc)
  : memory * ptr * add_pc :=
  match pc with
  | AtLoad key =>
      match array m !! key with
      | Some _ => (m, next_node, AddReturned false)
      | None => (m, next_node, AtMalloc key)
      end
  | AtMalloc key =>
      let newNode := next_node in
      ({| array := array m; collected := <[newNode := 0]> (collected m) |},
       S next_node, AtCas key newNode)
  | AtCas key newNode =>
      match array m !! key with
      | None =>
          ({| array := <[key := newNode]> (array m);
              collected := collected m |}, next_node, AddReturned true)
      | Some _ => (m, next_node, AtFree newNode)
      end
  | AtFree newNode => (m, next_node, AddReturned false)
  | AddReturned result => (m, next_node, AddReturned result)
  end.

(** Where a thread stands inside [contains(key)]: before the first
    [fflush(stdout)], before the load of the slot, before the second
    [fflush(stdout)], or after its [return]. *)
Inductive contains_pc : Type :=
  | AtFlush (key : Z)
  | AtSlotLoad (key : Z)
  | AtFlushAgain (present : bool)
  | ContainsReturned (present : bool).

(** One step of [contains].  A call to [fflush] leaves the shared memory
    as it is; like the calls to the allocator, to [free] and to the
    reclaimer it is one step, made when the call returns. *)
Definition contains_step (m : memory) (pc : contains_pc) : contains_pc :=
  match pc with
  | AtFlush key => AtSlotLoad key
  | AtSlotLoad key => AtFlushAgain (contains m key)
  | AtFlushAgain present => ContainsReturned present
  | ContainsReturned present => ContainsReturned present
  end.

(** What a worker is doing: nothing yet, or one of the three operations. *)
Inductive worker_pc : Type :=
  | Idle
  | InAdd (pc : add_pc)
  | InRemove (pc : remove_pc)
  | InContains (pc : contains_pc).

Inductive call : Type :=
  | CallAdd (key : Z)
  | CallRemove (key : Z)
  | CallContains (key : Z).

Definition UPDATE_RATIO : Z := 20.
Definition REMOVE_RATIO : Z := 10.
Definition KEY_RANGE : Z := 1048576.

(** The operation one iteration of [worker_thread] picks from its two
    random draws. *)
Definition worker_choice (rand1 rand2 : Z) : call :=
  let r := Z.rem rand1 100 in
  let key := Z.rem rand2 KEY_RANGE in
  if decide (r < UPDATE_RATIO) then
    if decide (r < REMOVE_RATIO) then CallRemove key else CallAdd key
  else CallContains key.

Definition enter (c : call) : worker_pc :=
  match c with
  | CallAdd key => InAdd (AtLoad key)
  | CallRemove key => InRemove (AtSlot key)
  | CallContains key => InContains (AtFlush key)
  end.

(** A thread can start an operation when it is inside none. *)
Definition between_calls (pc : worker_pc) : bool :=
  match pc with
  | Idle | InAdd (AddReturned _) | InRemove (Returned _)
  | InContains (ContainsReturned _) => true
  | _ => false
  end.

Record state : Type := {
  shared : memory;
  next_node : ptr;
  workers : list worker_pc;
  events : list event;
}.

(** What the scheduler can do: let a thread that is between calls start
    an operation, or let a thread make the next step of the operation it
    is in: an atomic operation on the shared memory, or a library call
    that returns. *)
Inductive action : Type :=
  | Invoke (tid : nat) (c : call)
  | Run (tid : nat).

Definition worker_step (tid : nat) (s : state) (pc : worker_pc) : state :=
  match pc with
  | InAdd apc =>
      let '(m', next', apc') := add_step (shared s) (next_node s) apc in
      {| shared := m'; next_node := next';
         workers := <[tid := InAdd apc']> (workers s); events := events s |}
  | InRemove rpc =>
      let '(m', rpc', evs) := remove_node_step tid (shared s) rpc in
      {| shared := m'; next_node := next_node s;
         workers := <[tid := InRemove rpc']> (workers s);
         events := events s ++ evs |}
  | InContains cpc =>
      {| shared := shared s; next_node := next_node s;
         workers :=
           <[tid := InContains (contains_step (shared s) cpc)]> (workers s);
         events := events s |}
  | Idle => s
  end.

Definition do_action (s : state) (a : action) : state :=
  match a with
  | Invoke tid c =>
      match workers s !! tid with
      | Some pc =>
          if between_calls pc then
            {| shared := shared s; next_node := next_node s;
               workers := <[tid := enter c]> (workers s);
               events := events s |}
          else s
      | None => s
      end
  | Run tid =>
      match workers s !! tid with
      | Some pc => worker_step tid s pc
      | None => s
      end
  end.

Definition run_actions (schedule : list action) (s : state) : state :=
  foldl do_action s schedule.

(** [main] clears the table and starts from there. *)
Definition init (num_threads : nat) : state :=
  {| shared := {| array := ∅; collected := ∅ |}; next_node := 0%nat;
     workers := replicate num_threads Idle; events := [] |}.

(** The loop of [main] that fills the table before the threads start:
    [while (inserted < target) { int k = rand() % range; if (add(k))
    inserted++; }], where [target] and [range] are the numbers read from
    the command line and [draws] are the values [rand()] returns.  No
    other thread runs yet, so [add] is the sequential one and takes a new
    address when it allocates.  The result is [None] when the program
    divides by zero or indexes outside the table; otherwise it holds the
    memory, the next address, the count, and whether the loop was left
    before the draws ran out. *)
Fixpoint prefill (draws : list Z) (target range : Z) (m : memory)
    (next : ptr) (inserted : Z) : option (memory * ptr * Z * bool) :=
  if decide (inserted < target) then
    match draws with
    | [] => Some (m, next, inserted, false)
    | x :: draws =>
        if decide (range = 0) then None else
        let k := Z.rem x range in
        if decide (0 <= k < KEY_RANGE) then
          let '(m', success) := add m k next in
          if success then prefill draws target range m' (S next) (inserted + 1)
          else prefill draws target range m' next inserted
        else None
    end
  else Some (m, next, inserted, true).

End Workers.



(** * Properties of the array registry *)

Section Arrays.

Import Sort.

Implicit Types (a b addrs flags : list Z) (i j k lo hi : Z).

(** The buffer index [i] is inside the list [a]. *)
Definition inb a i : Prop := 0 <= i < Z.of_nat (length a).

Lemma load_lookup a i :
  inb a i -> a !! Z.to_nat i = Some (load a i).
Proof.
  intros [H0 H1]. unfold load. rewrite decide_True by done.
  destruct (a !! Z.to_nat i) as [v|] eqn:E; [done|].
  apply lookup_ge_None in E. lia.
Qed.

Lemma length_store a i v : length (store a i v) = length a.
Proof. unfold store. case_decide; [apply length_insert | done]. Qed.

Lemma load_store_eq a i v : inb a i -> load (store a i v) i = v.
Proof.
  intros [H0 H1]. unfold load, store. rewrite !decide_True by done.
  rewrite list_lookup_insert_eq by lia. done.
Qed.

Lemma load_store_ne a i j v : i <> j -> load (store a i v) j = load a j.
Proof.
  intros Hne. unfold load, store.
  destruct (decide (0 <= j)); [|done].
  destruct (decide (0 <= i)); [|done].
  rewrite list_lookup_insert_ne by lia. done.
Qed.

Lemma length_swap a i j : length (swap a i j) = length a.
Proof. unfold swap. by rewrite !length_store. Qed.

Lemma load_swap a i j k :
  inb a i -> inb a j ->
  load (swap a i j) k =
    if decide (k = j) then load a i
    else if decide (k = i) then load a j
    else load a k.
Proof.
  intros Hi Hj. unfold swap.
  destruct (decide (k = j)) as [->|Hkj].
  - apply load_store_eq. unfold inb. by rewrite length_store.
  - rewrite load_store_ne by done.
    destruct (decide (k = i)) as [->|Hki].
    + by apply load_store_eq.
    + by rewrite load_store_ne.
Qed.

Lemma cons_insert_perm (t : list Z) (n : nat) (x y : Z) :
  t !! n = Some y -> y :: <[n := x]> t ≡ₚ x :: t.
Proof.
  revert n. induction t as [|h t IH]; intros [|n] E; simplify_eq/=.
  - apply perm_swap.
  - rewrite perm_swap, (IH _ E). apply perm_swap.
Qed.

Lemma insert_insert_perm (l : list Z) (n m : nat) (x y : Z) :
  l !! n = Some x -> l !! m = Some y ->
  <[m := x]> (<[n := y]> l) ≡ₚ l.
Proof.
  revert n m. induction l as [|h t IH]; intros [|n] [|m] En Em; simplify_eq/=.
  - done.
  - by apply cons_insert_perm.
  - by apply cons_insert_perm.
  - f_equiv. by apply IH.
Qed.

Lemma swap_perm a i j : inb a i -> inb a j -> swap a i j ≡ₚ a.
Proof.
  intros Hi Hj. unfold swap, store.
  rewrite !decide_True by (unfold inb in *; lia).
  apply insert_insert_perm; by apply load_lookup.
Qed.

(** [b] is reached from [a] by exchanging entries whose indices lie in
    [lo..hi]: the only way the sort writes to the buffer. *)
Inductive swapped lo hi : list Z -> list Z -> Prop :=
  | swapped_refl a : swapped lo hi a a
  | swapped_step a b i j :
      swapped lo hi a b -> lo <= i <= hi -> lo <= j <= hi ->
      swapped lo hi a (swap b i j).

Lemma swapped_one lo hi a i j :
  lo <= i <= hi -> lo <= j <= hi -> swapped lo hi a (swap a i j).
Proof. intros. apply swapped_step; [constructor|done..]. Qed.

Lemma swapped_trans lo hi a b c :
  swapped lo hi a b -> swapped lo hi b c -> swapped lo hi a c.
Proof. intros Hab Hbc. induction Hbc; [done|]. apply swapped_step; auto. Qed.

Lemma swapped_mono lo hi lo' hi' a b :
  lo' <= lo -> hi <= hi' -> swapped lo hi a b -> swapped lo' hi' a b.
Proof.
  intros Hlo Hhi Hs. induction Hs; [constructor|].
  apply swapped_step; [done|lia..].
Qed.

Lemma swapped_length lo hi a b : swapped lo hi a b -> length b = length a.
Proof. induction 1; [done|]. by rewrite length_swap. Qed.

Lemma swapped_perm lo hi a b :
  0 <= lo -> hi < Z.of_nat (length a) -> swapped lo hi a b -> b ≡ₚ a.
Proof.
  intros Hlo Hhi Hs. induction Hs as [|a b i j Hs IH Hi Hj]; [done|].
  rewrite <- (IH Hhi). pose proof (swapped_length _ _ _ _ Hs).
  apply swap_perm; unfold inb; lia.
Qed.

Lemma swapped_outside lo hi a b k :
  0 <= lo -> hi < Z.of_nat (length a) -> swapped lo hi a b ->
  ~ (lo <= k <= hi) -> load b k = load a k.
Proof.
  intros Hlo Hhi Hs Hk. induction Hs as [|a b i j Hs IH Hi Hj]; [done|].
  pose proof (swapped_length _ _ _ _ Hs).
  rewrite load_swap by (unfold inb; lia).
  rewrite !decide_False by lia. auto.
Qed.

Lemma swapped_Forall (P : Z -> Prop) lo hi a b :
  0 <= lo -> hi < Z.of_nat (length a) -> swapped lo hi a b ->
  (forall k, lo <= k <= hi -> P (load a k)) ->
  forall k, lo <= k <= hi -> P (load b k).
Proof.
  intros Hlo Hhi Hs. induction Hs as [|a b i j Hs IH Hi Hj]; [done|].
  intros HP k Hk. pose proof (swapped_length _ _ _ _ Hs).
  rewrite load_swap by (unfold inb; lia).
  repeat case_decide; apply IH; auto.
Qed.

(** The entries of [a] at [lo..hi] are in non-decreasing order. *)
Definition sorted_on a lo hi : Prop :=
  forall p q, lo <= p -> p <= q -> q <= hi -> load a p <= load a q.

Lemma quot2_bounds lo hi :
  0 <= lo -> lo <= hi -> lo <= (lo + hi) ÷ 2 <= hi.
Proof.
  intros H0 Hle. rewrite Z.quot_div_nonneg by lia. split.
  - apply Z.div_le_lower_bound; lia.
  - apply Z.div_le_upper_bound; lia.
Qed.

(** Inside the range of [int] the operations are exact. *)
Lemma to_int_exact z : - 2 ^ 31 <= z <= INT_MAX -> to_int z = z.
Proof.
  unfold INT_MAX, to_int. intros Hz. rewrite Z.mod_small by lia. lia.
Qed.

Lemma midpoint_exact lo hi :
  0 <= lo -> lo <= hi -> lo + hi <= INT_MAX ->
  midpoint lo hi = (lo + hi) ÷ 2.
Proof.
  intros Hlo Hle Hmax. unfold midpoint.
  rewrite to_int_exact; [done|]. unfold INT_MAX in *. lia.
Qed.

Lemma midpoint_bounds lo hi :
  0 <= lo -> lo <= hi -> lo + hi <= INT_MAX -> lo <= midpoint lo hi <= hi.
Proof.
  intros Hlo Hle Hmax. rewrite midpoint_exact by done.
  by apply quot2_bounds.
Qed.

(** Beyond it the sum wraps and the index is negative. *)
Lemma midpoint_overflow lo hi :
  0 <= lo -> lo <= hi -> hi <= INT_MAX -> INT_MAX < lo + hi ->
  midpoint lo hi < 0.
Proof.
  unfold midpoint, to_int, INT_MAX. intros Hlo Hle Hhi Hov.
  replace ((lo + hi + 2 ^ 31) mod 2 ^ 32) with (lo + hi - 2 ^ 31).
  2: { apply Z.mod_unique with (q := 1); lia. }
  set (a := 2 ^ 31 - (lo + hi - 2 ^ 31)).
  replace (lo + hi - 2 ^ 31 - 2 ^ 31) with (- a) by (unfold a; lia).
  rewrite Z.quot_opp_l by lia.
  assert (0 < a ÷ 2) by (apply Z.quot_str_pos; unfold a; lia).
  lia.
Qed.

(** *** [partition] *)

Lemma partition_loop_spec addrs pivot_val hi i mid lo :
  0 <= lo -> lo <= mid -> mid <= i -> i <= hi ->
  hi <= Z.of_nat (length addrs) ->
  (forall k, lo <= k < mid -> load addrs k <= pivot_val) ->
  (forall k, mid <= k < i -> pivot_val < load addrs k) ->
  let r := partition_loop addrs pivot_val hi i mid in
  swapped lo (hi - 1) addrs (fst r) /\
  mid <= snd r <= hi /\
  (forall k, lo <= k < snd r -> load (fst r) k <= pivot_val) /\
  (forall k, snd r <= k < hi -> pivot_val < load (fst r) k).
Proof.
  funelim (partition_loop addrs pivot_val hi i mid);
    intros Hlo Hmid Hi Hhi Hlen Hle Hgt; simpl.
  - destruct (decide (load addrs i <= pivot_val)) as [Hc|Hc].
    + clear H0.
      assert (Hbi : inb addrs i) by (unfold inb; lia).
      assert (Hbm : inb addrs mid) by (unfold inb; lia).
      destruct (H Hc lo) as (Hs & Hm & Ple & Pgt);
        try rewrite length_swap; try lia.
      * intros k Hk. rewrite load_swap by done.
        destruct (decide (k = mid)) as [->|]; [done|].
        destruct (decide (k = i)) as [->|]; [lia|]. apply Hle. lia.
      * intros k Hk. rewrite load_swap by done.
        rewrite decide_False by lia.
        destruct (decide (k = i)) as [->|]; apply Hgt; lia.
      * split; [|split; [lia|split; done]].
        eapply swapped_trans; [|exact Hs]. apply swapped_one; lia.
    + clear H.
      assert (Hgt' : forall k, mid <= k < i + 1 -> pivot_val < load addrs k).
      { intros k Hk. destruct (decide (k = i)) as [->|]; [lia|].
        apply Hgt. lia. }
      destruct (H0 Hc lo) as (Hs & Hm & Ple & Pgt); try lia; try done.
  - split; [constructor|split; [lia|split; [done|]]].
    intros k Hk. apply Hgt. lia.
Qed.

Lemma partition_spec addrs lo hi :
  0 <= lo -> lo <= hi -> hi < Z.of_nat (length addrs) ->
  lo + hi <= INT_MAX ->
  let r := partition addrs lo hi in
  swapped lo hi addrs (fst r) /\
  lo <= snd r <= hi /\
  (forall k, lo <= k < snd r -> load (fst r) k <= load (fst r) (snd r)) /\
  (forall k, snd r < k <= hi -> load (fst r) (snd r) < load (fst r) k).
Proof.
  intros Hlo Hle Hlen Hmax. unfold partition.
  pose proof (midpoint_bounds lo hi Hlo Hle Hmax) as Hp.
  set (pivot := midpoint lo hi) in *.
  set (pv := load addrs pivot).
  set (a1 := swap addrs pivot hi).
  assert (Hbp : inb addrs pivot) by (unfold inb; lia).
  assert (Hbh : inb addrs hi) by (unfold inb; lia).
  assert (Hl1 : length a1 = length addrs) by apply length_swap.
  assert (Hhi1 : load a1 hi = pv).
  { unfold a1. rewrite load_swap by done. by rewrite decide_True. }
  pose proof (partition_loop_spec a1 pv hi lo lo lo) as Hloop.
  destruct (partition_loop a1 pv hi lo lo) as [a2 mid]; simpl in *.
  destruct Hloop as (Hs & Hm & Ple & Pgt); try lia.
  assert (Hl2 : length a2 = length a1).
  { by apply swapped_length in Hs. }
  assert (Hhi2 : load a2 hi = pv).
  { rewrite <- Hhi1.
    apply (swapped_outside lo (hi - 1)); [done| lia | done | lia]. }
  assert (Hbm2 : inb a2 mid) by (unfold inb; lia).
  assert (Hbh2 : inb a2 hi) by (unfold inb; lia).
  assert (Hmid : load (swap a2 mid hi) mid = pv).
  { rewrite load_swap by done. case_decide; [by subst|].
    by rewrite decide_True. }
  rewrite Hmid. split; [|split; [|split]].
  - apply swapped_step; [|lia..].
    apply (swapped_trans _ _ _ a1); [apply swapped_one; lia|].
    eapply swapped_mono; [| |exact Hs]; lia.
  - lia.
  - intros k Hk. rewrite load_swap by done.
    rewrite !decide_False by lia. apply Ple. lia.
  - intros k Hk. rewrite load_swap by done.
    destruct (decide (k = hi)) as [->|].
    + apply Pgt. lia.
    + rewrite decide_False by lia. apply Pgt. lia.
Qed.

(** *** [insertion_sort] *)

Lemma sorted_on_shrink a lo hi hi' :
  hi' <= hi -> sorted_on a lo hi -> sorted_on a lo hi'.
Proof. intros Hle Hs p q Hp Hpq Hq. apply Hs; lia. Qed.

(** While the entry at [j] travels to the left, the rest of [lo..i] is in
    order and everything to the right of [j] is at least the entry. *)
Lemma insertion_inner_spec addrs lo j i :
  0 <= lo -> lo <= j -> j <= i -> i < Z.of_nat (length addrs) ->
  (forall p q, lo <= p -> p <= q -> q <= i -> p <> j -> q <> j ->
     load addrs p <= load addrs q) ->
  (forall q, j < q <= i -> load addrs j <= load addrs q) ->
  swapped lo i addrs (insertion_inner addrs lo j) /\
  sorted_on (insertion_inner addrs lo j) lo i.
Proof.
  funelim (insertion_inner addrs lo j); intros Hlo Hj Hi Hlen Hrest Hright.
  - destruct a as [Hjlo Hgt]. clear Heq.
    assert (Hbj : inb addrs j) by (unfold inb; lia).
    assert (Hbj1 : inb addrs (j - 1)) by (unfold inb; lia).
    destruct (H i) as [Hs Hsorted]; try rewrite length_swap; try lia.
    + intros p q Hp Hpq Hq Hpj Hqj. rewrite !load_swap by done.
      rewrite (decide_False (P := p = j - 1)) by done.
      rewrite (decide_False (P := q = j - 1)) by done.
      destruct (decide (p = j)) as [->|]; destruct (decide (q = j)) as [->|].
      * lia.
      * apply Hrest; lia.
      * apply Hrest; lia.
      * apply Hrest; lia.
    + intros q Hq. rewrite !load_swap by done.
      rewrite (decide_True (P := j - 1 = j - 1)) by done.
      rewrite (decide_False (P := q = j - 1)) by lia.
      destruct (decide (q = j)) as [->|]; [lia|]. apply Hright. lia.
    + split; [|done].
      eapply swapped_trans; [|exact Hs]. apply swapped_one; lia.
  - split; [constructor|]. clear Heq.
    intros p q Hp Hpq Hq.
    destruct (decide (p = q)) as [->|]; [lia|].
    destruct (decide (p = j)) as [->|]; [apply Hright; lia|].
    destruct (decide (q = j)) as [->|]; [|apply Hrest; lia].
    assert (load addrs (j - 1) <= load addrs j) by lia.
    assert (load addrs p <= load addrs (j - 1)) by (apply Hrest; lia).
    lia.
Qed.

Lemma insertion_outer_spec addrs lo hi i :
  0 <= lo -> lo < i -> hi < Z.of_nat (length addrs) ->
  sorted_on addrs lo (i - 1) ->
  swapped lo hi addrs (insertion_outer addrs lo hi i) /\
  sorted_on (insertion_outer addrs lo hi i) lo hi.
Proof.
  funelim (insertion_outer addrs lo hi i); intros Hlo Hi Hlen Hsorted.
  - clear Heq.
    destruct (insertion_inner_spec addrs lo i i) as [Hs1 Hsort1]; try lia.
    { intros p q Hp Hpq Hq Hpi Hqi. apply Hsorted; lia. }
    pose proof (swapped_length _ _ _ _ Hs1) as Hl1.
    destruct H as [Hs2 Hsort2]; try lia.
    { by replace (i + 1 - 1) with i by lia. }
    split; [|done].
    eapply swapped_trans; [|exact Hs2].
    eapply swapped_mono; [| |exact Hs1]; lia.
  - split; [constructor|]. eapply sorted_on_shrink; [|exact Hsorted]. lia.
Qed.

Lemma insertion_sort_spec addrs lo hi :
  0 <= lo -> hi < Z.of_nat (length addrs) ->
  swapped lo hi addrs (insertion_sort addrs lo hi) /\
  sorted_on (insertion_sort addrs lo hi) lo hi.
Proof.
  intros Hlo Hlen. apply insertion_outer_spec; [done|lia|done|].
  intros p q Hp Hpq Hq. replace q with p by lia. lia.
Qed.

(** *** [quicksort] *)

Lemma quicksort_spec addrs lo hi :
  0 <= lo -> hi < Z.of_nat (length addrs) -> hi < 2 ^ 30 ->
  swapped lo hi addrs (quicksort addrs lo hi) /\
  sorted_on (quicksort addrs lo hi) lo hi.
Proof.
  funelim (quicksort addrs lo hi); intros Hlo Hlen Hmax.
  - by apply insertion_sort_spec.
  - clear Heq H1. unfold SORT_THRESHOLD in *.
    pose proof (partition_spec addrs lo hi Hlo ltac:(lia) Hlen
                  ltac:(unfold INT_MAX; lia)) as Hpart.
    rewrite Hp in Hpart. simpl in Hpart.
    destruct Hpart as (Hs0 & Hmid & Hleft & Hright).
    pose proof (swapped_length _ _ _ _ Hs0) as Hl0.
    destruct H as [Hs1 Hsort1]; try lia.
    set (a1 := quicksort addrs1 lo (mid - 1)) in *.
    pose proof (swapped_length _ _ _ _ Hs1) as Hl1.
    destruct H0 as [Hs2 Hsort2]; try lia.
    set (a2 := quicksort a1 (mid + 1) hi) in *.
    (* the pivot and the two sides across the recursive calls *)
    assert (Hout1 : forall k, ~ (lo <= k <= mid - 1) -> load a1 k = load addrs1 k).
    { intros k Hk. apply (swapped_outside lo (mid - 1)); [done|lia|done|done]. }
    assert (Hout2 : forall k, ~ (mid + 1 <= k <= hi) -> load a2 k = load a1 k).
    { intros k Hk. apply (swapped_outside (mid + 1) hi); [lia|lia|done|done]. }
    assert (Hleft1 : forall k, lo <= k <= mid - 1 -> load a1 k <= load addrs1 mid).
    { apply (swapped_Forall (fun v => v <= load addrs1 mid) lo (mid - 1) addrs1);
        [done|lia|done|]. intros k Hk. apply Hleft. lia. }
    assert (Hright2 : forall k, mid + 1 <= k <= hi -> load addrs1 mid < load a2 k).
    { apply (swapped_Forall (fun v => load addrs1 mid < v) (mid + 1) hi a1);
        [lia|lia|done|]. intros k Hk. rewrite Hout1 by lia. apply Hright. lia. }
    split.
    + eapply swapped_trans; [exact Hs0|].
      eapply swapped_trans.
      * eapply swapped_mono; [| |exact Hs1]; lia.
      * eapply swapped_mono; [| |exact Hs2]; lia.
    + intros p q Hp' Hpq Hq.
      assert (Hm2 : load a2 mid = load addrs1 mid).
      { rewrite Hout2, Hout1 by lia. done. }
      destruct (decide (q < mid)).
      { rewrite !Hout2 by lia. apply Hsort1; lia. }
      destruct (decide (mid < p)).
      { apply Hsort2; lia. }
      assert (load a2 p <= load addrs1 mid).
      { destruct (decide (p = mid)) as [->|]; [lia|].
        rewrite Hout2 by lia. apply Hleft1. lia. }
      assert (load addrs1 mid <= load a2 q).
      { destruct (decide (q = mid)) as [->|]; [lia|].
        apply Z.lt_le_incl, Hright2. lia. }
      lia.
Qed.

Lemma swapped_drop lo hi a b (n : nat) :
  0 <= lo -> hi < Z.of_nat n -> (n <= length a)%nat ->
  swapped lo hi a b -> drop n b = drop n a.
Proof.
  intros Hlo Hhi Hn Hs. pose proof (swapped_length _ _ _ _ Hs) as Hl.
  apply list_eq. intros k. rewrite !lookup_drop.
  destruct (decide (n + k < length a)%nat) as [Hk|Hk].
  - pose proof (swapped_outside lo hi a b (Z.of_nat (n + k))
      Hlo ltac:(lia) Hs ltac:(lia)) as Hload.
    pose proof (load_lookup a (Z.of_nat (n + k))) as Ha.
    pose proof (load_lookup b (Z.of_nat (n + k))) as Hb.
    rewrite Nat2Z.id in Ha, Hb. unfold inb in *.
    rewrite Ha, Hb by lia. by rewrite Hload.
  - rewrite !(proj2 (lookup_ge_None _ _)) by lia. done.
Qed.

(** C1, for the lengths on which the midpoint of [partition] stays in
    [int]: for every buffer [a] and every length [n] inside it with
    [0 <= n <= 2^30], after [forkscan_util_sort(a, n)] the first [n]
    entries are a permutation of the original first [n] entries and are in
    non-decreasing order (every adjacent pair satisfies
    [a[i] <= a[i+1]]).  The rest of the buffer is left as it was. *)
Theorem forkscan_util_sort_correct (a : list Z) (n : Z) :
  0 <= n <= Z.of_nat (length a) ->
  n <= 2 ^ 30 ->
  take (Z.to_nat n) (forkscan_util_sort a n) ≡ₚ take (Z.to_nat n) a /\
  (forall i, 0 <= i -> i + 1 < n ->
     load (forkscan_util_sort a n) i <= load (forkscan_util_sort a n) (i + 1)) /\
  length (forkscan_util_sort a n) = length a /\
  drop (Z.to_nat n) (forkscan_util_sort a n) = drop (Z.to_nat n) a.
Proof.
  intros Hn Hmax. unfold forkscan_util_sort.
  destruct (quicksort_spec a 0 (n - 1)) as [Hs Hsorted]; [lia..|].
  set (a' := quicksort a 0 (n - 1)) in *.
  assert (Hdrop : drop (Z.to_nat n) a' = drop (Z.to_nat n) a).
  { apply (swapped_drop 0 (n - 1)); [lia..|done]. }
  split; [|split; [|split]].
  - apply (Permutation_app_inv_r (drop (Z.to_nat n) a)).
    rewrite <- Hdrop at 1. rewrite !take_drop.
    apply (swapped_perm 0 (n - 1)); [lia..|done].
  - intros i Hi Hi1. apply Hsorted; lia.
  - by apply swapped_length in Hs.
  - done.
Qed.

Lemma forkscan_util_sort_correct_witness :
  let a := [29; 3; 17; 8; 25; 1; 12; 30; 6; 21; 14; 2; 27; 9; 19;
            4; 23; 11; 16; 7; 99; 98] in
  take 20 (forkscan_util_sort a 20) ≡ₚ take 20 a /\
  (forall i, 0 <= i -> i + 1 < 20 ->
     load (forkscan_util_sort a 20) i <= load (forkscan_util_sort a 20) (i + 1)) /\
  length (forkscan_util_sort a 20) = length a /\
  drop 20 (forkscan_util_sort a 20) = drop 20 a.
Proof.
  intros a. apply (forkscan_util_sort_correct a 20); simpl; lia.
Defined.

(** C1 beyond [2^30] entries.  The range [min = 2^30], [max = INT_MAX - 1]
    lies inside a buffer of [INT_MAX] entries and has more than 17 entries,
    so [quicksort] partitions it; the sum [min + max] does not fit in
    [int], and the index [partition] takes its pivot from is negative,
    outside the buffer.  The midpoint as [binary_search_mark] computes it,
    [low + (high - low) / 2], is inside the range. *)
Lemma partition_pivot_outside_buffer :
  let lo := 2 ^ 30 in
  let hi := INT_MAX - 1 in
  0 <= lo /\ hi < INT_MAX /\ hi - lo > SORT_THRESHOLD /\
  midpoint lo hi = -536870913 /\
  lo <= lo + (hi - lo) ÷ 2 <= hi.
Proof. vm_compute. repeat split; congruence. Qed.

(** *** How [quicksort] dispatches on the size of a sub-range *)

(** The rule as the specification words it, on the number of entries
    [hi - lo + 1] of the sub-range: more than 16 entries are partitioned,
    at most 16 are left to [insertion_sort]. *)
Definition dispatch_by_count (c : handled) : Prop :=
  match c with
  | ByPartition lo hi pivot mid => hi - lo + 1 > 16 /\ pivot = (lo + hi) ÷ 2
  | ByInsertion lo hi => hi - lo + 1 <= 16
  end.

(** The rule of the code, on the difference of the bounds.  The pivot is
    the middle of the range where the sum of the bounds fits in [int]. *)
Definition dispatch_by_bounds (c : handled) : Prop :=
  match c with
  | ByPartition lo hi pivot mid =>
      hi - lo > SORT_THRESHOLD /\
      (0 <= lo -> lo + hi <= INT_MAX -> pivot = (lo + hi) ÷ 2) /\
      lo <= mid <= hi
  | ByInsertion lo hi => hi - lo <= SORT_THRESHOLD
  end.

(** [partition] leaves at [mid] the entry it found in the middle of the
    range. *)
Lemma partition_pivot_middle addrs lo hi :
  0 <= lo -> lo <= hi -> hi < Z.of_nat (length addrs) ->
  lo + hi <= INT_MAX ->
  load (fst (partition addrs lo hi)) (snd (partition addrs lo hi)) =
  load addrs ((lo + hi) ÷ 2).
Proof.
  intros Hlo Hle Hlen Hmax. unfold partition.
  pose proof (midpoint_bounds lo hi Hlo Hle Hmax) as Hp.
  rewrite <- (midpoint_exact lo hi Hlo Hle Hmax).
  set (pivot := midpoint lo hi) in *.
  set (pv := load addrs pivot).
  set (a1 := swap addrs pivot hi).
  assert (Hbp : inb addrs pivot) by (unfold inb; lia).
  assert (Hbh : inb addrs hi) by (unfold inb; lia).
  assert (Hl1 : length a1 = length addrs) by apply length_swap.
  assert (Hhi1 : load a1 hi = pv).
  { unfold a1. rewrite load_swap by done. by rewrite decide_True. }
  pose proof (partition_loop_spec a1 pv hi lo lo lo) as Hloop.
  destruct (partition_loop a1 pv hi lo lo) as [a2 mid]; simpl in *.
  destruct Hloop as (Hs & Hm & _ & _); try lia.
  pose proof (swapped_length _ _ _ _ Hs) as Hl2.
  rewrite load_swap by (unfold inb; lia).
  assert (Hhi2 : load a2 hi = pv).
  { rewrite <- Hhi1.
    apply (swapped_outside lo (hi - 1)); [done| lia | done | lia]. }
  destruct (decide (mid = hi)) as [->|]; [done|].
  by rewrite decide_True.
Qed.

Lemma quicksort_calls_by_bounds addrs lo hi :
  Forall dispatch_by_bounds (quicksort_calls addrs lo hi).
Proof.
  funelim (quicksort_calls addrs lo hi).
  - constructor; [|constructor]. simpl. lia.
  - constructor; [|by apply Forall_app].
    simpl. split; [done|split].
    { intros Hlo Hmax. unfold SORT_THRESHOLD in *.
      apply midpoint_exact; [done|lia|done]. }
    unfold SORT_THRESHOLD in *.
    pose proof (partition_mid addrs lo hi ltac:(lia)) as Hm.
    rewrite Hp in Hm. simpl in Hm. lia.
Qed.

Lemma quicksort_large addrs lo hi :
  hi - lo > SORT_THRESHOLD ->
  quicksort addrs lo hi =
    let '(addrs1, mid) := partition addrs lo hi in
    quicksort (quicksort addrs1 lo (mid - 1)) (mid + 1) hi.
Proof.
  intros Hgt. funelim (quicksort addrs lo hi); [done|].
  by rewrite Hp.
Qed.

Lemma quicksort_small addrs lo hi :
  hi - lo <= SORT_THRESHOLD ->
  quicksort addrs lo hi = insertion_sort addrs lo hi.
Proof.
  intros Hle. funelim (quicksort addrs lo hi); [done|lia].
Qed.

(** The sub-ranges [quicksort] works on stay inside the range it was
    called with, and [mid] and the pivot index inside their sub-range,
    on a range that ends below [2^30]. *)
Definition inside (lo0 hi0 : Z) (c : handled) : Prop :=
  match c with
  | ByPartition lo hi pivot mid =>
      lo0 <= lo /\ lo <= mid <= hi /\ hi <= hi0 /\ lo <= pivot <= hi
  | ByInsertion lo hi => lo0 <= lo /\ lo <= hi + 1 /\ hi <= hi0
  end.

Lemma quicksort_calls_inside addrs lo hi lo0 hi0 :
  0 <= lo0 -> lo0 <= lo -> lo <= hi + 1 -> hi <= hi0 -> hi0 < 2 ^ 30 ->
  Forall (inside lo0 hi0) (quicksort_calls addrs lo hi).
Proof.
  funelim (quicksort_calls addrs lo hi); intros Hlo0 Hlo Hle Hhi Hmax.
  - constructor; [|constructor]. simpl. lia.
  - unfold SORT_THRESHOLD in *.
    pose proof (partition_mid addrs lo hi ltac:(lia)) as Hm.
    rewrite Hp in Hm. simpl in Hm.
    pose proof (midpoint_bounds lo hi ltac:(lia) ltac:(lia)
                  ltac:(unfold INT_MAX; lia)) as Hq.
    constructor; [simpl; lia|].
    apply Forall_app. split; [apply H|apply H0]; lia.
Qed.

(** C8, as the code has it: [quicksort] partitions a sub-range [lo..hi]
    and recurses on the two sides when [hi - lo > 16], that is when the
    sub-range has at least 18 entries; it leaves the sub-range to
    [insertion_sort] when [hi - lo <= 16], that is when it has at most 17
    entries.  This holds of the call itself and of every call below it.
    Where [lo + hi] fits in [int], the pivot index is the middle index
    [(lo + hi) / 2] and the entry [partition] splits the range around is
    the one it finds there. *)
Theorem quicksort_dispatch (addrs : list Z) (lo hi : Z) :
  Forall dispatch_by_bounds (quicksort_calls addrs lo hi) /\
  (if decide (hi - lo > SORT_THRESHOLD)
   then quicksort addrs lo hi =
          let '(addrs1, mid) := partition addrs lo hi in
          quicksort (quicksort addrs1 lo (mid - 1)) (mid + 1) hi
   else quicksort addrs lo hi = insertion_sort addrs lo hi) /\
  (0 <= lo -> lo <= hi -> hi < Z.of_nat (length addrs) ->
   lo + hi <= INT_MAX ->
   load (partition addrs lo hi).1 (partition addrs lo hi).2 =
     load addrs ((lo + hi) ÷ 2)).
Proof.
  split; [apply quicksort_calls_by_bounds|]. split.
  - case_decide; [by apply quicksort_large | apply quicksort_small; lia].
  - apply partition_pivot_middle.
Qed.

(** C8 as stated fails on a sub-range of 17 entries: it has more than 16
    entries and [quicksort] hands it to [insertion_sort]. *)
Lemma quicksort_dispatch_17_entries :
  let addrs := [17; 16; 15; 14; 13; 12; 11; 10; 9; 8; 7; 6; 5; 4; 3; 2; 1] in
  quicksort_calls addrs 0 16 = [ByInsertion 0 16] /\
  quicksort addrs 0 16 = insertion_sort addrs 0 16 /\
  ~ Forall dispatch_by_count (quicksort_calls addrs 0 16).
Proof.
  intros addrs.
  assert (E : quicksort_calls addrs 0 16 = [ByInsertion 0 16])
    by (vm_compute; reflexivity).
  split; [done|split].
  - apply quicksort_small. unfold SORT_THRESHOLD. lia.
  - rewrite E. intros Hall. inversion Hall as [|c l Hc _]; subst.
    simpl in Hc. lia.
Qed.

(** *** [binary_search_mark] *)

(** The first [n] entries of [arr] are strictly increasing. *)
Definition strictly_sorted arr n : Prop :=
  forall p q, 0 <= p -> p < q -> q < n -> load arr p < load arr q.

(** Every flag is [0] (unmarked) or [1] (marked). *)
Definition flags_ok flags : Prop := Forall (fun f => f = 0 \/ f = 1) flags.

Lemma mid_bounds low high :
  low <= high -> low <= low + (high - low) ÷ 2 <= high.
Proof.
  intros Hle. rewrite Z.quot_div_nonneg by lia.
  assert (0 <= (high - low) / 2) by (apply Z.div_pos; lia).
  assert ((high - low) / 2 <= high - low)
    by (apply Z.div_le_upper_bound; lia).
  lia.
Qed.

Lemma strictly_sorted_inj arr n p q :
  strictly_sorted arr n -> 0 <= p < n -> 0 <= q < n ->
  load arr p = load arr q -> p = q.
Proof.
  intros Hs Hp Hq E.
  destruct (Z.lt_trichotomy p q) as [Hlt|[->|Hlt]]; [|done|].
  - pose proof (Hs p q ltac:(lia) Hlt ltac:(lia)). lia.
  - pose proof (Hs q p ltac:(lia) Hlt ltac:(lia)). lia.
Qed.

Lemma strictly_sorted_lt arr n p q :
  strictly_sorted arr n -> 0 <= p < n -> 0 <= q < n ->
  load arr p < load arr q -> p < q.
Proof.
  intros Hs Hp Hq Hlt.
  destruct (Z.lt_trichotomy p q) as [?|[->|Hgt]]; [done|lia|].
  pose proof (Hs q p ltac:(lia) Hgt ltac:(lia)). lia.
Qed.

Lemma binary_search_loop_found arr target flags low high n i :
  0 <= low -> high < n -> strictly_sorted arr n ->
  low <= i <= high -> load arr i = target ->
  binary_search_loop arr target flags low high =
    (i, arr, if decide (load flags i = 0) then store flags i 1 else flags).
Proof.
  funelim (binary_search_loop arr target flags low high);
    intros Hlow Hhigh Hs Hi Hload; [|lia].
  clear Heq Heqcall. pose proof (mid_bounds low high l) as Hm.
  set (mid := low + (high - low) ÷ 2) in *.
  destruct (decide (load arr mid = target)) as [Heq|Hne].
  - assert (mid = i) as ->; [|done].
    apply (strictly_sorted_inj arr n); [done|lia..].
  - destruct (decide (target < load arr mid)) as [Hlt|Hge].
    + apply (H Hne Hlt n); try done; try lia.
      assert (i < mid); [|lia].
      apply (strictly_sorted_lt arr n); [done|lia..].
    + apply (H0 Hne Hge n); try done; try lia.
      assert (mid < i); [|lia].
      apply (strictly_sorted_lt arr n); [done|lia..].
Qed.

Lemma binary_search_loop_absent arr target flags low high :
  (forall i, low <= i <= high -> load arr i <> target) ->
  binary_search_loop arr target flags low high = (-1, arr, flags).
Proof.
  funelim (binary_search_loop arr target flags low high);
    intros Habs; [|done].
  clear Heq Heqcall. pose proof (mid_bounds low high l) as Hm.
  set (mid := low + (high - low) ÷ 2) in *.
  destruct (decide (load arr mid = target)) as [Heq|Hne].
  - exfalso. apply (Habs mid); [lia|done].
  - destruct (decide (target < load arr mid)) as [Hlt|Hge].
    + apply (H Hne Hlt). intros i Hi. apply Habs. lia.
    + apply (H0 Hne Hge). intros i Hi. apply Habs. lia.
Qed.

Lemma store_load_id a i : store a i (load a i) = a.
Proof.
  unfold store, load. case_decide; [|done].
  destruct (a !! Z.to_nat i) as [v|] eqn:E; simpl.
  - by apply list_insert_id.
  - apply list_insert_ge. by apply lookup_ge_None.
Qed.

Lemma flags_ok_load flags i :
  flags_ok flags -> load flags i = 0 \/ load flags i = 1.
Proof.
  intros Hok. unfold load. case_decide; [|by left].
  destruct (flags !! Z.to_nat i) as [v|] eqn:E; simpl; [|by left].
  eapply (Forall_lookup_1 _ _ _ _ Hok E).
Qed.

(** C4: for a buffer [arr] whose [n] entries are strictly sorted and a
    flags buffer of at least [n] flags, each 0 or 1: when the target
    occurs in [arr], at index [i], [binary_search_mark] returns [i] and
    leaves [arr] as it was and the flags with the flag at [i] set to 1 and
    every other flag as it was; when the target does not occur, it returns
    [-1] and leaves [arr] and the flags as they were. *)
Theorem binary_search_mark_correct (arr flags : list Z) (n target : Z) :
  0 <= n <= Z.of_nat (length arr) ->
  n <= Z.of_nat (length flags) ->
  strictly_sorted arr n ->
  flags_ok flags ->
  (forall i, 0 <= i < n -> load arr i = target ->
     binary_search_mark arr n target flags = (i, arr, store flags i 1) /\
     load (store flags i 1) i = 1 /\
     (forall k, k <> i -> load (store flags i 1) k = load flags k)) /\
  ((forall i, 0 <= i < n -> load arr i <> target) ->
     binary_search_mark arr n target flags = (-1, arr, flags)).
Proof.
  intros Hn Hlen Hs Hok. unfold binary_search_mark. split.
  - intros i Hi Hload. split; [|split].
    + rewrite (binary_search_loop_found arr target flags 0 (n - 1) n i)
        by (done || lia).
      f_equal. case_decide as H0; [done|].
      destruct (flags_ok_load flags i Hok) as [?|H1]; [done|].
      pose proof (store_load_id flags i) as E. rewrite H1 in E. by rewrite E.
    + apply load_store_eq. unfold inb. lia.
    + intros k Hk. by apply load_store_ne.
  - intros Habs. apply binary_search_loop_absent.
    intros i Hi. apply Habs. lia.
Qed.

Lemma binary_search_mark_correct_witness :
  (forall i, 0 <= i < 4 -> load [1; 3; 5; 8] i = 5 ->
     binary_search_mark [1; 3; 5; 8] 4 5 [1; 0; 0; 0] =
       (i, [1; 3; 5; 8], store [1; 0; 0; 0] i 1) /\
     load (store [1; 0; 0; 0] i 1) i = 1 /\
     (forall k, k <> i ->
        load (store [1; 0; 0; 0] i 1) k = load [1; 0; 0; 0] k)) /\
  ((forall i, 0 <= i < 4 -> load [1; 3; 5; 8] i <> 5) ->
     binary_search_mark [1; 3; 5; 8] 4 5 [1; 0; 0; 0] =
       (-1, [1; 3; 5; 8], [1; 0; 0; 0])).
Proof.
  apply (binary_search_mark_correct [1; 3; 5; 8] [1; 0; 0; 0] 4 5).
  - simpl. lia.
  - simpl. lia.
  - intros p q Hp Hpq Hq.
    assert (Hc : p = 0 /\ (q = 1 \/ q = 2 \/ q = 3) \/
                 p = 1 /\ (q = 2 \/ q = 3) \/ p = 2 /\ q = 3) by lia.
    destruct Hc as [[-> [->| [->| ->]]]| [[-> [->| ->]]| [-> ->]]];
      vm_compute; reflexivity.
  - unfold flags_ok. repeat (constructor; [lia|]). constructor.
Defined.

(** *** [filter_marked_array] *)

(** The keys that survive compaction, as the specification describes them:
    those whose flag is [0], in their original order. *)
Fixpoint survivors (keys flags : list Z) : list Z :=
  match keys, flags with
  | k :: keys, f :: flags =>
      if decide (f = 0) then k :: survivors keys flags
      else survivors keys flags
  | _, _ => []
  end.

(** The entries of [a] at [i..n-1]. *)
Definition seg a i n : list Z :=
  take (Z.to_nat (n - i)) (drop (Z.to_nat i) a).

Lemma seg_cons a i n :
  0 <= i -> i < n -> n <= Z.of_nat (length a) ->
  seg a i n = load a i :: seg a (i + 1) n.
Proof.
  intros Hi Hin Hn. unfold seg.
  rewrite (drop_S a (load a i) (Z.to_nat i))
    by (apply load_lookup; unfold inb; lia).
  replace (Z.to_nat (n - i)) with (S (Z.to_nat (n - (i + 1)))) by lia.
  replace (Z.to_nat (i + 1)) with (S (Z.to_nat i)) by lia.
  done.
Qed.

Lemma seg_nil a i n : n <= i -> seg a i n = [].
Proof. intros Hle. unfold seg. by replace (Z.to_nat (n - i)) with 0%nat by lia. Qed.

Lemma seg_store a k v i n : 0 <= k < i -> seg (store a k v) i n = seg a i n.
Proof.
  intros Hk. unfold seg, store. rewrite decide_True by lia.
  rewrite drop_insert_lt by lia. done.
Qed.

Lemma take_store_snoc a k v :
  inb a k ->
  take (Z.to_nat (k + 1)) (store a k v) = take (Z.to_nat k) a ++ [v].
Proof.
  intros [Hk0 Hk1]. unfold store. rewrite decide_True by lia.
  replace (Z.to_nat (k + 1)) with (S (Z.to_nat k)) by lia.
  rewrite (take_S_r _ _ v) by (apply list_lookup_insert_eq; lia).
  rewrite take_insert_ge by lia. done.
Qed.

Lemma survivors_length keys flags :
  length keys = length flags ->
  length (survivors keys flags) = length (filter (fun f => f = 0) flags).
Proof.
  revert flags. induction keys as [|k keys IH]; intros [|f flags] Hl;
    simplify_eq/=; [done|].
  rewrite filter_cons. case_decide; simpl; auto.
Qed.

Lemma filter_loop_spec arr flags n i new_n :
  0 <= new_n -> new_n <= i -> i <= n ->
  n <= Z.of_nat (length arr) -> n <= Z.of_nat (length flags) ->
  let r := filter_loop arr flags n i new_n in
  r.2 = new_n + Z.of_nat (length (survivors (seg arr i n) (seg flags i n))) /\
  take (Z.to_nat r.2) r.1.1 =
    take (Z.to_nat new_n) arr ++ survivors (seg arr i n) (seg flags i n) /\
  (forall k, 0 <= k < new_n -> load r.1.2 k = load flags k) /\
  (forall k, new_n <= k < r.2 -> load r.1.2 k = 0) /\
  length r.1.1 = length arr /\ length r.1.2 = length flags.
Proof.
  funelim (filter_loop arr flags n i new_n);
    intros Hnew Hle Hin Hla Hlf; simpl.
  - clear Heq Heqcall.
    rewrite (seg_cons arr i n), (seg_cons flags i n) by lia. simpl.
    destruct (decide (load flags i = 0)) as [Hz|Hnz].
    + clear H0. specialize (H Hz).
      rewrite !length_store, !seg_store in H by lia.
      destruct H as (Hm & Htake & Hpre & Hzero & Hl1 & Hl2); try lia.
      set (r := filter_loop _ _ _ _ _) in *.
      rewrite take_store_snoc in Htake by (unfold inb; lia).
      split; [|split; [|split; [|split]]].
      * simpl. lia.
      * rewrite Htake, <- app_assoc. done.
      * intros k Hk. rewrite Hpre by lia. apply load_store_ne. lia.
      * intros k Hk. destruct (decide (k = new_n)) as [->|].
        -- rewrite Hpre by lia. apply load_store_eq. unfold inb. lia.
        -- apply Hzero. lia.
      * done.
    + clear H. specialize (H0 Hnz).
      destruct H0 as (Hm & Htake & Hpre & Hzero & Hl1 & Hl2); try lia.
      done.
  - rewrite !seg_nil by lia. simpl.
    split; [lia|]. split; [by rewrite app_nil_r|].
    split; [done|]. split; [lia|done].
Qed.

(** C5: after [filter_marked_array(arr, &n, flags)] the new length is the
    number of positions below [n] whose flag was [0]; the first entries of
    the buffer, up to the new length, are the keys whose flag was [0], in
    their original order; and every flag below the new length is [0]. *)
Theorem filter_marked_array_correct (arr flags : list Z) (n : Z) :
  0 <= n <= Z.of_nat (length arr) ->
  n <= Z.of_nat (length flags) ->
  let r := filter_marked_array arr n flags in
  r.2 = Z.of_nat (length (filter (fun f => f = 0) (take (Z.to_nat n) flags))) /\
  take (Z.to_nat r.2) r.1.1 =
    survivors (take (Z.to_nat n) arr) (take (Z.to_nat n) flags) /\
  (forall k, 0 <= k < r.2 -> load r.1.2 k = 0).
Proof.
  intros Hn Hf. unfold filter_marked_array.
  destruct (filter_loop_spec arr flags n 0 0)
    as (Hm & Htake & _ & Hzero & _); try lia.
  unfold seg in *. simpl in *.
  rewrite Z.sub_0_r, !drop_0 in Hm, Htake.
  split; [|split].
  - rewrite Hm. simpl. rewrite survivors_length; [done|].
    rewrite !length_take. lia.
  - done.
  - intros k Hk. apply Hzero. lia.
Qed.

Lemma filter_marked_array_correct_witness :
  let r := filter_marked_array [1; 3; 5; 8; 77] 4 [1; 0; 1; 0; 1] in
  r.2 = Z.of_nat (length (filter (fun f => f = 0) (take 4 [1; 0; 1; 0; 1]))) /\
  take (Z.to_nat r.2) r.1.1 = survivors (take 4 [1; 3; 5; 8; 77]) (take 4 [1; 0; 1; 0; 1]) /\
  (forall k, 0 <= k < r.2 -> load r.1.2 k = 0).
Proof.
  apply (filter_marked_array_correct [1; 3; 5; 8; 77] [1; 0; 1; 0; 1] 4);
    simpl; lia.
Defined.

Example array_registry_scenario :
  let arr := forkscan_util_sort [5; 3; 8; 1] 4 in
  let '(i5, arr1, flags1) := binary_search_mark arr 4 5 [0; 0; 0; 0] in
  let '(i1, arr2, flags2) := binary_search_mark arr1 4 1 flags1 in
  arr2 = [1; 3; 5; 8] /\ i5 = 2 /\ i1 = 0 /\ flags2 = [1; 0; 1; 0] /\
  filter_marked_array arr 4 flags2 = ([3; 8; 5; 8], [0; 0; 1; 0], 2).
Proof. vm_compute. repeat split; reflexivity. Qed.

(** *** The flags stay 0 or 1 *)

Lemma flags_ok_store flags i v :
  flags_ok flags -> v = 0 \/ v = 1 -> flags_ok (store flags i v).
Proof.
  intros Hok Hv. unfold store. case_decide; [|done]. by apply Forall_insert.
Qed.

Lemma binary_search_loop_flags_ok arr target flags low high :
  flags_ok flags ->
  flags_ok (binary_search_loop arr target flags low high).2.
Proof.
  funelim (binary_search_loop arr target flags low high); intros Hok; [|done].
  clear Heq Heqcall.
  destruct (decide (load arr (low + (high - low) ÷ 2) = target)) as [E|Hne].
  - simpl. case_decide; [|done]. apply flags_ok_store; auto.
  - destruct (decide (target < load arr (low + (high - low) ÷ 2))); auto.
Qed.

Lemma binary_search_mark_flags_ok arr n target flags :
  flags_ok flags -> flags_ok (binary_search_mark arr n target flags).2.
Proof. apply binary_search_loop_flags_ok. Qed.

Lemma filter_loop_flags_ok arr flags n i new_n :
  flags_ok flags -> flags_ok (filter_loop arr flags n i new_n).1.2.
Proof.
  funelim (filter_loop arr flags n i new_n); intros Hok; [|done].
  clear Heq Heqcall.
  destruct (decide (load flags i = 0)) as [E|Hne]; [|auto].
  apply H; [done|]. apply flags_ok_store; auto.
Qed.

Lemma filter_marked_array_flags_ok arr n flags :
  flags_ok flags -> flags_ok (filter_marked_array arr n flags).1.2.
Proof. apply filter_loop_flags_ok. Qed.

End Arrays.

(** * Properties of the ordered registry *)

Section AvlTree.

Import Avl.

Implicit Types (t l r node : avl_node) (k key : Z).

#[local] Arguments insert_rebalance : simpl never.

(** The keys in the order [inorder_traverse] visits them. *)
Fixpoint keys_inorder t : list Z :=
  match t with
  | NULL => []
  | Node k _ _ l r => keys_inorder l ++ k :: keys_inorder r
  end.

(** The height of a subtree, counted on its shape. *)
Fixpoint real_height t : Z :=
  match t with
  | NULL => 0
  | Node _ _ _ l r => 1 + Z.max (real_height l) (real_height r)
  end.

(** At every node the stored height is one more than the larger stored
    height of the children, and the children's heights differ by at most
    one. *)
Fixpoint avl_inv t : Prop :=
  match t with
  | NULL => True
  | Node _ h _ l r =>
      h = 1 + Z.max (height l) (height r) /\
      -1 <= height l - height r <= 1 /\
      avl_inv l /\ avl_inv r
  end.

(** After an insertion of [k] that made the subtree higher, the side [k]
    went to is the higher one. *)
Definition grew_side t k : Prop :=
  match t with
  | NULL => False
  | Node k' _ _ l r =>
      (k < k' /\ height l = height r + 1) \/
      (k > k' /\ height r = height l + 1)
  end.

Lemma max_int_max a b : max_int a b = Z.max a b.
Proof. unfold max_int. case_decide; lia. Qed.

Lemma avl_inv_height t : avl_inv t -> height t = real_height t.
Proof.
  induction t as [|k h m l IHl r IHr]; simpl; [done|].
  intros (Hh & _ & Hl & Hr). rewrite <- IHl, <- IHr by done. done.
Qed.

Lemma real_height_nonneg t : 0 <= real_height t.
Proof. induction t; simpl; lia. Qed.

Lemma avl_inv_height_nonneg t : avl_inv t -> 0 <= height t.
Proof. intros H. rewrite avl_inv_height by done. apply real_height_nonneg. Qed.

(** A balanced tree of height [h] has at least [2 ^ (h / 2) - 1] nodes, so
    the heights of the trees a machine can hold are far inside [int]. *)
Lemma avl_inv_size t :
  avl_inv t ->
  2 ^ (height t / 2) <= Z.of_nat (length (keys_inorder t)) + 1.
Proof.
  induction t as [|k h m l IHl r IHr]; [done|].
  intros Hinv. pose proof Hinv as (Hh & Hb & Hl & Hr).
  specialize (IHl Hl). specialize (IHr Hr).
  pose proof (avl_inv_height_nonneg l Hl) as Hl0.
  pose proof (avl_inv_height_nonneg r Hr) as Hr0.
  simpl. rewrite length_app. simpl.
  set (lo := Z.min (height l) (height r)).
  assert (Hlo : 0 <= lo) by lia.
  assert (Hdiv : h / 2 <= lo / 2 + 1).
  { replace (lo / 2 + 1) with ((lo + 1 * 2) / 2) by (by rewrite Z.div_add).
    apply Z.div_le_mono; lia. }
  assert (Hpow : 2 ^ (h / 2) <= 2 * 2 ^ (lo / 2)).
  { rewrite <- Z.pow_succ_r by (apply Z.div_pos; lia).
    apply Z.pow_le_mono_r; lia. }
  assert (2 ^ (lo / 2) <= 2 ^ (height l / 2))
    by (apply Z.pow_le_mono_r; [lia|apply Z.div_le_mono; lia]).
  assert (2 ^ (lo / 2) <= 2 ^ (height r / 2))
    by (apply Z.pow_le_mono_r; [lia|apply Z.div_le_mono; lia]).
  lia.
Qed.

(** No rotation is tried on a node whose children differ by at most one. *)
Lemma insert_rebalance_balanced k' h m l r key :
  -1 <= height l - height r <= 1 ->
  insert_rebalance (Node k' h m l r) key =
    Some (Node k' (1 + Z.max (height l) (height r)) m l r).
Proof.
  intros Hb. unfold insert_rebalance, get_balance.
  rewrite max_int_max.
  rewrite !(bool_decide_eq_false_2 (_ > 1)) by lia.
  rewrite !(bool_decide_eq_false_2 (_ < -1)) by lia.
  done.
Qed.

Ltac avl_heights :=
  repeat match goal with
  | H : avl_inv (Node _ _ _ _ _) |- _ =>
      let Hh := fresh "Hh" in let Hb := fresh "Hb" in
      let Hl := fresh "Hl" in let Hr := fresh "Hr" in
      destruct H as (Hh & Hb & Hl & Hr)
  end;
  repeat match goal with
  | H : avl_inv ?t |- _ =>
      lazymatch goal with
      | _ : 0 <= height t |- _ => fail
      | _ => pose proof (avl_inv_height_nonneg t H)
      end
  end;
  simpl height in *.

(** The left child has become two higher than the right one: the single
    right rotation or the left-right double rotation restores the balance
    and the height the subtree had before. *)
Lemma insert_rebalance_left k' h m l r key :
  avl_inv l -> avl_inv r ->
  height l = height r + 2 -> grew_side l key ->
  exists t',
    insert_rebalance (Node k' h m l r) key = Some t' /\
    avl_inv t' /\ height t' = height r + 2 /\
    keys_inorder t' = keys_inorder l ++ k' :: keys_inorder r.
Proof.
  intros Hl Hr Hh Hg.
  destruct l as [|lk lh lm ll lr]; [done|].
  destruct Hg as [[Hlt Hs]|[Hgt Hs]].
  - (* key < lk: right_rotate *)
    unfold insert_rebalance, get_balance, and_then. simpl key_of.
    rewrite (bool_decide_eq_true_2 (_ > 1)) by (simpl in *; lia).
    simpl. rewrite (bool_decide_eq_true_2 (key < lk)) by done.
    eexists. split; [reflexivity|].
    avl_heights. rewrite !max_int_max. simpl.
    split; [|split; [lia|]].
    + repeat split; try done; lia.
    + by rewrite <- app_assoc.
  - (* key > lk: left_rotate the child, then right_rotate *)
    destruct lr as [|rk rh rm rl rr].
    { avl_heights. simpl in *. lia. }
    unfold insert_rebalance, get_balance, and_then. simpl key_of.
    rewrite !(bool_decide_eq_true_2 (_ > 1)) by (simpl in *; lia).
    rewrite !(bool_decide_eq_false_2 (_ < -1)) by (simpl in *; lia).
    simpl. rewrite (bool_decide_eq_false_2 (key < lk)) by lia.
    rewrite (bool_decide_eq_true_2 (key > lk)) by done.
    eexists. split; [reflexivity|].
    avl_heights. rewrite !max_int_max. simpl.
    split; [|split; [lia|]].
    + repeat split; try done; lia.
    + rewrite <- ?app_assoc. simpl. by rewrite <- ?app_assoc.
Qed.

Lemma insert_rebalance_right k' h m l r key :
  avl_inv l -> avl_inv r ->
  height r = height l + 2 -> grew_side r key ->
  exists t',
    insert_rebalance (Node k' h m l r) key = Some t' /\
    avl_inv t' /\ height t' = height l + 2 /\
    keys_inorder t' = keys_inorder l ++ k' :: keys_inorder r.
Proof.
  intros Hl Hr Hh Hg.
  destruct r as [|rk rh rm rl rr]; [done|].
  destruct Hg as [[Hlt Hs]|[Hgt Hs]].
  - (* key < rk: right_rotate the child, then left_rotate *)
    destruct rl as [|lk lh lm ll lr].
    { avl_heights. simpl in *. lia. }
    unfold insert_rebalance, get_balance, and_then. simpl key_of.
    rewrite !(bool_decide_eq_false_2 (_ > 1)) by (simpl in *; lia).
    rewrite !(bool_decide_eq_true_2 (_ < -1)) by (simpl in *; lia).
    simpl. rewrite (bool_decide_eq_false_2 (key > rk)) by lia.
    rewrite (bool_decide_eq_true_2 (key < rk)) by done.
    eexists. split; [reflexivity|].
    avl_heights. rewrite !max_int_max. simpl.
    split; [|split; [lia|]].
    + repeat split; try done; lia.
    + rewrite <- ?app_assoc. simpl. by rewrite <- ?app_assoc.
  - (* key > rk: left_rotate *)
    unfold insert_rebalance, get_balance, and_then. simpl key_of.
    rewrite !(bool_decide_eq_false_2 (_ > 1)) by (simpl in *; lia).
    rewrite (bool_decide_eq_true_2 (_ < -1)) by (simpl in *; lia).
    simpl. rewrite (bool_decide_eq_true_2 (key > rk)) by done.
    eexists. split; [reflexivity|].
    avl_heights. rewrite !max_int_max. simpl.
    split; [|split; [lia|]].
    + repeat split; try done; lia.
    + by rewrite <- app_assoc.
Qed.

(** What [insert_node] does at a node once the key has gone into the left
    child: [l'] is the child after the recursive call. *)
Lemma insert_left_step k' h m l r l' key :
  avl_inv (Node k' h m l r) -> avl_inv l' ->
  height l' = height l \/
    (height l' = height l + 1 /\ (l = NULL \/ grew_side l' key)) ->
  key < k' ->
  exists t',
    insert_rebalance (Node k' h m l' r) key = Some t' /\
    avl_inv t' /\
    keys_inorder t' = keys_inorder l' ++ k' :: keys_inorder r /\
    (height t' = h \/ (height t' = h + 1 /\ grew_side t' key)) /\
    (l' = l -> t' = Node k' h m l r).
Proof.
  intros (Hh & Hb & Hl & Hr) Hl' Hgrow Hlt.
  pose proof (avl_inv_height_nonneg l Hl) as Hl0.
  pose proof (avl_inv_height_nonneg r Hr) as Hr0.
  destruct (decide (height l' - height r <= 1)) as [Hok|Htall].
  - rewrite insert_rebalance_balanced by lia.
    eexists. split; [reflexivity|]. simpl.
    split; [repeat split; try done; lia|]. split; [done|]. split.
    + destruct Hgrow as [E|[E _]]; [left; lia|].
      destruct (decide (height l = height r)); [right|left; lia].
      split; [lia|]. left. lia.
    + intros ->. by rewrite Hh.
  - destruct Hgrow as [E|[E [->|Hg]]]; [lia|simpl in *; lia|].
    destruct (insert_rebalance_left k' h m l' r key)
      as (t' & Ht' & Hinv & Hht & Hkeys); [done|done|lia|done|].
    exists t'. split; [done|]. split; [done|]. split; [done|]. split.
    + left. lia.
    + intros ->. lia.
Qed.

Lemma insert_right_step k' h m l r r' key :
  avl_inv (Node k' h m l r) -> avl_inv r' ->
  height r' = height r \/
    (height r' = height r + 1 /\ (r = NULL \/ grew_side r' key)) ->
  key > k' ->
  exists t',
    insert_rebalance (Node k' h m l r') key = Some t' /\
    avl_inv t' /\
    keys_inorder t' = keys_inorder l ++ k' :: keys_inorder r' /\
    (height t' = h \/ (height t' = h + 1 /\ grew_side t' key)) /\
    (r' = r -> t' = Node k' h m l r).
Proof.
  intros (Hh & Hb & Hl & Hr) Hr' Hgrow Hgt.
  pose proof (avl_inv_height_nonneg l Hl) as Hl0.
  pose proof (avl_inv_height_nonneg r Hr) as Hr0.
  destruct (decide (height r' - height l <= 1)) as [Hok|Htall].
  - rewrite insert_rebalance_balanced by lia.
    eexists. split; [reflexivity|]. simpl.
    split; [repeat split; try done; lia|]. split; [done|]. split.
    + destruct Hgrow as [E|[E _]]; [left; lia|].
      destruct (decide (height l = height r)); [right|left; lia].
      split; [lia|]. right. lia.
    + intros ->. by rewrite Hh.
  - destruct Hgrow as [E|[E [->|Hg]]]; [lia|simpl in *; lia|].
    destruct (insert_rebalance_right k' h m l r' key)
      as (t' & Ht' & Hinv & Hht & Hkeys); [done|done|lia|done|].
    exists t'. split; [done|]. split; [done|]. split; [done|]. split.
    + left. lia.
    + intros ->. lia.
Qed.

(** Insertion into a sorted list of keys, the specification of what
    [insert_node] does to the in-order sequence. *)
Fixpoint ins_list (x : Z) (ks : list Z) : list Z :=
  match ks with
  | [] => [x]
  | a :: ks' =>
      if decide (x < a) then x :: a :: ks'
      else if decide (x = a) then a :: ks'
      else a :: ins_list x ks'
  end.

Lemma ins_list_lt x a (l1 l2 : list Z) :
  x < a -> ins_list x (l1 ++ a :: l2) = ins_list x l1 ++ a :: l2.
Proof.
  intros Hlt. induction l1 as [|b l1 IH]; simpl.
  - by rewrite decide_True.
  - repeat case_decide; try done. by rewrite IH.
Qed.

Lemma ins_list_gt x a (l1 l2 : list Z) :
  Forall (fun y => y < a) l1 -> a < x ->
  ins_list x (l1 ++ a :: l2) = l1 ++ a :: ins_list x l2.
Proof.
  intros Hall Hgt. induction Hall as [|b l1 Hb Hall IH]; simpl.
  - rewrite !decide_False by lia. done.
  - rewrite !decide_False by lia. by rewrite IH.
Qed.

Lemma ins_list_eq a (l1 l2 : list Z) :
  Forall (fun y => y < a) l1 ->
  ins_list a (l1 ++ a :: l2) = l1 ++ a :: l2.
Proof.
  intros Hall. induction Hall as [|b l1 Hb Hall IH]; simpl.
  - rewrite decide_False by lia. by rewrite decide_True.
  - rewrite !decide_False by lia. by rewrite IH.
Qed.

Lemma elem_of_ins_list x y ks : y ∈ ins_list x ks <-> y = x \/ y ∈ ks.
Proof.
  induction ks as [|a ks IH]; simpl.
  - rewrite list_elem_of_singleton, elem_of_nil. tauto.
  - repeat case_decide; rewrite ?elem_of_cons, ?IH, ?elem_of_cons;
      subst; tauto.
Qed.

Lemma ins_list_sorted x ks :
  StronglySorted Z.lt ks -> StronglySorted Z.lt (ins_list x ks).
Proof.
  induction 1 as [|a ks Hs IH Hall]; simpl.
  - repeat constructor.
  - repeat case_decide.
    + constructor; [by constructor|].
      constructor; [done|]. eapply Forall_impl; [exact Hall|].
      simpl. intros. lia.
    + by constructor.
    + constructor; [done|]. apply Forall_forall. intros y Hy.
      apply elem_of_ins_list in Hy as [->|Hy]; [lia|].
      by eapply Forall_forall in Hall.
Qed.

Lemma ins_list_absent x ks : x ∉ ks -> ins_list x ks ≡ₚ x :: ks.
Proof.
  induction ks as [|a ks IH]; simpl; intros Hin; [done|].
  apply not_elem_of_cons in Hin as [Hne Hin].
  repeat case_decide; try done.
  rewrite IH by done. apply perm_swap.
Qed.

Lemma sorted_app_inv (l1 l2 : list Z) a :
  StronglySorted Z.lt (l1 ++ a :: l2) ->
  StronglySorted Z.lt l1 /\ StronglySorted Z.lt l2 /\
  Forall (fun y => y < a) l1 /\ Forall (fun y => a < y) l2.
Proof.
  induction l1 as [|b l1 IH]; simpl; intros Hs.
  - inversion Hs; subst. repeat split; try done. constructor.
  - inversion Hs as [|? ? Hs' Hall]; subst.
    destruct (IH Hs') as (H1 & H2 & H3 & H4).
    repeat split; try done.
    + constructor; [done|]. by apply Forall_app in Hall as [? _].
    + constructor; [|done].
      apply Forall_app in Hall as [_ Hall]. by inversion Hall.
Qed.

(** The in-order keys are strictly increasing. *)
Definition sorted_keys t : Prop := StronglySorted Z.lt (keys_inorder t).

(** [insert_node] on a well-formed subtree: it returns, the result is
    well formed, its keys are those of [t] with [key] inserted in order,
    its height is that of [t] or one more, and a key that was there
    already leaves the subtree as it was. *)
Lemma insert_node_spec t key :
  avl_inv t -> sorted_keys t ->
  exists t' ins,
    insert_node t key = Some (t', ins) /\
    avl_inv t' /\
    keys_inorder t' = ins_list key (keys_inorder t) /\
    (height t' = height t \/
       (height t' = height t + 1 /\ (t = NULL \/ grew_side t' key))) /\
    (if decide (key ∈ keys_inorder t) then ins = 0 /\ t' = t else ins = 1).
Proof.
  unfold sorted_keys.
  induction t as [|k' h m l IHl r IHr]; intros Hinv Hs.
  - exists (new_node key), 1.
    split; [done|]. split; [simpl; repeat split; lia|]. split; [done|].
    split; [right; split; [done|by left]|].
    destruct (decide (key ∈ keys_inorder NULL)) as [Hin|]; [|done].
    by apply elem_of_nil in Hin.
  - simpl in Hs. destruct (sorted_app_inv _ _ _ Hs) as (Hsl & Hsr & Hltl & Hgtr).
    pose proof Hinv as (Hh & Hb & Hil & Hir).
    assert (Hmem : forall x, x ∈ keys_inorder (Node k' h m l r) <->
              x ∈ keys_inorder l \/ x = k' \/ x ∈ keys_inorder r).
    { intros x. simpl. rewrite elem_of_app, elem_of_cons. tauto. }
    simpl insert_node.
    destruct (decide (key < k')) as [Hlt|Hge]; [|destruct (decide (key > k')) as [Hgt|Hle]].
    + destruct (IHl Hil Hsl) as (l' & ins & Hins & Hil' & Hkeys & Hht & Hdec).
      rewrite Hins. simpl.
      destruct (insert_left_step k' h m l r l' key Hinv Hil' Hht Hlt)
        as (t' & Hreb & Hinv' & Hkeys' & Hht' & Hsame).
      rewrite Hreb. simpl. exists t', ins.
      split; [done|]. split; [done|]. split; [|split].
      * rewrite Hkeys', Hkeys. simpl. by rewrite ins_list_lt.
      * simpl. destruct Hht' as [?|[? ?]]; [by left|right; auto].
      * assert (Hiff : key ∈ keys_inorder (Node k' h m l r) <-> key ∈ keys_inorder l).
        { rewrite Hmem. split; [|tauto]. intros [?|[?|Hr]]; [done|lia|].
          pose proof (proj1 (Forall_forall _ _) Hgtr key Hr). simpl in *. lia. }
        destruct (decide (key ∈ keys_inorder l)) as [Hin|Hnin].
        -- rewrite decide_True by (by apply Hiff).
           destruct Hdec as [-> ->]. split; [done|]. by apply Hsame.
        -- rewrite decide_False by (by rewrite Hiff). done.
    + destruct (IHr Hir Hsr) as (r' & ins & Hins & Hir' & Hkeys & Hht & Hdec).
      rewrite Hins. simpl.
      destruct (insert_right_step k' h m l r r' key Hinv Hir' Hht Hgt)
        as (t' & Hreb & Hinv' & Hkeys' & Hht' & Hsame).
      rewrite Hreb. simpl. exists t', ins.
      split; [done|]. split; [done|]. split; [|split].
      * rewrite Hkeys', Hkeys. simpl. rewrite ins_list_gt; [done|done|lia].
      * simpl. destruct Hht' as [?|[? ?]]; [by left|right; auto].
      * assert (Hiff : key ∈ keys_inorder (Node k' h m l r) <-> key ∈ keys_inorder r).
        { rewrite Hmem. split; [|tauto]. intros [Hl|[?|?]]; [|lia|done].
          pose proof (proj1 (Forall_forall _ _) Hltl key Hl). simpl in *. lia. }
        destruct (decide (key ∈ keys_inorder r)) as [Hin|Hnin].
        -- rewrite decide_True by (by apply Hiff).
           destruct Hdec as [-> ->]. split; [done|]. by apply Hsame.
        -- rewrite decide_False by (by rewrite Hiff). done.
    + assert (key = k') as -> by lia.
      exists (Node k' h m l r), 0.
      split; [done|]. split; [done|]. split; [|split].
      * simpl. by rewrite ins_list_eq.
      * by left.
      * rewrite decide_True; [done|]. apply Hmem. tauto.
Qed.

Lemma contains_node_spec t key :
  sorted_keys t ->
  contains_node t key = if decide (key ∈ keys_inorder t) then 1 else 0.
Proof.
  unfold sorted_keys. induction t as [|k' h m l IHl r IHr]; intros Hs.
  - simpl contains_node.
    destruct (decide (key ∈ keys_inorder NULL)) as [Hin|]; [|done].
    by apply elem_of_nil in Hin.
  - simpl in Hs. destruct (sorted_app_inv _ _ _ Hs) as (Hsl & Hsr & Hltl & Hgtr).
    assert (Hmem : key ∈ keys_inorder (Node k' h m l r) <->
              key ∈ keys_inorder l \/ key = k' \/ key ∈ keys_inorder r).
    { simpl. rewrite elem_of_app, elem_of_cons. tauto. }
    assert (Hl : key ∈ keys_inorder l -> key < k').
    { intros Hin. apply (proj1 (Forall_forall _ _) Hltl key Hin). }
    assert (Hr : key ∈ keys_inorder r -> k' < key).
    { intros Hin. apply (proj1 (Forall_forall _ _) Hgtr key Hin). }
    simpl contains_node.
    destruct (decide (key = k')) as [->|Hne].
    { rewrite decide_True; [done|]. apply Hmem. tauto. }
    destruct (decide (key < k')) as [Hlt|Hge].
    + rewrite (IHl Hsl).
      destruct (decide (key ∈ keys_inorder l)) as [Hin|Hnin].
      * rewrite decide_True; [done|]. apply Hmem. tauto.
      * rewrite decide_False; [done|]. rewrite Hmem.
        intros [?|[?|?]]; [done|done|]. specialize (Hr ltac:(done)). lia.
    + rewrite (IHr Hsr).
      destruct (decide (key ∈ keys_inorder r)) as [Hin|Hnin].
      * rewrite decide_True; [done|]. apply Hmem. tauto.
      * rewrite decide_False; [done|]. rewrite Hmem.
        intros [?|[?|?]]; [|done|done]. specialize (Hl ltac:(done)). lia.
Qed.

(** A well-formed registry: balanced with the heights stored, and with
    strictly increasing keys. *)
Definition tree_ok (tree : avl_tree) : Prop :=
  avl_inv (root tree) /\ sorted_keys (root tree).

Lemma avl_create_ok : tree_ok avl_create.
Proof. split; [done|]. constructor. Qed.

Lemma avl_insert_spec tree key :
  tree_ok tree ->
  exists tree' ins,
    avl_insert tree key = Some (tree', ins) /\
    tree_ok tree' /\
    keys_inorder (root tree') = ins_list key (keys_inorder (root tree)) /\
    (if decide (key ∈ keys_inorder (root tree))
     then ins = 0 /\ tree' = tree else ins = 1).
Proof.
  intros [Hinv Hs]. destruct tree as [t]. simpl in *.
  destruct (insert_node_spec t key Hinv Hs)
    as (t' & ins & Hins & Hinv' & Hkeys & _ & Hdec).
  exists {| root := t' |}, ins. unfold avl_insert. simpl. rewrite Hins. simpl.
  split; [done|]. split; [|split; [done|]].
  - split; [done|]. unfold sorted_keys. simpl. rewrite Hkeys.
    by apply ins_list_sorted.
  - case_decide; [|done]. destruct Hdec as [-> ->]. done.
Qed.

(** A finite sequence of [avl_insert] calls on the same registry, the
    results of the calls dropped. *)
Fixpoint avl_insert_all (tree : avl_tree) (keys : list Z) : option avl_tree :=
  match keys with
  | [] => Some tree
  | key :: keys =>
      '(tree', _) ← avl_insert tree key;
      avl_insert_all tree' keys
  end.

Lemma avl_insert_all_spec tree keys :
  tree_ok tree ->
  exists tree',
    avl_insert_all tree keys = Some tree' /\ tree_ok tree' /\
    (forall x, x ∈ keys_inorder (root tree') <->
               x ∈ keys_inorder (root tree) \/ x ∈ keys).
Proof.
  revert tree. induction keys as [|key keys IH]; intros tree Hok.
  - exists tree. split; [done|]. split; [done|].
    intros x. rewrite elem_of_nil. tauto.
  - destruct (avl_insert_spec tree key Hok) as (t1 & ins & Hins & Hok1 & Hkeys & _).
    destruct (IH t1 Hok1) as (t2 & Hall & Hok2 & Hmem).
    exists t2. simpl. rewrite Hins. simpl.
    split; [done|]. split; [done|].
    intros x. rewrite Hmem, Hkeys, elem_of_ins_list, elem_of_cons. tauto.
Qed.

(** The balance condition at one node: the heights of the two subtrees
    differ by at most one, and the stored height is one more than the
    larger height below. *)
Definition node_balanced node : Prop :=
  match node with
  | NULL => True
  | Node _ h _ l r =>
      -1 <= real_height l - real_height r <= 1 /\
      h = 1 + Z.max (height l) (height r) /\
      h = real_height node
  end.

Fixpoint every_node (P : avl_node -> Prop) t : Prop :=
  match t with
  | NULL => True
  | Node _ _ _ l r => P t /\ every_node P l /\ every_node P r
  end.

Lemma avl_inv_every_node t : avl_inv t -> every_node node_balanced t.
Proof.
  induction t as [|k h m l IHl r IHr]; [done|].
  intros Hinv. pose proof (avl_inv_height _ Hinv) as Hreal.
  destruct Hinv as (Hh & Hb & Hl & Hr).
  split; [|split; auto].
  unfold node_balanced. split; [by rewrite <- !avl_inv_height|].
  split; [done|exact Hreal].
Qed.

(** C2: after any finite sequence of [avl_insert] calls on a registry
    created by [avl_create], the calls all return and at every node of the
    tree the heights of the two subtrees differ by at most one and the
    stored height is one more than the larger of the children's heights. *)
Theorem avl_insert_all_balanced (keys : list Z) :
  exists tree,
    avl_insert_all avl_create keys = Some tree /\
    every_node node_balanced (root tree).
Proof.
  destruct (avl_insert_all_spec avl_create keys avl_create_ok)
    as (tree & Hall & [Hinv _] & _).
  exists tree. split; [done|]. by apply avl_inv_every_node.
Qed.

(** The visitor that records the key of each node it is given. *)
Definition record_key (node : avl_node) (data : list Z) : list Z :=
  match node with
  | NULL => data
  | Node k _ _ _ _ => data ++ [k]
  end.

Lemma inorder_traverse_record_key t (data : list Z) :
  inorder_traverse t record_key data = data ++ keys_inorder t.
Proof.
  revert data. induction t as [|k h m l IHl r IHr]; intros data; simpl.
  - by rewrite app_nil_r.
  - rewrite IHl, IHr. rewrite <- !app_assoc. done.
Qed.

(** C3: after any finite sequence of [avl_insert] calls on a registry
    created by [avl_create], [avl_inorder] visits the keys in strictly
    increasing order: the list of the keys of the nodes it hands to the
    visitor, in the order it hands them over, is strictly increasing and
    holds exactly the inserted keys. *)
Theorem avl_insert_all_inorder (keys : list Z) :
  exists tree,
    avl_insert_all avl_create keys = Some tree /\
    StronglySorted Z.lt (avl_inorder tree record_key []) /\
    (forall k, k ∈ avl_inorder tree record_key [] <-> k ∈ keys).
Proof.
  destruct (avl_insert_all_spec avl_create keys avl_create_ok)
    as (tree & Hall & [_ Hs] & Hk).
  exists tree. split; [done|].
  unfold avl_inorder. rewrite inorder_traverse_record_key. simpl.
  split; [done|]. intros k. rewrite Hk. simpl. rewrite elem_of_nil. tauto.
Qed.

Example insert_scenario :
  exists tree,
    avl_insert_all avl_create [50; 30; 70; 20; 40; 60; 80] = Some tree /\
    avl_inorder tree record_key [] = [20; 30; 40; 50; 60; 70; 80] /\
    height (root tree) = 3.
Proof. eexists. split; [vm_compute; reflexivity|]. split; reflexivity. Qed.

(** C6: on a well-formed registry that does not hold [key], the first
    [avl_insert] returns 1 and the registry holds one key more; a second
    [avl_insert] of the same key returns 0 and leaves the registry as it
    is: the same tree, with its keys, shape, heights and marked flags. *)
Theorem avl_insert_twice (tree : avl_tree) (key : Z) :
  tree_ok tree ->
  avl_contains tree key = 0 ->
  exists tree1,
    avl_insert tree key = Some (tree1, 1) /\
    length (keys_inorder (root tree1)) = S (length (keys_inorder (root tree))) /\
    avl_insert tree1 key = Some (tree1, 0).
Proof.
  intros Hok Hc. unfold avl_contains in Hc.
  rewrite contains_node_spec in Hc by apply Hok.
  destruct (decide (key ∈ keys_inorder (root tree))) as [|Hnin]; [done|].
  destruct (avl_insert_spec tree key Hok) as (t1 & ins & Hins & Hok1 & Hkeys & Hdec).
  rewrite decide_False in Hdec by done. subst ins.
  exists t1. split; [done|]. split.
  - rewrite Hkeys, (ins_list_absent _ _ Hnin). done.
  - destruct (avl_insert_spec t1 key Hok1) as (t2 & ins2 & Hins2 & _ & _ & Hdec2).
    rewrite decide_True in Hdec2.
    + by destruct Hdec2 as [-> ->].
    + rewrite Hkeys, elem_of_ins_list. by left.
Qed.

Lemma avl_insert_twice_witness :
  let tree := {| root := Node 50 2 0 (Node 30 1 1 NULL NULL)
                                      (Node 70 1 0 NULL NULL) |} in
  exists tree1,
    avl_insert tree 20 = Some (tree1, 1) /\
    length (keys_inorder (root tree1)) = S (length (keys_inorder (root tree))) /\
    avl_insert tree1 20 = Some (tree1, 0).
Proof.
  intros tree. apply (avl_insert_twice tree 20).
  - split.
    + simpl. repeat split; lia.
    + unfold sorted_keys. simpl. repeat constructor; lia.
  - reflexivity.
Defined.

(** *** Marking *)

(** Every marked flag is [0] (unmarked) or [1] (marked). *)
Fixpoint marks_ok t : Prop :=
  match t with
  | NULL => True
  | Node _ _ m l r => (m = 0 \/ m = 1) /\ marks_ok l /\ marks_ok r
  end.

(** The tree without its marked flags: shape, keys and heights. *)
Fixpoint skeleton t : avl_node :=
  match t with
  | NULL => NULL
  | Node k h _ l r => Node k h 0 (skeleton l) (skeleton r)
  end.

(** The keys with their marked flags, in order. *)
Fixpoint marks_inorder t : list (Z * Z) :=
  match t with
  | NULL => []
  | Node k _ m l r => marks_inorder l ++ (k, m) :: marks_inorder r
  end.

(** [n] consecutive [avl_mark] calls for the same key: the registry after
    the last call and the results of the calls. *)
Fixpoint avl_mark_n (tree : avl_tree) (key : Z) (n : nat) : avl_tree * list Z :=
  match n with
  | O => (tree, [])
  | S n =>
      let '(tree1, ret) := avl_mark tree key in
      let '(tree2, rets) := avl_mark_n tree1 key n in
      (tree2, ret :: rets)
  end.

Lemma contains_node_01 t key :
  contains_node t key = 0 \/ contains_node t key = 1.
Proof.
  induction t as [|k h m l IHl r IHr]; simpl; [by left|].
  repeat case_decide; auto.
Qed.

Lemma mark_node_absent t key found :
  contains_node t key = 0 -> mark_node t key found = (t, 0, found).
Proof.
  induction t as [|k h m l IHl r IHr]; simpl; [done|].
  destruct (decide (key = k)); [done|].
  destruct (decide (key < k)); intros Hc.
  - by rewrite IHl.
  - by rewrite IHr.
Qed.

Lemma mark_node_present t key found :
  marks_ok t -> contains_node t key = 1 ->
  exists t1,
    mark_node t key found = (t1, 1, 1) /\
    (forall found', mark_node t1 key found' = (t1, 1, 1)) /\
    marks_ok t1 /\
    skeleton t1 = skeleton t /\
    exists pre post m,
      marks_inorder t = pre ++ (key, m) :: post /\
      marks_inorder t1 = pre ++ (key, 1) :: post.
Proof.
  induction t as [|k h m l IHl r IHr]; simpl; [done|].
  intros (Hm & Hml & Hmr).
  destruct (decide (key = k)) as [->|Hne]; [intros _|].
  - exists (Node k h 1 l r).
    assert (Hm1 : (if decide (m = 0) then 1 else m) = 1)
      by (case_decide; lia).
    rewrite Hm1. split; [done|]. split.
    { intros f. simpl. by rewrite (decide_True (P := k = k)). }
    split; [simpl; auto|]. split; [done|].
    by exists (marks_inorder l), (marks_inorder r), m.
  - destruct (decide (key < k)) as [Hlt|Hge]; intros Hc.
    + destruct (IHl Hml Hc)
        as (l1 & Hmark & Hagain & Hok1 & Hsk & pre & post & m0 & E0 & E1).
      rewrite Hmark. exists (Node k h m l1 r). split; [done|]. split.
      { intros f. simpl. rewrite (decide_False (P := key = k)) by done.
        rewrite (decide_True (P := key < k)) by done. by rewrite Hagain. }
      split; [simpl; auto|]. split; [simpl; by rewrite Hsk|].
      exists pre, (post ++ (k, m) :: marks_inorder r), m0.
      simpl. rewrite E0, E1, <- !app_assoc. done.
    + destruct (IHr Hmr Hc)
        as (r1 & Hmark & Hagain & Hok1 & Hsk & pre & post & m0 & E0 & E1).
      rewrite Hmark. exists (Node k h m l r1). split; [done|]. split.
      { intros f. simpl. rewrite (decide_False (P := key = k)) by done.
        rewrite (decide_False (P := key < k)) by done. by rewrite Hagain. }
      split; [simpl; auto|]. split; [simpl; by rewrite Hsk|].
      exists (marks_inorder l ++ (k, m) :: pre), post, m0.
      simpl. rewrite E0, E1, <- !app_assoc. done.
Qed.

(** C7: on a registry whose flags are 0 or 1: when [key] is present, every
    one of [n >= 1] consecutive [avl_mark] calls returns 1 and the registry
    after them is the registry after the first call, which has the shape,
    keys and heights of the original and differs from it in one marked
    flag only, that of the node of [key], now 1; when [key] is absent,
    [avl_mark] returns 0 and leaves the registry as it is. *)
Theorem avl_mark_idempotent (tree : avl_tree) (key : Z) :
  marks_ok (root tree) ->
  (avl_contains tree key = 1 ->
     (forall n, (1 <= n)%nat ->
        avl_mark_n tree key n = ((avl_mark tree key).1, replicate n 1)) /\
     skeleton (root (avl_mark tree key).1) = skeleton (root tree) /\
     exists pre post m,
       marks_inorder (root tree) = pre ++ (key, m) :: post /\
       marks_inorder (root (avl_mark tree key).1) = pre ++ (key, 1) :: post) /\
  (avl_contains tree key = 0 -> avl_mark tree key = (tree, 0)).
Proof.
  intros Hok. destruct tree as [t]. unfold avl_contains, avl_mark. simpl in *.
  split; intros Hc.
  - destruct (mark_node_present t key 0 Hok Hc)
      as (t1 & Hmark & Hagain & _ & Hsk & Hmarks).
    rewrite Hmark. simpl. split; [|split; [done|done]].
    assert (Hrest : forall n,
      avl_mark_n {| root := t1 |} key n = ({| root := t1 |}, replicate n 1)).
    { induction n as [|n IH]; [done|].
      simpl. unfold avl_mark. simpl. rewrite Hagain, IH. done. }
    intros [|n] Hn; [lia|].
    simpl. unfold avl_mark at 1. simpl. rewrite Hmark, Hrest. done.
  - by rewrite mark_node_absent.
Qed.

Lemma avl_mark_idempotent_witness :
  let tree := {| root := Node 50 2 0 (Node 30 1 1 NULL NULL)
                                      (Node 70 1 0 NULL NULL) |} in
  (avl_contains tree 70 = 1 ->
     (forall n, (1 <= n)%nat ->
        avl_mark_n tree 70 n = ((avl_mark tree 70).1, replicate n 1)) /\
     skeleton (root (avl_mark tree 70).1) = skeleton (root tree) /\
     exists pre post m,
       marks_inorder (root tree) = pre ++ (70, m) :: post /\
       marks_inorder (root (avl_mark tree 70).1) = pre ++ (70, 1) :: post) /\
  (avl_contains tree 70 = 0 -> avl_mark tree 70 = (tree, 0)).
Proof.
  intros tree. apply (avl_mark_idempotent tree 70).
  simpl. repeat split; lia.
Defined.

(** *** Every registry the interface builds is well formed *)

Lemma marks_ok_inorder t :
  marks_ok t <-> Forall (fun p => p.2 = 0 \/ p.2 = 1) (marks_inorder t).
Proof.
  induction t as [|k h m l IHl r IHr]; simpl.
  - split; [constructor|done].
  - rewrite Forall_app, Forall_cons, IHl, IHr. simpl. tauto.
Qed.

Lemma insert_rebalance_marks node key t' :
  insert_rebalance node key = Some t' ->
  marks_inorder t' = marks_inorder node.
Proof.
  destruct node as [|k h m l r]; [done|].
  unfold insert_rebalance, and_then, right_rotate, left_rotate, key_of.
  intros H.
  repeat (case_match; simplify_eq/=);
    rewrite <- ?app_assoc; simpl; rewrite <- ?app_assoc; done.
Qed.

Lemma insert_node_marks_ok t key t' ins :
  marks_ok t -> insert_node t key = Some (t', ins) -> marks_ok t'.
Proof.
  revert t' ins. induction t as [|k h m l IHl r IHr]; intros t' ins Hok Hins.
  - simpl in Hins. injection Hins as <- <-. simpl. auto.
  - simpl in Hins. destruct Hok as (Hm & Hl & Hr).
    destruct (decide (key < k)); [|destruct (decide (key > k))].
    + destruct (insert_node l key) as [[l' i']|] eqn:El; simplify_eq/=.
      destruct (insert_rebalance (Node k h m l' r) key) as [n'|] eqn:En;
        simplify_eq/=.
      apply marks_ok_inorder. rewrite (insert_rebalance_marks _ _ _ En).
      apply (marks_ok_inorder (Node k h m l' r)). simpl. eauto.
    + destruct (insert_node r key) as [[r' i']|] eqn:Er; simplify_eq/=.
      destruct (insert_rebalance (Node k h m l r') key) as [n'|] eqn:En;
        simplify_eq/=.
      apply marks_ok_inorder. rewrite (insert_rebalance_marks _ _ _ En).
      apply (marks_ok_inorder (Node k h m l r')). simpl. eauto.
    + injection Hins as <- <-. simpl. auto.
Qed.

Lemma mark_node_skeleton t key found :
  skeleton (mark_node t key found).1.1 = skeleton t.
Proof.
  induction t as [|k h m l IHl r IHr]; simpl; [done|].
  destruct (decide (key = k)); [done|].
  destruct (decide (key < k)).
  - destruct (mark_node l key found) as [[l' ret] f]. simpl in *. by rewrite IHl.
  - destruct (mark_node r key found) as [[r' ret] f]. simpl in *. by rewrite IHr.
Qed.

Lemma mark_node_marks_ok t key found :
  marks_ok t -> marks_ok (mark_node t key found).1.1.
Proof.
  induction t as [|k h m l IHl r IHr]; simpl; [done|].
  intros (Hm & Hl & Hr).
  destruct (decide (key = k)); [simpl; case_decide; auto|].
  destruct (decide (key < k)).
  - destruct (mark_node l key found) as [[l' ret] f]. simpl in *. auto.
  - destruct (mark_node r key found) as [[r' ret] f]. simpl in *. auto.
Qed.

Lemma height_skeleton t : height (skeleton t) = height t.
Proof. by destruct t. Qed.

Lemma keys_inorder_skeleton t : keys_inorder (skeleton t) = keys_inorder t.
Proof. induction t as [|k h m l IHl r IHr]; simpl; [done|]. by rewrite IHl, IHr. Qed.

Lemma avl_inv_skeleton t : avl_inv (skeleton t) <-> avl_inv t.
Proof.
  induction t as [|k h m l IHl r IHr]; simpl; [done|].
  rewrite !height_skeleton, IHl, IHr. done.
Qed.

Lemma avl_mark_ok tree key :
  tree_ok tree -> tree_ok (avl_mark tree key).1.
Proof.
  intros [Hinv Hs]. destruct tree as [t]. unfold avl_mark. simpl in *.
  pose proof (mark_node_skeleton t key 0) as Hsk.
  destruct (mark_node t key 0) as [[t1 ret] f]. simpl in *.
  split; simpl.
  - apply avl_inv_skeleton. rewrite Hsk. by apply avl_inv_skeleton.
  - unfold sorted_keys in *. simpl.
    by rewrite <- keys_inorder_skeleton, Hsk, keys_inorder_skeleton.
Qed.

(** The registries a program obtains from the interface. *)
Inductive reachable : avl_tree -> Prop :=
  | reachable_create : reachable avl_create
  | reachable_insert tree key tree' ins :
      reachable tree -> avl_insert tree key = Some (tree', ins) ->
      reachable tree'
  | reachable_mark tree key :
      reachable tree -> reachable (avl_mark tree key).1.

Lemma reachable_ok tree :
  reachable tree -> tree_ok tree /\ marks_ok (root tree).
Proof.
  induction 1 as [|tree key tree' ins Hr [Hok Hm] Hins|tree key Hr [Hok Hm]].
  - split; [apply avl_create_ok|done].
  - destruct (avl_insert_spec tree key Hok) as (t1 & i1 & Hins1 & Hok1 & _).
    rewrite Hins in Hins1. simplify_eq/=. split; [done|].
    unfold avl_insert in Hins. destruct tree as [t]. simpl in *.
    destruct (insert_node t key) as [[t' i']|] eqn:E; simplify_eq/=.
    by eapply insert_node_marks_ok.
  - split; [by apply avl_mark_ok|].
    destruct tree as [t]. unfold avl_mark. simpl in *.
    pose proof (mark_node_marks_ok t key 0 Hm) as Hm1.
    destruct (mark_node t key 0) as [[t1 ret] f]. done.
Qed.

End AvlTree.

(** * Agreement of the two registries on membership *)

Section Agreement.

Import Sort Avl.

Lemma build_loop_insert_all (keys : list Z) (n i : Z) (tree : avl_tree) :
  0 <= i -> n <= Z.of_nat (length keys) ->
  build_loop keys n i tree = avl_insert_all tree (seg keys i n).
Proof.
  funelim (build_loop keys n i tree); intros Hi Hn.
  - rewrite seg_cons by lia. simpl.
    destruct (avl_insert tree (load keys i)) as [[tree' ins]|]; simpl; [|done].
    apply (H (tree', ins) tree' ins); lia.
  - by rewrite seg_nil by lia.
Qed.

Lemma seg_all (keys : list Z) : seg keys 0 (Z.of_nat (length keys)) = keys.
Proof.
  unfold seg. simpl. rewrite drop_0, Z.sub_0_r, Nat2Z.id. apply firstn_all.
Qed.

(** The tree built from an array holds exactly the keys of the array. *)
Lemma avl_build_from_array_spec (keys : list Z) :
  exists tree,
    avl_build_from_array keys (Z.of_nat (length keys)) = Some tree /\
    tree_ok tree /\
    (forall x, x ∈ keys_inorder (root tree) <-> x ∈ keys).
Proof.
  unfold avl_build_from_array.
  rewrite build_loop_insert_all, seg_all by lia.
  destruct (avl_insert_all_spec avl_create keys avl_create_ok)
    as (tree & Hall & Hok & Hmem).
  exists tree. split; [done|]. split; [done|].
  intros x. rewrite Hmem. simpl. rewrite elem_of_nil. tauto.
Qed.

Lemma load_elem_of (a : list Z) (i : Z) : inb a i -> load a i ∈ a.
Proof. intros Hi. eapply list_elem_of_lookup_2. by apply load_lookup. Qed.

Lemma elem_of_load (a : list Z) (x : Z) :
  x ∈ a -> exists i, inb a i /\ load a i = x.
Proof.
  intros Hin. apply list_elem_of_lookup_1 in Hin as [i Hi].
  pose proof (lookup_lt_Some _ _ _ Hi) as Hlt.
  exists (Z.of_nat i). split; [unfold inb; lia|].
  unfold load. rewrite decide_True by lia. by rewrite Nat2Z.id, Hi.
Qed.

(** The sorted copy of an array of pairwise distinct keys: the same keys,
    strictly increasing. *)
Lemma forkscan_util_sort_distinct (keys : list Z) :
  NoDup keys ->
  Z.of_nat (length keys) <= 2 ^ 30 ->
  let n := Z.of_nat (length keys) in
  forkscan_util_sort keys n ≡ₚ keys /\
  strictly_sorted (forkscan_util_sort keys n) n.
Proof.
  intros Hnd Hmax n. unfold forkscan_util_sort.
  destruct (quicksort_spec keys 0 (n - 1)) as [Hs Hsorted]; [lia..|].
  set (a' := quicksort keys 0 (n - 1)) in *.
  assert (Hperm : a' ≡ₚ keys) by (apply (swapped_perm 0 (n - 1)); [lia..|done]).
  split; [done|].
  assert (Hnd' : NoDup a') by (by rewrite Hperm).
  pose proof (swapped_length _ _ _ _ Hs) as Hl.
  intros p q Hp Hpq Hq.
  assert (load a' p <= load a' q) by (apply Hsorted; lia).
  assert (load a' p <> load a' q); [|lia].
  intros E.
  pose proof (load_lookup a' p ltac:(unfold inb; lia)) as Ep.
  pose proof (load_lookup a' q ltac:(unfold inb; lia)) as Eq.
  rewrite E in Ep.
  pose proof (NoDup_lookup _ _ _ _ Hnd' Ep Eq). lia.
Qed.

(** C9, for the lengths on which the midpoint of [partition] stays in
    [int]: for a sequence of at most [2^30] pairwise distinct keys, a
    flags buffer with room for them and any key [k],
    [avl_build_from_array] builds a tree from the sequence, and
    [binary_search_mark] over the sorted copy of the sequence returns a
    non-negative index for [k] exactly when [avl_contains] returns 1 on
    that tree. *)
Theorem registries_agree_on_membership (keys flags : list Z) (k : Z) :
  NoDup keys ->
  Z.of_nat (length keys) <= 2 ^ 30 ->
  (length keys <= length flags)%nat ->
  let n := Z.of_nat (length keys) in
  exists tree,
    avl_build_from_array keys n = Some tree /\
    (0 <= (binary_search_mark (forkscan_util_sort keys n) n k flags).1.1 <->
     avl_contains tree k = 1).
Proof.
  intros Hnd Hmax Hflags n.
  destruct (forkscan_util_sort_distinct keys Hnd Hmax) as [Hperm Hstrict].
  fold n in Hperm, Hstrict. set (a' := forkscan_util_sort keys n) in *.
  destruct (avl_build_from_array_spec keys) as (tree & Hbuild & [_ Hs] & Hmem).
  fold n in Hbuild. exists tree. split; [done|].
  assert (Hc : avl_contains tree k = if decide (k ∈ keys) then 1 else 0).
  { unfold avl_contains. rewrite contains_node_spec by done.
    destruct (decide (k ∈ keys_inorder (root tree))) as [Hin|Hnin].
    - rewrite decide_True; [done|]. by apply Hmem.
    - rewrite decide_False; [done|]. by rewrite <- Hmem. }
  assert (Hl : length a' = length keys) by (by rewrite Hperm).
  rewrite Hc. unfold binary_search_mark.
  destruct (decide (k ∈ keys)) as [Hin|Hnin].
  - assert (Hin' : k ∈ a') by (by rewrite Hperm).
    destruct (elem_of_load a' k Hin') as (i & Hi & Hload).
    unfold inb in Hi.
    rewrite (binary_search_loop_found a' k flags 0 (n - 1) n i)
      by (done || lia).
    simpl. split; [done|lia].
  - rewrite binary_search_loop_absent.
    + simpl. split; [lia|done].
    + intros i Hi Hload. apply Hnin. rewrite <- Hperm, <- Hload.
      apply load_elem_of. unfold inb. lia.
Qed.

Lemma registries_agree_on_membership_witness :
  exists tree,
    avl_build_from_array [5; 3; 8; 1] 4 = Some tree /\
    (0 <= (binary_search_mark
             (forkscan_util_sort [5; 3; 8; 1] 4) 4 8 [0; 0; 0; 0]).1.1 <->
     avl_contains tree 8 = 1).
Proof.
  apply (registries_agree_on_membership [5; 3; 8; 1] [0; 0; 0; 0] 8);
    [|simpl; lia|simpl; lia].
  repeat constructor; rewrite ?elem_of_cons, ?elem_of_nil; lia.
Defined.

End Agreement.

(** * Two concurrent removals of the same key *)

Section Removal.

Import Workload.

Variables (key : Z) (node : ptr).

(** The thread that took the node out of the slot: where it stands, and
    what the memory and the trace hold at that point. *)
Definition winner_at (w : nat) (pc : remove_pc) (c : config) : Prop :=
  (pc = AtFlag node /\ collected (mem c) !! node = Some 0 /\
   retire_calls (trace c) = [] /\ flag_reads (trace c) = []) \/
  (pc = AtRetire node 0 /\
   retire_calls (trace c) = [] /\ flag_reads (trace c) = [(w, node, 0)]) \/
  (pc = Returned true /\
   retire_calls (trace c) = [(w, node)] /\
   flag_reads (trace c) = [(w, node, 0)]).

(** What holds of every configuration the two removers reach. *)
Definition race_inv (c : config) : Prop :=
  (threads c = [AtSlot key; AtSlot key] /\
   array (mem c) !! key = Some node /\
   collected (mem c) !! node = Some 0 /\
   retire_calls (trace c) = [] /\ flag_reads (trace c) = []) \/
  exists w l pw pl,
    (w = 0%nat /\ l = 1%nat /\ threads c = [pw; pl] \/
     w = 1%nat /\ l = 0%nat /\ threads c = [pl; pw]) /\
    array (mem c) !! key = None /\
    (pl = AtSlot key \/ pl = Returned false) /\
    winner_at w pw c.

Lemma retire_calls_app tr1 tr2 :
  retire_calls (tr1 ++ tr2) = retire_calls tr1 ++ retire_calls tr2.
Proof. apply omap_app. Qed.

Lemma flag_reads_app tr1 tr2 :
  flag_reads (tr1 ++ tr2) = flag_reads tr1 ++ flag_reads tr2.
Proof. apply omap_app. Qed.

Ltac race_crunch :=
  unfold step, winner_at in *; simpl in *;
  repeat match goal with
  | H : _ /\ _ |- _ => destruct H
  | H : threads _ = _ |- _ => rewrite H in *; clear H
  | H : array _ !! _ = _ |- _ => rewrite H in *
  | H : collected _ !! _ = _ |- _ => rewrite H in *
  | _ => progress subst
  | _ => progress simpl in *
  end;
  rewrite ?retire_calls_app, ?flag_reads_app, ?lookup_delete_eq,
    ?lookup_insert_eq, ?app_nil_r in *; simpl in *.

Lemma race_inv_step c tid : race_inv c -> race_inv (step c tid).
Proof.
  intros [Hstart | (w & l & pw & pl & Hwl & Ha & Hl & Hw)].
  - destruct c as [m ths tr]. simpl in *.
    destruct Hstart as (-> & Ha & Hc & Hr & Hf).
    destruct tid as [|[|tid]]; [| |by left].
    + right. exists 0%nat, 1%nat, (AtFlag node), (AtSlot key).
      race_crunch. rewrite Hr, Hf. auto 10.
    + right. exists 1%nat, 0%nat, (AtFlag node), (AtSlot key).
      race_crunch. rewrite Hr, Hf. auto 10.
  - right. destruct c as [m ths tr]. simpl in *.
    destruct Hwl as [(-> & -> & ->)|(-> & -> & ->)];
      destruct tid as [|[|tid]];
      destruct Hl as [->| ->];
      destruct Hw as [(-> & Hc & Hr & Hf)|[(-> & Hr & Hf)|(-> & Hr & Hf)]];
      race_crunch; rewrite ?Hr, ?Hf; simpl.
    all: try (eexists 0%nat, 1%nat, _, _;
              split; [left; split; [done|split; [done|reflexivity]]|];
              simpl; rewrite ?lookup_delete_eq, ?lookup_insert_eq;
              split; [first [done | by apply lookup_delete_None; left]|];
              split; [auto|]; auto 10; fail).
    all: try (eexists 1%nat, 0%nat, _, _;
              split; [right; split; [done|split; [done|reflexivity]]|];
              simpl; rewrite ?lookup_delete_eq, ?lookup_insert_eq;
              split; [first [done | by apply lookup_delete_None; left]|];
              split; [auto|]; auto 10; fail).
Qed.

(** [remove_node] is wait-free: a thread returns after at most three steps
    of its own, whatever the other thread does. *)
Definition steps_left (pc : remove_pc) : nat :=
  match pc with
  | AtSlot _ => 3
  | AtFlag _ => 2
  | AtRetire _ _ => 1
  | Returned _ => 0
  end.

Lemma remove_node_step_progress tid m pc :
  (steps_left (remove_node_step tid m pc).1.2 <= pred (steps_left pc))%nat.
Proof.
  destruct pc as [k|p|p was|r]; simpl; [|lia| |lia].
  - destruct (array m !! k); simpl; lia.
  - case_decide; simpl; lia.
Qed.

Lemma step_first c p0 p1 :
  threads c = [p0; p1] ->
  exists p0', threads (step c 0) = [p0'; p1] /\
              (steps_left p0' <= pred (steps_left p0))%nat.
Proof.
  intros Hths. unfold step. rewrite Hths. simpl.
  pose proof (remove_node_step_progress 0 (mem c) p0) as Hp.
  destruct (remove_node_step 0 (mem c) p0) as [[m' pc'] evs]. simpl in *.
  by exists pc'.
Qed.

Lemma step_second c p0 p1 :
  threads c = [p0; p1] ->
  exists p1', threads (step c 1) = [p0; p1'] /\
              (steps_left p1' <= pred (steps_left p1))%nat.
Proof.
  intros Hths. unfold step. rewrite Hths. simpl.
  pose proof (remove_node_step_progress 1 (mem c) p1) as Hp.
  destruct (remove_node_step 1 (mem c) p1) as [[m' pc'] evs]. simpl in *.
  by exists pc'.
Qed.

Lemma steps_left_bound pc : (steps_left pc <= 3)%nat.
Proof. destruct pc; simpl; lia. Qed.

Lemma remove_node_wait_free c p0 p1 :
  threads c = [p0; p1] ->
  finished (run [0; 0; 0; 1; 1; 1]%nat c) = true.
Proof.
  intros T0. simpl.
  pose proof (steps_left_bound p0) as B0.
  pose proof (steps_left_bound p1) as B1.
  destruct (step_first _ _ _ T0) as (a1 & T1 & L1).
  destruct (step_first _ _ _ T1) as (a2 & T2 & L2).
  destruct (step_first _ _ _ T2) as (a3 & T3 & L3).
  destruct (step_second _ _ _ T3) as (b1 & T4 & L4).
  destruct (step_second _ _ _ T4) as (b2 & T5 & L5).
  destruct (step_second _ _ _ T5) as (b3 & T6 & L6).
  unfold finished. rewrite T6.
  destruct a3, b3; simpl in *; first [lia | done].
Qed.

Lemma race_inv_run schedule c : race_inv c -> race_inv (run schedule c).
Proof.
  revert c. induction schedule as [|tid schedule IH]; intros c Hc; [done|].
  simpl. apply IH. by apply race_inv_step.
Qed.

Lemma race_inv_added m m0 :
  add m key node = (m0, true) -> race_inv (two_removers m0 key).
Proof.
  unfold add. intros Hadd. left.
  destruct (array m !! key); simplify_eq/=.
  rewrite !lookup_insert_eq. done.
Qed.

(** Some thread read the [collected] flag of a node as already set. *)
Definition saw_collected (c : config) : Prop :=
  exists tid n was, (tid, n, was) ∈ flag_reads (trace c) /\ was <> 0.

(** C10, as the code has it: when two threads run [remove_node(key)]
    together on a key that was added before, then in every interleaving of
    their atomic steps that lets both return, exactly one of them, the one
    whose exchange emptied the slot, hands the node to [forkscan_retire]
    and returns true; it reads the [collected] flag as 0.  The other thread
    finds the slot empty, returns false and neither reads the flag nor
    hands anything off. *)
Theorem remove_node_race (m m0 : memory) (schedule : list nat) :
  add m key node = (m0, true) ->
  finished (run schedule (two_removers m0 key)) = true ->
  exists w l,
    (w = 0%nat /\ l = 1%nat \/ w = 1%nat /\ l = 0%nat) /\
    retire_calls (trace (run schedule (two_removers m0 key))) = [(w, node)] /\
    flag_reads (trace (run schedule (two_removers m0 key))) = [(w, node, 0)] /\
    threads (run schedule (two_removers m0 key)) !! w = Some (Returned true) /\
    threads (run schedule (two_removers m0 key)) !! l = Some (Returned false).
Proof.
  intros Hadd Hfin.
  pose proof (race_inv_run schedule _ (race_inv_added m m0 Hadd)) as Hinv.
  set (c := run schedule (two_removers m0 key)) in *.
  unfold finished in Hfin.
  destruct Hinv as [(Hths & _) | (w & l & pw & pl & Hwl & _ & Hl & Hw)].
  { rewrite Hths in Hfin. done. }
  exists w, l.
  assert (Hret : returned pw = true /\ returned pl = true).
  { destruct Hwl as [(_ & _ & Hths)|(_ & _ & Hths)];
      rewrite Hths in Hfin; simpl in Hfin;
      destruct (returned pw), (returned pl); done. }
  destruct Hret as [Hrw Hrl].
  destruct Hl as [->| ->]; [done|].
  destruct Hw as [(-> & _)|[(-> & _)|(-> & Hr & Hf)]]; [done|done|].
  split; [tauto|]. split; [done|]. split; [done|].
  destruct Hwl as [(-> & -> & ->)|(-> & -> & ->)]; done.
Qed.

End Removal.

Lemma remove_node_race_witness :
  let m := {| Workload.array := ∅; Workload.collected := ∅ |} in
  let m0 := (Workload.add m 7 1%nat).1 in
  let c := Workload.run [0; 1; 0; 1; 0]%nat (Workload.two_removers m0 7) in
  exists w l,
    (w = 0%nat /\ l = 1%nat \/ w = 1%nat /\ l = 0%nat) /\
    Workload.retire_calls (Workload.trace c) = [(w, 1%nat)] /\
    Workload.flag_reads (Workload.trace c) = [(w, 1%nat, 0)] /\
    Workload.threads c !! w = Some (Workload.Returned true) /\
    Workload.threads c !! l = Some (Workload.Returned false).
Proof.
  intros m m0 c.
  apply (remove_node_race 7 1%nat m m0 [0; 1; 0; 1; 0]%nat); reflexivity.
Defined.

(** C10 as stated fails: when the second thread makes its exchange on the
    slot right after the first, both return and one hand-off is made, but
    the second thread has found the slot empty and has not read the
    [collected] flag at all; no thread has seen the flag set. *)
Lemma remove_node_race_flag_not_seen :
  let m := {| Workload.array := ∅; Workload.collected := ∅ |} in
  let m0 := (Workload.add m 7 1%nat).1 in
  let c := Workload.run [0; 1; 0; 0]%nat (Workload.two_removers m0 7) in
  Workload.finished c = true /\
  Workload.retire_calls (Workload.trace c) = [(0%nat, 1%nat)] /\
  Workload.trace c =
    [Workload.SlotExchanged 0 7 (Some 1%nat); Workload.SlotExchanged 1 7 None;
     Workload.FlagExchanged 0 1%nat 0; Workload.Retired 0 1%nat] /\
  ~ saw_collected c.
Proof.
  intros m m0 c.
  assert (E : Workload.trace c =
    [Workload.SlotExchanged 0 7 (Some 1%nat); Workload.SlotExchanged 1 7 None;
     Workload.FlagExchanged 0 1%nat 0; Workload.Retired 0 1%nat])
    by (vm_compute; reflexivity).
  split; [vm_compute; reflexivity|]. split; [by rewrite E|]. split; [done|].
  intros (tid & n & was & Hin & Hne). rewrite E in Hin. simpl in Hin.
  apply list_elem_of_singleton in Hin. injection Hin as _ _ ->. done.
Qed.

(** * Further properties of the array registry *)

Section ArraysMore.

Import Sort.

Implicit Types (a b addrs arr flags : list Z) (i j k lo hi n : Z).

Lemma StronglySorted_lookup_le (l : list Z) :
  (forall (p q : nat) x y, (p < q)%nat ->
     l !! p = Some x -> l !! q = Some y -> x <= y) ->
  StronglySorted Z.le l.
Proof.
  induction l as [|x l IH]; intros Hle; constructor.
  - apply IH. intros p q y z Hpq Hp Hq. by apply (Hle (S p) (S q)); [lia|..].
  - apply Forall_lookup. intros q y Hq. by apply (Hle 0%nat (S q)); [lia|..].
Qed.

Lemma sorted_on_take a n :
  0 <= n <= Z.of_nat (length a) -> sorted_on a 0 (n - 1) ->
  StronglySorted Z.le (take (Z.to_nat n) a).
Proof.
  intros Hn Hs. apply StronglySorted_lookup_le. intros p q x y Hpq Hp Hq.
  apply lookup_take_Some in Hp as [Hp Hpn], Hq as [Hq Hqn].
  pose proof (Hs (Z.of_nat p) (Z.of_nat q) ltac:(lia) ltac:(lia) ltac:(lia)) as Hle.
  unfold load in Hle. rewrite !decide_True, !Nat2Z.id, Hp, Hq in Hle by lia.
  done.
Qed.

(** What [forkscan_util_sort] leaves: the buffer reached by exchanges
    inside [0..n-1], in order there. *)
Lemma forkscan_util_sort_spec a n :
  0 <= n <= Z.of_nat (length a) ->
  n <= 2 ^ 30 ->
  take (Z.to_nat n) (forkscan_util_sort a n) ≡ₚ take (Z.to_nat n) a /\
  StronglySorted Z.le (take (Z.to_nat n) (forkscan_util_sort a n)) /\
  length (forkscan_util_sort a n) = length a /\
  drop (Z.to_nat n) (forkscan_util_sort a n) = drop (Z.to_nat n) a.
Proof.
  intros Hn Hmax. unfold forkscan_util_sort.
  destruct (quicksort_spec a 0 (n - 1)) as [Hs Hsorted]; [lia..|].
  set (a' := quicksort a 0 (n - 1)) in *.
  pose proof (swapped_length _ _ _ _ Hs) as Hl.
  assert (Hdrop : drop (Z.to_nat n) a' = drop (Z.to_nat n) a).
  { apply (swapped_drop 0 (n - 1)); [lia..|done]. }
  split; [|split; [|done]].
  - apply (Permutation_app_inv_r (drop (Z.to_nat n) a)).
    rewrite <- Hdrop at 1. rewrite !take_drop.
    apply (swapped_perm 0 (n - 1)); [lia..|done].
  - apply sorted_on_take; [lia|done].
Qed.

(** X1: [partition] on a range [lo..hi] inside the buffer whose sum
    [lo + hi] fits in [int] returns an index [mid] of the range; the entry
    it leaves at [mid] is the one it found at the middle index, every
    entry of the range before [mid] is at most that entry and every entry
    after [mid] is greater; the buffer is a permutation of the original
    and is unchanged outside the range. *)
Theorem partition_correct (addrs : list Z) (lo hi : Z) :
  0 <= lo -> lo <= hi -> hi < Z.of_nat (length addrs) ->
  lo + hi <= INT_MAX ->
  let r := partition addrs lo hi in
  lo <= r.2 <= hi /\
  load r.1 r.2 = load addrs ((lo + hi) ÷ 2) /\
  (forall k, lo <= k < r.2 -> load r.1 k <= load r.1 r.2) /\
  (forall k, r.2 < k <= hi -> load r.1 r.2 < load r.1 k) /\
  r.1 ≡ₚ addrs /\
  (forall k, ~ (lo <= k <= hi) -> load r.1 k = load addrs k).
Proof.
  intros Hlo Hle Hhi Hmax r.
  destruct (partition_spec addrs lo hi Hlo Hle Hhi Hmax)
    as (Hs & Hm & Hl & Hr).
  fold r in Hs, Hm, Hl, Hr.
  split; [done|]. split; [by apply partition_pivot_middle|].
  split; [done|]. split; [done|]. split.
  - by apply (swapped_perm lo hi).
  - intros k Hk. by apply (swapped_outside lo hi).
Qed.

Lemma partition_correct_witness :
  let r := partition [9; 4; 7; 1; 8; 2] 1 4 in
  1 <= r.2 <= 4 /\
  load r.1 r.2 = load [9; 4; 7; 1; 8; 2] ((1 + 4) ÷ 2) /\
  (forall k, 1 <= k < r.2 -> load r.1 k <= load r.1 r.2) /\
  (forall k, r.2 < k <= 4 -> load r.1 r.2 < load r.1 k) /\
  r.1 ≡ₚ [9; 4; 7; 1; 8; 2] /\
  (forall k, ~ (1 <= k <= 4) -> load r.1 k = load [9; 4; 7; 1; 8; 2] k).
Proof.
  apply (partition_correct [9; 4; 7; 1; 8; 2] 1 4);
    unfold INT_MAX; simpl; lia.
Defined.

(** X2: [insertion_sort] on a range [lo..hi] inside the buffer leaves the
    entries of the range in non-decreasing order; the buffer is a
    permutation of the original and is unchanged outside the range.  When
    the range is empty or has one entry ([hi <= lo]) the buffer is
    returned as it is. *)
Theorem insertion_sort_correct (addrs : list Z) (lo hi : Z) :
  0 <= lo -> hi < Z.of_nat (length addrs) ->
  sorted_on (insertion_sort addrs lo hi) lo hi /\
  insertion_sort addrs lo hi ≡ₚ addrs /\
  (forall k, ~ (lo <= k <= hi) ->
     load (insertion_sort addrs lo hi) k = load addrs k) /\
  (hi <= lo -> insertion_sort addrs lo hi = addrs).
Proof.
  intros Hlo Hhi.
  destruct (insertion_sort_spec addrs lo hi Hlo Hhi) as [Hs Hsorted].
  split; [done|]. split; [by apply (swapped_perm lo hi)|]. split.
  - intros k Hk. by apply (swapped_outside lo hi).
  - intros Hle. unfold insertion_sort.
    funelim (insertion_outer addrs lo hi (lo + 1)); [lia|done].
Qed.

Lemma insertion_sort_correct_witness :
  sorted_on (insertion_sort [9; 4; 7; 1; 8; 2] 1 4) 1 4 /\
  insertion_sort [9; 4; 7; 1; 8; 2] 1 4 ≡ₚ [9; 4; 7; 1; 8; 2] /\
  (forall k, ~ (1 <= k <= 4) ->
     load (insertion_sort [9; 4; 7; 1; 8; 2] 1 4) k =
     load [9; 4; 7; 1; 8; 2] k) /\
  (4 <= 1 -> insertion_sort [9; 4; 7; 1; 8; 2] 1 4 = [9; 4; 7; 1; 8; 2]).
Proof.
  apply (insertion_sort_correct [9; 4; 7; 1; 8; 2] 1 4); simpl; lia.
Defined.

(** X3: the sorted prefix depends only on which keys the prefix holds:
    for [n <= 2^30], two buffers whose first [n] entries are permutations
    of each other have the same first [n] entries after
    [forkscan_util_sort]. *)
Theorem forkscan_util_sort_canonical (a b : list Z) (n : Z) :
  0 <= n <= Z.of_nat (length a) -> n <= Z.of_nat (length b) ->
  n <= 2 ^ 30 ->
  take (Z.to_nat n) a ≡ₚ take (Z.to_nat n) b ->
  take (Z.to_nat n) (forkscan_util_sort a n) =
  take (Z.to_nat n) (forkscan_util_sort b n).
Proof.
  intros Ha Hb Hmax Hperm.
  destruct (forkscan_util_sort_spec a n Ha Hmax) as (Hpa & Hsa & _).
  destruct (forkscan_util_sort_spec b n ltac:(lia) Hmax) as (Hpb & Hsb & _).
  apply (StronglySorted_unique Z.le); [done|done|].
  by rewrite Hpa, Hpb.
Qed.

Lemma forkscan_util_sort_canonical_witness :
  take 4 (forkscan_util_sort [5; 3; 8; 1; 0] 4) =
  take 4 (forkscan_util_sort [1; 8; 5; 3; 9; 9] 4).
Proof.
  apply (forkscan_util_sort_canonical [5; 3; 8; 1; 0] [1; 8; 5; 3; 9; 9] 4).
  - simpl. lia.
  - simpl. lia.
  - lia.
  - simpl. apply (NoDup_Permutation [5; 3; 8; 1] [1; 8; 5; 3]).
    + repeat constructor; rewrite ?elem_of_cons, ?elem_of_nil; lia.
    + repeat constructor; rewrite ?elem_of_cons, ?elem_of_nil; lia.
    + intros x. rewrite !elem_of_cons, !elem_of_nil. lia.
Defined.

(** X4: for [n <= 2^30], a buffer whose first [n] entries are already in
    non-decreasing order, in particular one with [n <= 1], comes back
    from [forkscan_util_sort] unchanged; so sorting twice is sorting
    once. *)
Theorem forkscan_util_sort_sorted (a : list Z) (n : Z) :
  0 <= n <= Z.of_nat (length a) ->
  n <= 2 ^ 30 ->
  sorted_on a 0 (n - 1) ->
  forkscan_util_sort a n = a.
Proof.
  intros Hn Hmax Hsorted.
  destruct (forkscan_util_sort_spec a n Hn Hmax) as (Hp & Hs & _ & Hd).
  rewrite <- (take_drop (Z.to_nat n) (forkscan_util_sort a n)).
  rewrite <- (take_drop (Z.to_nat n) a) at 3. rewrite Hd. f_equal.
  apply (StronglySorted_unique Z.le); [done| |done].
  by apply sorted_on_take.
Qed.

Lemma forkscan_util_sort_sorted_witness :
  forkscan_util_sort [1; 3; 3; 8; 2] 4 = [1; 3; 3; 8; 2].
Proof.
  apply (forkscan_util_sort_sorted [1; 3; 3; 8; 2] 4).
  - simpl. lia.
  - lia.
  - intros p q Hp Hpq Hq.
    assert (Hc : (p = 0 \/ p = 1 \/ p = 2 \/ p = 3) /\
                 (q = 0 \/ q = 1 \/ q = 2 \/ q = 3)) by lia.
    destruct Hc as [[->|[->|[->| ->]]] [->|[->|[->| ->]]]];
      try lia; vm_compute; discriminate.
Defined.

(** *** [binary_search_mark] without the precondition *)

Lemma binary_search_loop_unfold arr target flags low high :
  binary_search_loop arr target flags low high =
    if decide (low <= high) then
      let mid := low + (high - low) ÷ 2 in
      if decide (load arr mid = target)
      then (mid, arr,
            if decide (load flags mid = 0) then store flags mid 1 else flags)
      else if decide (target < load arr mid)
      then binary_search_loop arr target flags low (mid - 1)
      else binary_search_loop arr target flags (mid + 1) high
    else (-1, arr, flags).
Proof.
  funelim (binary_search_loop arr target flags low high).
  - by rewrite Heq.
  - by rewrite Heq.
Qed.

(** The result of the loop on any buffer: not found and nothing written,
    or an index of the range that holds the target, with the flag there
    set if it was 0. *)
Lemma binary_search_loop_sound arr target flags low high :
  let r := binary_search_loop arr target flags low high in
  r.1.2 = arr /\
  (r.1.1 = -1 /\ r.2 = flags \/
   low <= r.1.1 <= high /\ load arr r.1.1 = target /\
   r.2 = if decide (load flags r.1.1 = 0) then store flags r.1.1 1 else flags).
Proof.
  funelim (binary_search_loop arr target flags low high); [|by split; [|left]].
  clear Heq Heqcall. pose proof (mid_bounds low high l) as Hm.
  set (mid := low + (high - low) ÷ 2) in *.
  destruct (decide (load arr mid = target)) as [E|Hne].
  - simpl. split; [done|]. right. done.
  - destruct (decide (target < load arr mid)) as [Hlt|Hge].
    + destruct (H Hne Hlt) as [Ha [Hnf|(Hr & Hl & Hf)]]; (split; [done|]);
        [by left|right]. split; [lia|done].
    + destruct (H0 Hne Hge) as [Ha [Hnf|(Hr & Hl & Hf)]]; (split; [done|]);
        [by left|right]. split; [lia|done].
Qed.

(** X5: on any buffer, sorted or not, [binary_search_mark] either returns
    [-1] and leaves both buffers as they were, or returns an index [i]
    with [0 <= i < n] whose entry is the target; it then leaves [arr] as
    it was, the flag at [i] non-zero and every other flag as it was. *)
Theorem binary_search_mark_sound (arr flags : list Z) (n target : Z) :
  0 <= n <= Z.of_nat (length arr) ->
  n <= Z.of_nat (length flags) ->
  let r := binary_search_mark arr n target flags in
  r.1.2 = arr /\ length r.2 = length flags /\
  (r.1.1 = -1 /\ r.2 = flags \/
   0 <= r.1.1 < n /\ load arr r.1.1 = target /\
   load r.2 r.1.1 <> 0 /\
   (forall k, k <> r.1.1 -> load r.2 k = load flags k)).
Proof.
  intros Hn Hf r.
  destruct (binary_search_loop_sound arr target flags 0 (n - 1))
    as [Ha Hcases].
  fold (binary_search_mark arr n target flags) in Ha, Hcases. fold r in Ha, Hcases.
  split; [done|].
  destruct Hcases as [[Hr Hfl]|(Hr & Hl & Hfl)].
  - split; [by rewrite Hfl|]. by left.
  - rewrite Hfl. split; [case_decide; [apply length_store|done]|].
    right. split; [lia|]. split; [done|].
    case_decide as Hz.
    + split; [rewrite load_store_eq by (unfold inb; lia); done|].
      intros k Hk. by apply load_store_ne.
    + done.
Qed.

Lemma binary_search_mark_sound_witness :
  let r := binary_search_mark [8; 1; 5; 3] 4 1 [0; 0; 0; 0] in
  r.1.2 = [8; 1; 5; 3] /\ length r.2 = length [0; 0; 0; 0] /\
  (r.1.1 = -1 /\ r.2 = [0; 0; 0; 0] \/
   0 <= r.1.1 < 4 /\ load [8; 1; 5; 3] r.1.1 = 1 /\
   load r.2 r.1.1 <> 0 /\
   (forall k, k <> r.1.1 -> load r.2 k = load [0; 0; 0; 0] k)).
Proof.
  apply (binary_search_mark_sound [8; 1; 5; 3] [0; 0; 0; 0] 4 1); simpl; lia.
Defined.

Lemma binary_search_loop_complete arr target flags low high n :
  sorted_on arr 0 (n - 1) -> 0 <= low -> high < n ->
  (exists i, low <= i <= high /\ load arr i = target) ->
  0 <= (binary_search_loop arr target flags low high).1.1.
Proof.
  funelim (binary_search_loop arr target flags low high);
    intros Hs Hlow Hhigh (i & Hi & Hload); [|lia].
  clear Heq Heqcall. pose proof (mid_bounds low high l) as Hm.
  set (mid := low + (high - low) ÷ 2) in *.
  destruct (decide (load arr mid = target)) as [E|Hne]; [simpl; lia|].
  destruct (decide (target < load arr mid)) as [Hlt|Hge].
  - apply (H Hne Hlt n); [done|done|lia|]. exists i. split; [|done].
    destruct (decide (i < mid)); [lia|].
    pose proof (Hs mid i ltac:(lia) ltac:(lia) ltac:(lia)). lia.
  - apply (H0 Hne Hge n); [done|lia|done|]. exists i. split; [|done].
    destruct (decide (mid < i)); [lia|].
    pose proof (Hs i mid ltac:(lia) ltac:(lia) ltac:(lia)). lia.
Qed.

(** X6: when the first [n] entries of [arr] are in non-decreasing order,
    repeated keys allowed, [binary_search_mark] returns a non-negative
    index exactly when the target occurs among them. *)
Theorem binary_search_mark_finds (arr flags : list Z) (n target : Z) :
  0 <= n <= Z.of_nat (length arr) ->
  sorted_on arr 0 (n - 1) ->
  0 <= (binary_search_mark arr n target flags).1.1 <->
  exists i, 0 <= i < n /\ load arr i = target.
Proof.
  intros Hn Hs. unfold binary_search_mark. split.
  - intros Hr.
    destruct (binary_search_loop_sound arr target flags 0 (n - 1))
      as [_ [[Hnf _]|(Hi & Hl & _)]]; [lia|].
    eexists. split; [|exact Hl]. lia.
  - intros (i & Hi & Hl).
    apply (binary_search_loop_complete arr target flags 0 (n - 1) n);
      [done|lia|lia|]. exists i. split; [lia|done].
Qed.

Lemma binary_search_mark_finds_witness :
  0 <= (binary_search_mark [1; 3; 3; 8] 4 3 [0; 0; 0; 0]).1.1 <->
  exists i, 0 <= i < 4 /\ load [1; 3; 3; 8] i = 3.
Proof.
  apply (binary_search_mark_finds [1; 3; 3; 8] [0; 0; 0; 0] 4 3).
  - simpl. lia.
  - intros p q Hp Hpq Hq.
    assert (Hc : (p = 0 \/ p = 1 \/ p = 2 \/ p = 3) /\
                 (q = 0 \/ q = 1 \/ q = 2 \/ q = 3)) by lia.
    destruct Hc as [[->|[->|[->| ->]]] [->|[->|[->| ->]]]];
      try lia; vm_compute; discriminate.
Defined.

Lemma binary_search_loop_again arr target flags low high :
  0 <= low -> high < Z.of_nat (length flags) ->
  binary_search_loop arr target
    (binary_search_loop arr target flags low high).2 low high =
  binary_search_loop arr target flags low high.
Proof.
  funelim (binary_search_loop arr target flags low high);
    intros Hlow Hhigh.
  - clear Heq Heqcall. pose proof (mid_bounds low high l) as Hm.
    rewrite (binary_search_loop_unfold arr target _ low high).
    rewrite (decide_True (P := low <= high)) by done. cbv zeta.
    set (mid := low + (high - low) ÷ 2) in *.
    destruct (decide (load arr mid = target)) as [E|Hne].
    + simpl. do 2 f_equal.
      destruct (decide (load flags mid = 0)) as [Hz|Hnz].
      * rewrite load_store_eq by (unfold inb; lia). by rewrite decide_False.
      * by rewrite decide_False.
    + destruct (decide (target < load arr mid)) as [Hlt|Hge].
      * apply (H Hne Hlt); lia.
      * apply (H0 Hne Hge); lia.
  - simpl. rewrite binary_search_loop_unfold. by rewrite decide_False.
Qed.

(** X7: a second [binary_search_mark] for the same target returns the same
    index and leaves the flags as the first call left them. *)
Theorem binary_search_mark_twice (arr flags : list Z) (n target : Z) :
  0 <= n <= Z.of_nat (length arr) ->
  n <= Z.of_nat (length flags) ->
  let r := binary_search_mark arr n target flags in
  binary_search_mark r.1.2 n target r.2 = r.
Proof.
  intros Hn Hf r. unfold r, binary_search_mark.
  destruct (binary_search_loop_sound arr target flags 0 (n - 1)) as [-> _].
  apply binary_search_loop_again; lia.
Qed.

Lemma binary_search_mark_twice_witness :
  let r := binary_search_mark [1; 3; 5; 8] 4 5 [0; 7; 0; 0] in
  binary_search_mark r.1.2 4 5 r.2 = r.
Proof.
  apply (binary_search_mark_twice [1; 3; 5; 8] [0; 7; 0; 0] 4 5); simpl; lia.
Defined.

(** *** [filter_marked_array]: what it leaves alone *)

Lemma filter_loop_frame arr flags n i new_n :
  0 <= new_n -> new_n <= i ->
  let r := filter_loop arr flags n i new_n in
  new_n <= r.2 <= new_n + Z.max 0 (n - i) /\
  (forall k, n <= k -> load r.1.1 k = load arr k) /\
  (forall k, n <= k -> load r.1.2 k = load flags k).
Proof.
  funelim (filter_loop arr flags n i new_n); intros Hnew Hle; simpl.
  - clear Heq Heqcall.
    destruct (decide (load flags i = 0)) as [Hz|Hnz].
    + destruct (H Hz) as (Hr & Ha & Hf); [lia..|].
      split; [lia|]. split.
      * intros k Hk. rewrite Ha by done. apply load_store_ne. lia.
      * intros k Hk. rewrite Hf by done. apply load_store_ne. lia.
    + destruct (H0 Hnz) as (Hr & Ha & Hf); [lia..|].
      split; [lia|done].
  - split; [lia|done].
Qed.

Lemma filter_loop_unmarked arr flags n i new_n :
  new_n = i ->
  (forall k, i <= k < n -> load flags k = 0) ->
  filter_loop arr flags n i new_n = (arr, flags, Z.max i n).
Proof.
  funelim (filter_loop arr flags n i new_n); intros -> Hz.
  - clear Heq Heqcall. rewrite decide_True by (apply Hz; lia).
    pose proof (store_load_id flags i) as Hs.
    rewrite (Hz i ltac:(lia)) in Hs.
    rewrite H; [|apply Hz; lia|done|].
    + rewrite store_load_id, Hs. f_equal. lia.
    + intros k Hk. rewrite Hs. apply Hz. lia.
  - f_equal. lia.
Qed.

(** X8: [filter_marked_array] never grows the length and leaves alone what
    lies at or beyond the old length: the new length is between [0] and
    [n], both buffers keep their size, and every entry and flag at an
    index [>= n] is as it was. *)
Theorem filter_marked_array_frame (arr flags : list Z) (n : Z) :
  0 <= n <= Z.of_nat (length arr) ->
  n <= Z.of_nat (length flags) ->
  let r := filter_marked_array arr n flags in
  0 <= r.2 <= n /\
  length r.1.1 = length arr /\ length r.1.2 = length flags /\
  (forall k, n <= k -> load r.1.1 k = load arr k) /\
  (forall k, n <= k -> load r.1.2 k = load flags k).
Proof.
  intros Hn Hf r. unfold r, filter_marked_array.
  destruct (filter_loop_frame arr flags n 0 0) as (Hr & Ha & Hfl); [lia..|].
  destruct (filter_loop_spec arr flags n 0 0)
    as (_ & _ & _ & _ & Hla & Hlf); try lia.
  split; [lia|]. done.
Qed.

Lemma filter_marked_array_frame_witness :
  let r := filter_marked_array [1; 3; 5; 8; 77] 4 [1; 0; 1; 0; 1] in
  0 <= r.2 <= 4 /\
  length r.1.1 = length [1; 3; 5; 8; 77] /\
  length r.1.2 = length [1; 0; 1; 0; 1] /\
  (forall k, 4 <= k -> load r.1.1 k = load [1; 3; 5; 8; 77] k) /\
  (forall k, 4 <= k -> load r.1.2 k = load [1; 0; 1; 0; 1] k).
Proof.
  apply (filter_marked_array_frame [1; 3; 5; 8; 77] [1; 0; 1; 0; 1] 4);
    simpl; lia.
Defined.

(** X9: when no flag below [n] is set, [filter_marked_array] changes
    nothing: the buffers and the length come back as they were. *)
Theorem filter_marked_array_unmarked (arr flags : list Z) (n : Z) :
  0 <= n <= Z.of_nat (length arr) ->
  n <= Z.of_nat (length flags) ->
  (forall k, 0 <= k < n -> load flags k = 0) ->
  filter_marked_array arr n flags = (arr, flags, n).
Proof.
  intros Hn Hf Hz. unfold filter_marked_array.
  rewrite filter_loop_unmarked; [f_equal; lia|done|done].
Qed.

Lemma filter_marked_array_unmarked_witness :
  filter_marked_array [4; 2; 9] 2 [0; 0; 1] = ([4; 2; 9], [0; 0; 1], 2).
Proof.
  apply (filter_marked_array_unmarked [4; 2; 9] [0; 0; 1] 2);
    [simpl; lia|simpl; lia|].
  intros k Hk. assert (Hc : k = 0 \/ k = 1) by lia.
  destruct Hc as [->| ->]; reflexivity.
Defined.

(** X10: compaction is idempotent: a second [filter_marked_array] over the
    compacted buffer, with the new length, changes nothing. *)
Theorem filter_marked_array_twice (arr flags : list Z) (n : Z) :
  0 <= n <= Z.of_nat (length arr) ->
  n <= Z.of_nat (length flags) ->
  let r := filter_marked_array arr n flags in
  filter_marked_array r.1.1 r.2 r.1.2 = r.
Proof.
  intros Hn Hf r. unfold r, filter_marked_array.
  destruct (filter_loop_spec arr flags n 0 0)
    as (_ & _ & _ & Hzero & _); try lia.
  destruct (filter_loop_frame arr flags n 0 0) as (Hr & _); [lia..|].
  destruct (filter_loop arr flags n 0 0) as [[arr' flags'] n'] eqn:E.
  simpl in *. rewrite filter_loop_unmarked; [f_equal; lia|done|].
  intros k Hk. apply Hzero. lia.
Qed.

Lemma filter_marked_array_twice_witness :
  let r := filter_marked_array [1; 3; 5; 8; 77] 4 [1; 0; 1; 0; 1] in
  filter_marked_array r.1.1 r.2 r.1.2 = r.
Proof.
  apply (filter_marked_array_twice [1; 3; 5; 8; 77] [1; 0; 1; 0; 1] 4);
    simpl; lia.
Defined.

(** X29: [quicksort] on any range [lo..hi] inside the buffer that ends
    below index [2^30] leaves the entries of the range in non-decreasing
    order; the buffer is a permutation of the original and is unchanged
    outside the range.  On a range with at most one entry ([hi <= lo])
    the buffer is returned as it is. *)
Theorem quicksort_range_correct (addrs : list Z) (lo hi : Z) :
  0 <= lo -> hi < Z.of_nat (length addrs) -> hi < 2 ^ 30 ->
  sorted_on (quicksort addrs lo hi) lo hi /\
  quicksort addrs lo hi ≡ₚ addrs /\
  (forall k, ~ (lo <= k <= hi) -> load (quicksort addrs lo hi) k = load addrs k) /\
  (hi <= lo -> quicksort addrs lo hi = addrs).
Proof.
  intros Hlo Hhi Hmax.
  destruct (quicksort_spec addrs lo hi Hlo Hhi Hmax) as [Hs Hsorted].
  split; [done|]. split; [by apply (swapped_perm lo hi)|]. split.
  - intros k Hk. by apply (swapped_outside lo hi).
  - intros Hle. rewrite quicksort_small by (unfold SORT_THRESHOLD; lia).
    unfold insertion_sort.
    funelim (insertion_outer addrs lo hi (lo + 1)); [lia|done].
Qed.

Lemma quicksort_range_correct_witness :
  let addrs := [99; 20; 3; 17; 8; 15; 1; 12; 19; 6; 11; 2; 14; 5; 18; 9;
                4; 13; 7; 16; 0] in
  sorted_on (quicksort addrs 1 19) 1 19 /\
  quicksort addrs 1 19 ≡ₚ addrs /\
  (forall k, ~ (1 <= k <= 19) -> load (quicksort addrs 1 19) k = load addrs k) /\
  (19 <= 1 -> quicksort addrs 1 19 = addrs).
Proof.
  apply (quicksort_range_correct
           [99; 20; 3; 17; 8; 15; 1; 12; 19; 6; 11; 2; 14; 5; 18; 9;
            4; 13; 7; 16; 0] 1 19); simpl; lia.
Defined.

End ArraysMore.

(** * The rounds of the array benchmark *)

Section HarnessRounds.

Import Sort Harness.

Implicit Types (array arr flags : list Z) (i k n : Z).

Lemma clear_flags_spec flags i stop :
  0 <= i -> stop <= Z.of_nat (length flags) ->
  length (clear_flags flags i stop) = length flags /\
  (forall k, i <= k < stop -> load (clear_flags flags i stop) k = 0) /\
  (forall k, ~ (i <= k < stop) -> load (clear_flags flags i stop) k = load flags k).
Proof.
  funelim (clear_flags flags i stop); intros Hi Hstop.
  - clear Heq Heqcall.
    destruct H as (Hl & Hz & Hf); [lia|rewrite length_store; lia|].
    rewrite length_store in Hl. split; [done|]. split.
    + intros k Hk. destruct (decide (k = i)) as [->|].
      * rewrite Hf by lia. apply load_store_eq. unfold inb. lia.
      * apply Hz. lia.
    + intros k Hk. rewrite Hf by lia. apply load_store_ne. lia.
  - split; [done|]. split; [intros; lia|done].
Qed.

(** The sorted copy of a prefix of pairwise distinct keys is strictly
    increasing. *)
Lemma forkscan_util_sort_strict array n :
  0 <= n <= Z.of_nat (length array) ->
  n <= 2 ^ 30 ->
  NoDup (take (Z.to_nat n) array) ->
  strictly_sorted (forkscan_util_sort array n) n.
Proof.
  intros Hn Hmax Hnd.
  destruct (forkscan_util_sort_spec array n Hn Hmax) as (Hp & _ & Hl & _).
  unfold forkscan_util_sort in *.
  destruct (quicksort_spec array 0 (n - 1)) as [_ Hsorted]; [lia..|].
  set (a' := quicksort array 0 (n - 1)) in *.
  assert (Hnd' : NoDup (take (Z.to_nat n) a')) by (by rewrite Hp).
  intros p q Hp0 Hpq Hq.
  assert (load a' p <= load a' q) by (apply Hsorted; lia).
  assert (load a' p <> load a' q); [|lia].
  intros E.
  pose proof (load_lookup a' p ltac:(unfold inb; lia)) as Ep.
  pose proof (load_lookup a' q ltac:(unfold inb; lia)) as Eq.
  rewrite E in Ep.
  assert (Ep' : take (Z.to_nat n) a' !! Z.to_nat p = Some (load a' q))
    by (rewrite lookup_take_lt by lia; done).
  assert (Eq' : take (Z.to_nat n) a' !! Z.to_nat q = Some (load a' q))
    by (rewrite lookup_take_lt by lia; done).
  pose proof (NoDup_lookup _ _ _ _ Hnd' Ep' Eq'). lia.
Qed.

(** On a strictly sorted buffer the marking loop sets the flag of every
    even index and writes nothing else. *)
Lemma mark_every_other_spec array flags curr_n i :
  strictly_sorted array curr_n -> curr_n <= Z.of_nat (length flags) ->
  0 <= i -> Z.even i = true ->
  (forall k, 0 <= k < curr_n ->
     load flags k = if decide (k < i /\ Z.even k = true) then 1 else 0) ->
  let r := mark_every_other array flags curr_n i in
  r.1 = array /\ length r.2 = length flags /\
  (forall k, 0 <= k < curr_n -> load r.2 k = if Z.even k then 1 else 0) /\
  (forall k, curr_n <= k -> load r.2 k = load flags k).
Proof.
  funelim (mark_every_other array flags curr_n i);
    intros Hs Hlen Hi Heven Hflags; simpl.
  - clear Heq Heqcall.
    assert (Hfi : load flags i = 0).
    { rewrite Hflags by lia. rewrite decide_False; [done|lia]. }
    assert (Hb : binary_search_mark array curr_n (load array i) flags =
                 (i, array, store flags i 1)).
    { unfold binary_search_mark.
      rewrite (binary_search_loop_found array _ flags 0 (curr_n - 1) curr_n i)
        by (done || lia).
      by rewrite decide_True. }
    rewrite Hb in H |- *. simpl in *.
    destruct H as (Ha & Hl & Hmarks & Hframe);
      [done|rewrite length_store; lia|lia| | |].
    { rewrite Z.even_add, Heven. done. }
    { intros k Hk. destruct (decide (k = i)) as [->|Hne].
      - rewrite load_store_eq by (unfold inb; lia).
        rewrite decide_True; [done|]. split; [lia|done].
      - rewrite load_store_ne by done. rewrite Hflags by done.
        destruct (decide (k = i + 1)) as [->|Hne1].
        + rewrite !decide_False; [done| |].
          * rewrite Z.even_add, Heven. simpl. intros [_ ?]. done.
          * lia.
        + destruct (decide (k < i /\ Z.even k = true)) as [[? ?]|Hn].
          * rewrite decide_True; [done|]. split; [lia|done].
          * rewrite decide_False; [done|]. intros [? ?]. apply Hn. split; [lia|done]. }
    rewrite length_store in Hl. split; [done|]. split; [done|].
    split; [done|]. intros k Hk. rewrite Hframe by done.
    apply load_store_ne. lia.
  - split; [done|]. split; [done|]. split; [|done].
    intros k Hk. rewrite Hflags by done.
    destruct (Z.even k) eqn:E.
    + rewrite decide_True; [done|]. split; [lia|done].
    + rewrite decide_False; [done|]. intros [_ ?]. done.
Qed.


(** The entries at the odd positions of a list, in order. *)
Fixpoint odd_entries (l : list Z) : list Z :=
  match l with
  | _ :: x :: l' => x :: odd_entries l'
  | _ => []
  end.

Lemma list_pair_ind (P : list Z -> Prop) :
  P [] -> (forall x, P [x]) -> (forall x y l, P l -> P (x :: y :: l)) ->
  forall l, P l.
Proof.
  intros H0 H1 H2 l.
  assert (P l /\ forall x, P (x :: l)) as [? _]; [|done].
  induction l as [|y l [IH1 IH2]]; [by split|].
  split; [apply IH2|]. intros x. by apply H2.
Qed.

Lemma odd_entries_length l :
  (2 * length (odd_entries l) <= length l < 2 * length (odd_entries l) + 2)%nat.
Proof. induction l using list_pair_ind; simpl in *; lia. Qed.

Lemma odd_entries_lookup l (k : nat) :
  odd_entries l !! k = l !! (2 * k + 1)%nat.
Proof.
  revert k. induction l as [|x|x y l IH] using list_pair_ind; intros k.
  - done.
  - simpl. by destruct k.
  - destruct k as [|k]; [done|]. simpl. rewrite IH.
    by replace (k + S (k + 0) + 1)%nat with (S (2 * k + 1)) by lia.
Qed.

Lemma survivors_alternating keys fl :
  length keys = length fl ->
  (forall (k : nat) f, fl !! k = Some f ->
     f = if Z.even (Z.of_nat k) then 1 else 0) ->
  survivors keys fl = odd_entries keys.
Proof.
  revert fl. induction keys as [|x|x y l IH] using list_pair_ind;
    intros fl Hlen Hfl.
  - done.
  - destruct fl as [|f0 [|? ?]]; [done| |done].
    simpl. rewrite (Hfl 0%nat f0 eq_refl). done.
  - destruct fl as [|f0 [|f1 fl]]; [done..|].
    simpl. rewrite (Hfl 0%nat f0 eq_refl), (Hfl 1%nat f1 eq_refl). simpl.
    f_equal. apply IH; [simpl in Hlen; lia|].
    intros k f Hk. rewrite (Hfl (S (S k)) f Hk).
    by rewrite !Nat2Z.inj_succ, Z.even_succ_succ.
Qed.

Lemma quicksort_scenario_round_spec new_pointers array flags curr_n :
  0 <= curr_n -> 0 <= new_pointers ->
  curr_n + new_pointers <= Z.of_nat (length array) ->
  curr_n + new_pointers <= Z.of_nat (length flags) ->
  curr_n + new_pointers <= 2 ^ 30 ->
  (forall k, 0 <= k < curr_n -> load flags k = 0) ->
  NoDup (take (Z.to_nat (curr_n + new_pointers)) array) ->
  let n := curr_n + new_pointers in
  let r := quicksort_scenario_round new_pointers array flags curr_n in
  r.2 = n ÷ 2 /\
  (forall k, 0 <= k < r.2 ->
     load r.1.1 k = load (forkscan_util_sort array n) (2 * k + 1)) /\
  (forall k, 0 <= k < r.2 -> load r.1.2 k = 0) /\
  length r.1.1 = length array /\ length r.1.2 = length flags.
Proof.
  intros Hc Hnew Hla Hlf Hmax Hzero Hnd n r. subst r. unfold quicksort_scenario_round.
  fold n.
  destruct (clear_flags_spec flags curr_n n) as (Hl1 & Hz1 & Hf1); [lia..|].
  set (flags1 := clear_flags flags curr_n n) in *.
  pose proof (forkscan_util_sort_strict array n ltac:(lia) Hmax Hnd)
    as Hstrict.
  destruct (forkscan_util_sort_spec array n ltac:(lia) Hmax)
    as (_ & _ & Hl2 & _).
  set (sorted := forkscan_util_sort array n) in *.
  pose proof (mark_every_other_spec sorted flags1 n 0 Hstrict) as Hm.
  simpl in Hm. destruct Hm as (Ha & Hl3 & Hmarks & _); [lia|lia|done| |].
  { intros k Hk. rewrite decide_False by lia.
    destruct (decide (k < curr_n)).
    - rewrite Hf1 by lia. apply Hzero. lia.
    - apply Hz1. lia. }
  destruct (mark_every_other sorted flags1 n 0) as [a2 flags2].
  simpl in Ha, Hl3, Hmarks. subst a2. unfold filter_marked_array.
  pose proof (filter_loop_spec sorted flags2 n 0 0) as Hf. simpl in Hf.
  destruct Hf as (Hn & Htake & _ & Hzeros & Hl4 & Hl5); [lia..|].
  set (r := filter_loop sorted flags2 n 0 0) in *.
  assert (Hs : survivors (seg sorted 0 n) (seg flags2 0 n) =
               odd_entries (take (Z.to_nat n) sorted)).
  { unfold seg. rewrite Z.sub_0_r. simpl. rewrite !drop_0.
    apply survivors_alternating.
    - rewrite !length_take. lia.
    - intros k f Hk. apply lookup_take_Some in Hk as [Hk Hlt].
      pose proof (Hmarks (Z.of_nat k) ltac:(lia)) as Hmk.
      unfold load in Hmk. rewrite decide_True in Hmk by lia.
      rewrite Nat2Z.id, Hk in Hmk. done. }
  rewrite Hs in Hn, Htake. simpl in Hn, Htake.
  pose proof (odd_entries_length (take (Z.to_nat n) sorted)) as Hlen.
  rewrite length_take in Hlen.
  assert (Hr : r.2 = n ÷ 2).
  { rewrite Z.quot_div_nonneg by lia. rewrite Hn.
    apply Z.div_unique with (r := n - 2 * r.2); lia. }
  split; [done|]. split; [|split; [|split; congruence]].
  - intros k Hk.
    assert (Hk' : take (Z.to_nat r.2) r.1.1 !! Z.to_nat k =
                  Some (load r.1.1 k)).
    { rewrite lookup_take_lt by lia. apply load_lookup. unfold inb.
      rewrite Hr, Z.quot_div_nonneg in Hk by lia.
      pose proof (Z.div_le_upper_bound n 2 n ltac:(lia) ltac:(lia)). lia. }
    rewrite Htake, odd_entries_lookup in Hk'.
    apply lookup_take_Some in Hk' as [Hk' _].
    unfold load at 2. rewrite decide_True by lia.
    replace (Z.to_nat (2 * k + 1)) with (2 * Z.to_nat k + 1)%nat by lia.
    by rewrite Hk'.
  - intros k Hk. apply Hzeros. lia.
Qed.

(** X11: one round of the array benchmark on pairwise distinct keys, at
    most [2^30] of them.  With [curr_n] live entries whose flags are 0 and
    [new_pointers] fresh entries behind them, the round clears the new
    flags, sorts, marks every entry at an even index and compacts: half of
    the entries (rounded down) survive, they are the entries at the odd
    indices of the sorted buffer, in order, and their flags are 0 again,
    as the next round needs. *)
Theorem quicksort_scenario_round_distinct (new_pointers : Z) (array flags : list Z)
    (curr_n : Z) :
  0 <= curr_n -> 0 <= new_pointers ->
  curr_n + new_pointers <= Z.of_nat (length array) ->
  curr_n + new_pointers <= Z.of_nat (length flags) ->
  curr_n + new_pointers <= 2 ^ 30 ->
  (forall k, 0 <= k < curr_n -> load flags k = 0) ->
  NoDup (take (Z.to_nat (curr_n + new_pointers)) array) ->
  let n := curr_n + new_pointers in
  let r := quicksort_scenario_round new_pointers array flags curr_n in
  r.2 = n ÷ 2 /\
  (forall k, 0 <= k < r.2 ->
     load r.1.1 k = load (forkscan_util_sort array n) (2 * k + 1)) /\
  (forall k, 0 <= k < r.2 -> load r.1.2 k = 0) /\
  length r.1.1 = length array /\ length r.1.2 = length flags.
Proof. apply quicksort_scenario_round_spec. Qed.

Lemma quicksort_scenario_round_distinct_witness :
  let array := [2; 9; 30; 4; 7; 1; 8; 100] in
  let flags := [0; 0; 0; 5; 5; 5; 5; 5] in
  let r := quicksort_scenario_round 4 array flags 3 in
  r.2 = 7 ÷ 2 /\
  (forall k, 0 <= k < r.2 ->
     load r.1.1 k = load (forkscan_util_sort array 7) (2 * k + 1)) /\
  (forall k, 0 <= k < r.2 -> load r.1.2 k = 0) /\
  length r.1.1 = length array /\ length r.1.2 = length flags.
Proof.
  apply (quicksort_scenario_round_distinct 4 [2; 9; 30; 4; 7; 1; 8; 100]
           [0; 0; 0; 5; 5; 5; 5; 5] 3);
    [lia|lia|simpl; lia|simpl; lia|lia| |].
  - intros k Hk. assert (Hc : k = 0 \/ k = 1 \/ k = 2) by lia.
    destruct Hc as [->|[->| ->]]; reflexivity.
  - apply (bool_decide_unpack _). vm_compute. exact I.
Defined.

(** ** A round on arbitrary keys *)

(** The number of clear flags. *)
Definition zeros (fl : list Z) : nat := length (filter (fun f => f = 0) fl).

Lemma zeros_insert (fl : list Z) (i : nat) (v : Z) :
  (zeros fl <= zeros (<[i := v]> fl) + 1)%nat.
Proof.
  unfold zeros. revert i. induction fl as [|f fl IH]; intros i; [simpl; lia|].
  destruct i as [|i]; simpl.
  - rewrite !filter_cons. repeat case_decide; simpl; lia.
  - specialize (IH i). rewrite !filter_cons. case_decide; simpl; lia.
Qed.

Lemma zeros_all (fl : list Z) :
  Forall (fun f => f = 0) fl -> zeros fl = length fl.
Proof.
  unfold zeros. induction 1 as [|f fl Hf _ IH]; [done|].
  rewrite filter_cons, decide_True by done. simpl. by rewrite IH.
Qed.

Lemma survivors_sublist (keys fl : list Z) : survivors keys fl `sublist_of` keys.
Proof.
  revert fl. induction keys as [|k keys IH]; intros [|f fl]; simpl;
    try apply sublist_nil_l.
  destruct (decide (f = 0)); [by apply sublist_skip|by apply sublist_cons].
Qed.

Lemma sublist_sorted (l1 l2 : list Z) :
  l1 `sublist_of` l2 -> StronglySorted Z.le l2 -> StronglySorted Z.le l1.
Proof.
  induction 1 as [|x l1 l2 Hsub IH|x l1 l2 Hsub IH]; intros Hs.
  - constructor.
  - apply StronglySorted_inv in Hs as [Hs Hall]. constructor; [by apply IH|].
    rewrite Forall_forall in *. intros y Hy. apply Hall.
    by eapply elem_of_sublist.
  - apply StronglySorted_inv in Hs as [Hs _]. by apply IH.
Qed.

(** Each search sets at most one flag, so the marking loop clears at most
    one flag in two. *)
Lemma mark_every_other_zeros array flags curr_n i :
  0 <= i ->
  let r := mark_every_other array flags curr_n i in
  r.1 = array /\ length r.2 = length flags /\
  2 * Z.of_nat (zeros (take (Z.to_nat curr_n) flags)) <=
    2 * Z.of_nat (zeros (take (Z.to_nat curr_n) r.2)) +
    Z.max 0 (curr_n - i + 1).
Proof.
  funelim (mark_every_other array flags curr_n i); intros Hi; simpl.
  - clear Heq Heqcall.
    pose proof (binary_search_loop_sound array (load array i) flags 0
                  (curr_n - 1)) as Hb.
    simpl in Hb. unfold binary_search_mark in *.
    destruct (binary_search_loop array (load array i) flags 0 (curr_n - 1))
      as [[idx arr'] flags']. simpl in *.
    destruct Hb as [-> Hb].
    destruct H as (Ha & Hl & Hz); [lia|].
    split; [done|].
    assert (Hstep : length flags' = length flags /\
      (zeros (take (Z.to_nat curr_n) flags) <=
       zeros (take (Z.to_nat curr_n) flags') + 1)%nat).
    { destruct Hb as [[_ ->]|(_ & _ & ->)]; [split; [done|lia]|].
      destruct (decide (load flags idx = 0)); [|split; [done|lia]].
      unfold store. destruct (decide (0 <= idx)); [|split; [done|lia]].
      split; [by rewrite length_insert|].
      rewrite take_insert. case_decide; [apply zeros_insert|lia]. }
    destruct Hstep as [Hl' Hz']. split; [congruence|]. lia.
  - split; [done|]. split; [done|]. lia.
Qed.

Lemma quicksort_scenario_round_any_spec new_pointers array flags curr_n :
  0 <= curr_n -> 0 <= new_pointers ->
  curr_n + new_pointers <= Z.of_nat (length array) ->
  curr_n + new_pointers <= Z.of_nat (length flags) ->
  curr_n + new_pointers <= 2 ^ 30 ->
  (forall k, 0 <= k < curr_n -> load flags k = 0) ->
  let n := curr_n + new_pointers in
  let r := quicksort_scenario_round new_pointers array flags curr_n in
  n ÷ 2 <= r.2 <= n /\
  take (Z.to_nat r.2) r.1.1
    `sublist_of` take (Z.to_nat n) (forkscan_util_sort array n) /\
  StronglySorted Z.le (take (Z.to_nat r.2) r.1.1) /\
  (forall k, 0 <= k < r.2 -> load r.1.2 k = 0) /\
  length r.1.1 = length array /\ length r.1.2 = length flags.
Proof.
  intros Hc Hnew Hla Hlf Hmax Hzero n r. subst r.
  unfold quicksort_scenario_round. fold n.
  destruct (clear_flags_spec flags curr_n n) as (Hl1 & Hz1 & Hf1); [lia..|].
  set (flags1 := clear_flags flags curr_n n) in *.
  destruct (forkscan_util_sort_spec array n ltac:(lia) Hmax)
    as (_ & Hsorted & Hl2 & _).
  set (sorted := forkscan_util_sort array n) in *.
  pose proof (mark_every_other_zeros sorted flags1 n 0 ltac:(lia)) as Hm.
  simpl in Hm. destruct Hm as (Ha & Hl3 & Hz).
  destruct (mark_every_other sorted flags1 n 0) as [a2 flags2].
  simpl in Ha, Hl3, Hz. subst a2. unfold filter_marked_array.
  pose proof (filter_loop_spec sorted flags2 n 0 0) as Hf. simpl in Hf.
  destruct Hf as (Hn & Htake & _ & Hzeros & Hl4 & Hl5); [lia..|].
  set (r := filter_loop sorted flags2 n 0 0) in *.
  assert (Hseg : forall a, seg a 0 n = take (Z.to_nat n) a).
  { intros a. unfold seg. simpl. by rewrite drop_0, Z.sub_0_r. }
  rewrite !Hseg in Hn, Htake. simpl in Htake.
  assert (Hz0 : zeros (take (Z.to_nat n) flags1) = Z.to_nat n).
  { rewrite zeros_all; [rewrite length_take; lia|].
    apply Forall_forall. intros f Hin.
    apply list_elem_of_lookup in Hin as [k Hk].
    apply lookup_take_Some in Hk as [Hk Hlt].
    assert (Hlk : load flags1 (Z.of_nat k) = f).
    { unfold load. rewrite decide_True by lia. by rewrite Nat2Z.id, Hk. }
    rewrite <- Hlk. destruct (decide (Z.of_nat k < curr_n)).
    - rewrite Hf1 by lia. apply Hzero. lia.
    - apply Hz1. lia. }
  rewrite survivors_length in Hn by (rewrite !length_take; lia).
  fold (zeros (take (Z.to_nat n) flags2)) in Hn.
  pose proof (length_filter (fun f => f = 0) (take (Z.to_nat n) flags2)) as Hub.
  fold (zeros (take (Z.to_nat n) flags2)) in Hub. rewrite length_take in Hub.
  split; [|split; [|split; [|split; [|split; congruence]]]].
  - split; [|lia]. rewrite Z.quot_div_nonneg by lia.
    assert (n / 2 < r.2 + 1); [|lia].
    apply Z.div_lt_upper_bound; lia.
  - rewrite Htake. apply survivors_sublist.
  - rewrite Htake. eapply sublist_sorted; [apply survivors_sublist|done].
  - intros k Hk. apply Hzeros. lia.
Qed.

(** X12: one round of the array benchmark on any keys, repeated or not,
    at most [2^30] of them.  At least half of the entries (rounded down)
    survive the round; the survivors are entries of the sorted buffer in
    their order, so the live prefix is sorted; the flags of the live
    prefix are 0 again and the buffers keep their lengths. *)
Theorem quicksort_scenario_round_any (new_pointers : Z)
    (array flags : list Z) (curr_n : Z) :
  0 <= curr_n -> 0 <= new_pointers ->
  curr_n + new_pointers <= Z.of_nat (length array) ->
  curr_n + new_pointers <= Z.of_nat (length flags) ->
  curr_n + new_pointers <= 2 ^ 30 ->
  (forall k, 0 <= k < curr_n -> load flags k = 0) ->
  let n := curr_n + new_pointers in
  let r := quicksort_scenario_round new_pointers array flags curr_n in
  n ÷ 2 <= r.2 <= n /\
  take (Z.to_nat r.2) r.1.1
    `sublist_of` take (Z.to_nat n) (forkscan_util_sort array n) /\
  StronglySorted Z.le (take (Z.to_nat r.2) r.1.1) /\
  (forall k, 0 <= k < r.2 -> load r.1.2 k = 0) /\
  length r.1.1 = length array /\ length r.1.2 = length flags.
Proof. apply quicksort_scenario_round_any_spec. Qed.

Lemma quicksort_scenario_round_any_witness :
  let array := [2; 9; 30; 2; 2; 1; 8; 100] in
  let flags := [0; 0; 0; 5; 5; 5; 5; 5] in
  let r := quicksort_scenario_round 4 array flags 3 in
  7 ÷ 2 <= r.2 <= 7 /\
  take (Z.to_nat r.2) r.1.1
    `sublist_of` take (Z.to_nat 7) (forkscan_util_sort array 7) /\
  StronglySorted Z.le (take (Z.to_nat r.2) r.1.1) /\
  (forall k, 0 <= k < r.2 -> load r.1.2 k = 0) /\
  length r.1.1 = length array /\ length r.1.2 = length flags.
Proof.
  apply (quicksort_scenario_round_any 4 [2; 9; 30; 2; 2; 1; 8; 100]
           [0; 0; 0; 5; 5; 5; 5; 5] 3);
    [lia|lia|simpl; lia|simpl; lia|lia|].
  intros k Hk. assert (Hc : k = 0 \/ k = 1 \/ k = 2) by lia.
  destruct Hc as [->|[->| ->]]; reflexivity.
Defined.

End HarnessRounds.

(** * Further properties of the ordered registry *)

Section AvlMore.

Import Sort Avl AvlHarness.

Implicit Types (t : avl_node) (tree : avl_tree) (key k : Z).
#[local] Arguments insert_rebalance : simpl never.

Lemma contains_node_skeleton t key :
  contains_node (skeleton t) key = contains_node t key.
Proof.
  induction t as [|k' h m l IHl r IHr]; simpl; [done|].
  by rewrite IHl, IHr.
Qed.

Lemma mark_node_result t key found :
  (mark_node t key found).1.2 = contains_node t key /\
  (mark_node t key found).2 =
    if decide (contains_node t key = 1) then 1 else found.
Proof.
  induction t as [|k' h m l IHl r IHr]; simpl; [done|].
  destruct (decide (key = k')); [done|].
  destruct (decide (key < k')).
  - destruct (mark_node l key found) as [[l' ret] found']. simpl in *. done.
  - destruct (mark_node r key found) as [[r' ret] found']. simpl in *. done.
Qed.

Lemma avl_mark_result tree key :
  (avl_mark tree key).2 = avl_contains tree key /\
  forall k, avl_contains (avl_mark tree key).1 k = avl_contains tree k.
Proof.
  unfold avl_mark, avl_contains.
  pose proof (mark_node_result (root tree) key 0) as [_ Hf].
  pose proof (mark_node_skeleton (root tree) key 0) as Hs.
  destruct (mark_node (root tree) key 0) as [[node ret] found].
  simpl in *. split.
  - rewrite Hf. destruct (contains_node_01 (root tree) key) as [-> | ->]; done.
  - intros k. by rewrite <- (contains_node_skeleton node), Hs,
      contains_node_skeleton.
Qed.

Lemma avl_insert_contains_spec tree key :
  tree_ok tree ->
  exists tree' ins,
    avl_insert tree key = Some (tree', ins) /\
    tree_ok tree' /\
    ins = 1 - avl_contains tree key /\
    avl_contains tree' key = 1 /\
    (forall k, k <> key -> avl_contains tree' k = avl_contains tree k).
Proof.
  intros Hok.
  destruct (avl_insert_spec tree key Hok) as (tree' & ins & He & Hok' & Hk & Hi).
  exists tree', ins. split; [done|]. split; [done|].
  unfold avl_contains.
  rewrite !contains_node_spec by (apply Hok || apply Hok').
  split; [|split].
  - destruct (decide (key ∈ keys_inorder (root tree))); [by destruct Hi|done].
  - rewrite decide_True; [done|]. rewrite Hk. apply elem_of_ins_list. by left.
  - intros k Hne. rewrite contains_node_spec by apply Hok'.
    rewrite contains_node_spec by apply Hok.
    destruct (decide (k ∈ keys_inorder (root tree'))) as [Hin|Hin];
      rewrite Hk, elem_of_ins_list in Hin.
    + rewrite decide_True; [done|]. by destruct Hin.
    + rewrite decide_False; [done|]. intros ?. apply Hin. by right.
Qed.

Lemma insert_node_marks t key t' ins :
  insert_node t key = Some (t', ins) ->
  (ins = 0 /\ marks_inorder t' = marks_inorder t) \/
  (ins = 1 /\ exists pre post,
     marks_inorder t = pre ++ post /\
     marks_inorder t' = pre ++ (key, 0) :: post).
Proof.
  revert t' ins. induction t as [|k' h m l IHl r IHr]; intros t' ins He.
  - simpl in He. injection He as <- <-. right. split; [done|].
    by exists [], [].
  - simpl in He. destruct (decide (key < k')).
    + destruct (insert_node l key) as [[l' i]|]; [|done]. simpl in He.
      destruct (insert_rebalance (Node k' h m l' r) key) as [n'|] eqn:Hr;
        simpl in He; [|done].
      injection He as <- <-.
      apply insert_rebalance_marks in Hr. rewrite Hr. simpl.
      destruct (IHl l' i eq_refl) as [[-> ->]|[-> (pre & post & -> & ->)]].
      * by left.
      * right. split; [done|].
        exists pre, (post ++ (k', m) :: marks_inorder r).
        by rewrite <- !app_assoc.
    + destruct (decide (key > k')).
      * destruct (insert_node r key) as [[r' i]|]; [|done]. simpl in He.
        destruct (insert_rebalance (Node k' h m l r') key) as [n'|] eqn:Hr;
          simpl in He; [|done].
        injection He as <- <-.
        apply insert_rebalance_marks in Hr. rewrite Hr. simpl.
        destruct (IHr r' i eq_refl) as [[-> ->]|[-> (pre & post & -> & ->)]].
        -- by left.
        -- right. split; [done|].
           exists (marks_inorder l ++ (k', m) :: pre), post.
           by rewrite <- !app_assoc.
      * injection He as <- <-. by left.
Qed.

(** The keys whose node carries a set flag. *)
Definition marked_key t k : Prop := (k, 1) ∈ marks_inorder t.

Lemma keys_of_marks t : keys_inorder t = (marks_inorder t).*1.
Proof.
  induction t as [|k' h m l IHl r IHr]; simpl; [done|].
  by rewrite fmap_app, fmap_cons, IHl, IHr.
Qed.

Lemma insert_node_marked t key t' ins k :
  insert_node t key = Some (t', ins) -> marked_key t' k <-> marked_key t k.
Proof.
  intros He. unfold marked_key.
  destruct (insert_node_marks t key t' ins He)
    as [[_ ->]|[_ (pre & post & -> & ->)]]; [done|].
  rewrite !elem_of_app, elem_of_cons.
  split; [intros [?|[?|?]]|intros [?|?]]; try tauto. done.
Qed.

Lemma avl_insert_all_marked tree keys tree' k :
  avl_insert_all tree keys = Some tree' ->
  marked_key (root tree') k <-> marked_key (root tree) k.
Proof.
  revert tree. induction keys as [|key keys IH]; intros tree He; simpl in He.
  - by injection He as <-.
  - unfold avl_insert in He at 1.
    destruct (insert_node (root tree) key) as [[node ins]|] eqn:Hi;
      simpl in He; [|done].
    rewrite (IH _ He). simpl. by eapply insert_node_marked.
Qed.

Lemma mark_node_marked t key found k :
  marks_ok t -> sorted_keys t ->
  marked_key (mark_node t key found).1.1 k <->
  marked_key t k \/ (k = key /\ key ∈ keys_inorder t).
Proof.
  intros Hm Hs. unfold marked_key.
  pose proof (contains_node_spec t key Hs) as Hc.
  destruct (decide (key ∈ keys_inorder t)) as [Hin|Hin].
  - destruct (mark_node_present t key found Hm Hc)
      as (t1 & -> & _ & _ & _ & pre & post & m & -> & E1). simpl.
    rewrite E1, !elem_of_app, !elem_of_cons.
    split.
    + intros [?|[E|?]]; [tauto| |tauto]. injection E as ->. tauto.
    + intros [[?|[E|?]]|[-> _]]; [tauto| |tauto|tauto].
      injection E as -> <-. tauto.
  - rewrite (mark_node_absent t key found Hc). simpl. tauto.
Qed.

(** In-order keys of a search tree without repetitions and the sorted
    prefix of an array with the same keys are the same list. *)
Lemma sorted_lt_le (l : list Z) : StronglySorted Z.lt l -> StronglySorted Z.le l.
Proof.
  induction 1 as [|x l Hs IH Hall]; constructor; [done|].
  eapply Forall_impl; [done|]. simpl. lia.
Qed.

Lemma sorted_lt_NoDup (l : list Z) : StronglySorted Z.lt l -> NoDup l.
Proof.
  induction 1 as [|x l Hs IH Hall]; constructor; [|done].
  intros Hin. rewrite Forall_forall in Hall. specialize (Hall x Hin). lia.
Qed.

Lemma avl_build_from_array_prefix (keys : list Z) (n : Z) :
  n <= Z.of_nat (length keys) ->
  exists tree,
    avl_build_from_array keys n = Some tree /\
    tree_ok tree /\
    (forall x, x ∈ keys_inorder (root tree) <-> x ∈ take (Z.to_nat n) keys).
Proof.
  intros Hn. unfold avl_build_from_array.
  rewrite build_loop_insert_all by (done || lia).
  destruct (avl_insert_all_spec avl_create (seg keys 0 n) avl_create_ok)
    as (tree & He & Hok & Hk).
  exists tree. split; [done|]. split; [done|].
  intros x. rewrite Hk. unfold seg. simpl. rewrite drop_0, Z.sub_0_r.
  rewrite elem_of_nil. tauto.
Qed.

Lemma avl_insert_all_marks_ok tree keys tree' :
  marks_ok (root tree) -> avl_insert_all tree keys = Some tree' ->
  marks_ok (root tree').
Proof.
  revert tree. induction keys as [|key keys IH]; intros tree Hm He;
    simpl in He.
  - by injection He as <-.
  - unfold avl_insert in He at 1.
    destruct (insert_node (root tree) key) as [[node ins]|] eqn:Hi;
      simpl in He; [|done].
    apply (IH {| root := node |}); [|done]. simpl.
    by eapply insert_node_marks_ok.
Qed.

Lemma avl_mark_keys tree key :
  keys_inorder (root (avl_mark tree key).1) = keys_inorder (root tree).
Proof.
  unfold avl_mark.
  pose proof (mark_node_skeleton (root tree) key 0) as Hs.
  destruct (mark_node (root tree) key 0) as [[node ret] found]. simpl in *.
  by rewrite <- (keys_inorder_skeleton node), Hs, keys_inorder_skeleton.
Qed.

Lemma avl_mark_marks_ok tree key :
  marks_ok (root tree) -> marks_ok (root (avl_mark tree key).1).
Proof.
  intros Hm. unfold avl_mark.
  pose proof (mark_node_marks_ok (root tree) key 0 Hm) as Hm'.
  by destruct (mark_node (root tree) key 0) as [[node ret] found].
Qed.

Lemma avl_mark_marked tree key k :
  tree_ok tree -> marks_ok (root tree) ->
  marked_key (root (avl_mark tree key).1) k <->
  marked_key (root tree) k \/ (k = key /\ key ∈ keys_inorder (root tree)).
Proof.
  intros [_ Hs] Hm. unfold avl_mark.
  pose proof (mark_node_marked (root tree) key 0 k Hm Hs) as H.
  by destruct (mark_node (root tree) key 0) as [[node ret] found].
Qed.

Lemma avl_mark_every_other_spec tree new_array new_pointers i :
  tree_ok tree -> marks_ok (root tree) ->
  let tree' := avl_mark_every_other tree new_array new_pointers i in
  tree_ok tree' /\ marks_ok (root tree') /\
  keys_inorder (root tree') = keys_inorder (root tree) /\
  forall x, marked_key (root tree') x <->
    marked_key (root tree) x \/
    exists q, 0 <= q /\ i + 2 * q < new_pointers /\
              load new_array (i + 2 * q) = x /\
              x ∈ keys_inorder (root tree).
Proof.
  funelim (avl_mark_every_other tree new_array new_pointers i);
    intros Hok Hm; simpl.
  - clear Heq Heqcall.
    destruct H as (Hok' & Hm' & Hk & Hx);
      [by apply avl_mark_ok|by apply avl_mark_marks_ok|].
    rewrite avl_mark_keys in Hk, Hx.
    split; [done|]. split; [done|]. split; [done|].
    intros x. rewrite Hx, avl_mark_marked by done.
    split.
    + intros [[?|[-> Hin]]|(q & Hq & Hlt & Hl & Hin)]; [by left| |].
      * right. exists 0. rewrite Z.mul_0_r, Z.add_0_r. split; [lia|].
        split; [lia|done].
      * right. exists (q + 1).
        replace (i + 2 * (q + 1)) with (i + 2 + 2 * q) by lia.
        split; [lia|done].
    + intros [?|(q & Hq & Hlt & Hl & Hin)]; [by left; left|].
      destruct (decide (q = 0)) as [->|Hne].
      * rewrite Z.mul_0_r, Z.add_0_r in Hl. left. right. by subst x.
      * right. exists (q - 1).
        replace (i + 2 + 2 * (q - 1)) with (i + 2 * q) by lia.
        split; [lia|done].
  - split; [done|]. split; [done|]. split; [done|].
    intros x. split; [by left|]. intros [?|(q & ? & ? & _)]; [done|lia].
Qed.

Lemma avl_scenario_round_spec new_pointers new_array tree :
  tree_ok tree -> marks_ok (root tree) ->
  0 <= new_pointers <= Z.of_nat (length new_array) ->
  exists tree',
    avl_scenario_round new_pointers new_array tree = Some tree' /\
    tree_ok tree' /\ marks_ok (root tree') /\
    (forall x, x ∈ keys_inorder (root tree') <->
       x ∈ keys_inorder (root tree) \/
       x ∈ take (Z.to_nat new_pointers) new_array) /\
    (forall x, marked_key (root tree') x <->
       marked_key (root tree) x \/
       exists q, 0 <= 2 * q < new_pointers /\ load new_array (2 * q) = x).
Proof.
  intros Hok Hm Hn. unfold avl_scenario_round.
  rewrite build_loop_insert_all by lia.
  destruct (avl_insert_all_spec tree (seg new_array 0 new_pointers) Hok)
    as (tree1 & He & Hok1 & Hk1).
  rewrite He. simpl.
  pose proof (avl_insert_all_marks_ok _ _ _ Hm He) as Hm1.
  destruct (avl_mark_every_other_spec tree1 new_array new_pointers 0 Hok1 Hm1)
    as (Hok2 & Hm2 & Hk2 & Hx2).
  eexists. split; [done|]. split; [done|]. split; [done|].
  assert (Hseg : seg new_array 0 new_pointers =
                 take (Z.to_nat new_pointers) new_array).
  { unfold seg. simpl. by rewrite drop_0, Z.sub_0_r. }
  rewrite Hseg in Hk1.
  split.
  - intros x. by rewrite Hk2, Hk1.
  - intros x. rewrite Hx2, (avl_insert_all_marked _ _ _ _ He).
    split.
    + intros [?|(q & Hq & Hlt & Hl & _)]; [by left|].
      right. exists q. simpl in *. split; [lia|done].
    + intros [?|(q & Hq & Hl)]; [by left|].
      right. exists q. simpl. split; [lia|]. split; [lia|].
      split; [done|]. apply Hk1. right. subst x.
      apply list_elem_of_lookup. exists (Z.to_nat (2 * q)).
      rewrite lookup_take_lt by lia. apply load_lookup. unfold inb. lia.
Qed.

(** X13: inserting into a well-formed registry and looking up.
    [avl_insert] returns, its result is 1 exactly when [avl_contains]
    answered 0 before, afterwards [avl_contains] answers 1 for the key and
    what it answered before for every other key, and the registry is still
    well formed. *)
Theorem avl_insert_contains (tree : avl_tree) (key : Z) :
  tree_ok tree ->
  exists tree' ins,
    avl_insert tree key = Some (tree', ins) /\
    tree_ok tree' /\
    ins = 1 - avl_contains tree key /\
    avl_contains tree' key = 1 /\
    (forall k, k <> key -> avl_contains tree' k = avl_contains tree k).
Proof. apply avl_insert_contains_spec. Qed.

Lemma avl_insert_contains_witness :
  let tree := {| root := Node 50 2 0 (Node 30 1 1 NULL NULL)
                                      (Node 70 1 0 NULL NULL) |} in
  exists tree' ins,
    avl_insert tree 60 = Some (tree', ins) /\
    tree_ok tree' /\
    ins = 1 - avl_contains tree 60 /\
    avl_contains tree' 60 = 1 /\
    (forall k, k <> 60 -> avl_contains tree' k = avl_contains tree k).
Proof.
  apply (avl_insert_contains
           {| root := Node 50 2 0 (Node 30 1 1 NULL NULL)
                                   (Node 70 1 0 NULL NULL) |} 60).
  split; [simpl; lia|]. unfold sorted_keys. simpl.
  repeat (constructor; [|repeat (constructor; [lia|]); constructor]).
  constructor.
Defined.

(** X14: on any tree, [avl_mark] returns what [avl_contains] answers for
    the key, and it changes the answer of [avl_contains] for no key: a
    marked key stays a member. *)
Theorem avl_mark_membership (tree : avl_tree) (key : Z) :
  (avl_mark tree key).2 = avl_contains tree key /\
  forall k, avl_contains (avl_mark tree key).1 k = avl_contains tree k.
Proof. apply avl_mark_result. Qed.

(** X15: [avl_insert] on a well-formed registry keeps every deletion mark
    where it is: the in-order sequence of (key, marked) pairs is the old
    one when the key was present, and the old one with (key, 0) put in at
    one place when it was not.  Rotations neither lose nor set a mark. *)
Theorem avl_insert_keeps_marks (tree : avl_tree) (key : Z) :
  tree_ok tree ->
  exists tree' ins,
    avl_insert tree key = Some (tree', ins) /\
    ((ins = 0 /\ marks_inorder (root tree') = marks_inorder (root tree)) \/
     (ins = 1 /\ exists pre post,
        marks_inorder (root tree) = pre ++ post /\
        marks_inorder (root tree') = pre ++ (key, 0) :: post)).
Proof.
  intros Hok.
  destruct (avl_insert_spec tree key Hok) as (tree' & ins & He & _).
  exists tree', ins. split; [done|].
  unfold avl_insert in He.
  destruct (insert_node (root tree) key) as [[node i]|] eqn:Hi;
    simpl in He; [|done].
  injection He as <- <-. simpl. by apply (insert_node_marks _ _ _ _ Hi).
Qed.

Lemma avl_insert_keeps_marks_witness :
  let tree := {| root := Node 50 2 1 (Node 30 1 1 NULL NULL) NULL |} in
  exists tree' ins,
    avl_insert tree 20 = Some (tree', ins) /\
    ((ins = 0 /\ marks_inorder (root tree') = marks_inorder (root tree)) \/
     (ins = 1 /\ exists pre post,
        marks_inorder (root tree) = pre ++ post /\
        marks_inorder (root tree') = pre ++ (20, 0) :: post)).
Proof.
  apply (avl_insert_keeps_marks
           {| root := Node 50 2 1 (Node 30 1 1 NULL NULL) NULL |} 20).
  split; [simpl; lia|]. unfold sorted_keys. simpl.
  repeat (constructor; [|repeat (constructor; [lia|]); constructor]).
  constructor.
Defined.

(** X16: in every registry that [avl_create], [avl_insert] and [avl_mark]
    can produce, the height stored at the root is the real height of the
    tree and is logarithmic in the number of keys:
    2 ^ (height / 2) <= keys + 1. *)
Theorem reachable_height_logarithmic (tree : avl_tree) :
  reachable tree ->
  height (root tree) = real_height (root tree) /\
  2 ^ (height (root tree) / 2) <=
    Z.of_nat (length (keys_inorder (root tree))) + 1.
Proof.
  intros Hr. destruct (reachable_ok tree Hr) as [[Hinv _] _].
  split; [by apply avl_inv_height|by apply avl_inv_size].
Qed.

Lemma reachable_height_logarithmic_witness :
  let tree := (avl_mark {| root := Node 2 2 0 (Node 1 1 0 NULL NULL) NULL |} 1).1 in
  height (root tree) = real_height (root tree) /\
  2 ^ (height (root tree) / 2) <=
    Z.of_nat (length (keys_inorder (root tree))) + 1.
Proof.
  apply (reachable_height_logarithmic
           (avl_mark {| root := Node 2 2 0 (Node 1 1 0 NULL NULL) NULL |} 1).1).
  apply reachable_mark.
  apply (reachable_insert {| root := Node 2 1 0 NULL NULL |} 1 _ 1);
    [|reflexivity].
  apply (reachable_insert avl_create 2 _ 1); [|reflexivity].
  apply reachable_create.
Defined.

Lemma avl_inorder_sorted_array_spec (keys : list Z) (n : Z) :
  0 <= n <= Z.of_nat (length keys) ->
  n <= 2 ^ 30 ->
  NoDup (take (Z.to_nat n) keys) ->
  exists tree,
    avl_build_from_array keys n = Some tree /\
    avl_inorder tree record_key [] =
      take (Z.to_nat n) (forkscan_util_sort keys n).
Proof.
  intros Hn Hmax Hnd.
  destruct (avl_build_from_array_prefix keys n) as (tree & He & Hok & Hk);
    [lia|].
  exists tree. split; [done|].
  unfold avl_inorder. rewrite inorder_traverse_record_key. simpl.
  destruct (forkscan_util_sort_spec keys n Hn Hmax) as (Hp & Hs & _).
  destruct Hok as [_ Hsk].
  apply (StronglySorted_unique Z.le); [by apply sorted_lt_le|done|].
  apply NoDup_Permutation; [by apply sorted_lt_NoDup|by rewrite Hp|].
  intros x. by rewrite Hk, Hp.
Qed.

(** X17: the two registries list the same sequence.  For an array whose
    first [n <= 2^30] keys are pairwise distinct, [avl_build_from_array]
    returns a tree whose in-order traversal visits exactly the first [n]
    entries of the buffer sorted by [forkscan_util_sort], in that
    order. *)
Theorem avl_inorder_sorted_array (keys : list Z) (n : Z) :
  0 <= n <= Z.of_nat (length keys) ->
  n <= 2 ^ 30 ->
  NoDup (take (Z.to_nat n) keys) ->
  exists tree,
    avl_build_from_array keys n = Some tree /\
    avl_inorder tree record_key [] =
      take (Z.to_nat n) (forkscan_util_sort keys n).
Proof. apply avl_inorder_sorted_array_spec. Qed.

Lemma avl_inorder_sorted_array_witness :
  exists tree,
    avl_build_from_array [5; 3; 8; 1; 3] 4 = Some tree /\
    avl_inorder tree record_key [] =
      take (Z.to_nat 4) (forkscan_util_sort [5; 3; 8; 1; 3] 4).
Proof.
  apply (avl_inorder_sorted_array [5; 3; 8; 1; 3] 4); [simpl; lia|lia|].
  apply (bool_decide_unpack _). vm_compute. exact I.
Defined.

(** X18: the rotations undo each other and keep the in-order sequence.
    On a node whose stored height and whose left child's stored height are
    one more than the larger child height, [right_rotate] returns a node
    with the same in-order (key, marked) pairs and [left_rotate] of that
    node gives the original back; likewise with the sides exchanged. *)
Theorem rotations_inverse (k1 k2 m1 m2 : Z) (a b c : avl_node) :
  (let x0 := Node k1 (max_int (height a) (height b) + 1) m1 a b in
   let y := Node k2 (max_int (height x0) (height c) + 1) m2 x0 c in
   exists x, right_rotate y = Some x /\ left_rotate x = Some y /\
             marks_inorder x = marks_inorder y) /\
  (let y0 := Node k2 (max_int (height b) (height c) + 1) m2 b c in
   let x := Node k1 (max_int (height a) (height y0) + 1) m1 a y0 in
   exists y, left_rotate x = Some y /\ right_rotate y = Some x /\
             marks_inorder y = marks_inorder x).
Proof.
  split; simpl; eexists; (split; [reflexivity|]); simpl;
    (split; [reflexivity|]); by rewrite <- app_assoc.
Qed.

(** X19: one round of the tree benchmark removes nothing.  On a
    well-formed registry with flags 0 or 1, inserting the first
    [new_pointers] keys of [new_array] and marking every other one
    returns a well-formed registry that holds the old keys and the new
    ones, and whose marked keys are the old marked keys and the new keys
    at the even indices. *)
Theorem avl_scenario_round_keeps_keys (new_pointers : Z) (new_array : list Z)
    (tree : avl_tree) :
  tree_ok tree -> marks_ok (root tree) ->
  0 <= new_pointers <= Z.of_nat (length new_array) ->
  exists tree',
    avl_scenario_round new_pointers new_array tree = Some tree' /\
    tree_ok tree' /\ marks_ok (root tree') /\
    (forall x, x ∈ keys_inorder (root tree') <->
       x ∈ keys_inorder (root tree) \/
       x ∈ take (Z.to_nat new_pointers) new_array) /\
    (forall x, marked_key (root tree') x <->
       marked_key (root tree) x \/
       exists q, 0 <= 2 * q < new_pointers /\ load new_array (2 * q) = x).
Proof. apply avl_scenario_round_spec. Qed.

Lemma avl_scenario_round_keeps_keys_witness :
  let tree := {| root := Node 50 2 0 (Node 30 1 1 NULL NULL) NULL |} in
  let new_array := [70; 20; 30; 9] in
  exists tree',
    avl_scenario_round 3 new_array tree = Some tree' /\
    tree_ok tree' /\ marks_ok (root tree') /\
    (forall x, x ∈ keys_inorder (root tree') <->
       x ∈ keys_inorder (root tree) \/ x ∈ take (Z.to_nat 3) new_array) /\
    (forall x, marked_key (root tree') x <->
       marked_key (root tree) x \/
       exists q, 0 <= 2 * q < 3 /\ load new_array (2 * q) = x).
Proof.
  apply (avl_scenario_round_keeps_keys 3 [70; 20; 30; 9]
           {| root := Node 50 2 0 (Node 30 1 1 NULL NULL) NULL |}).
  - split; [simpl; lia|]. unfold sorted_keys. simpl.
    repeat (constructor; [|repeat (constructor; [lia|]); constructor]).
    constructor.
  - simpl. tauto.
  - simpl. lia.
Defined.

End AvlMore.

(** * The worker threads: ownership of nodes, progress and races *)

Section WorkersSafety.

Import Workload Workers.

Implicit Types (s : state) (m : memory) (n : ptr) (pc : worker_pc).

(** The node a thread has in hand: allocated and not yet published or
    freed, or taken out of the table and not yet handed off. *)
Definition holds pc n : Prop :=
  match pc with
  | InAdd (AtCas _ n') | InAdd (AtFree n') => n' = n
  | InRemove (AtFlag n') | InRemove (AtRetire n' _) => n' = n
  | _ => False
  end.

Definition retired (ev : list event) : list ptr := (retire_calls ev).*2.

Definition pc_ok m pc : Prop :=
  match pc with
  | InAdd (AtCas _ n) | InRemove (AtFlag n) => collected m !! n = Some 0
  | InRemove (AtRetire _ was) => was = 0
  | _ => True
  end.

(** Every node has one owner: a slot of the table, a thread, or the
    reclaimer. *)
Record safe s : Prop := {
  safe_slot k n :
    array (shared s) !! k = Some n ->
    (n < next_node s)%nat /\ collected (shared s) !! n = Some 0 /\
    (n ∉ retired (events s)) /\
    (forall tid pc, workers s !! tid = Some pc -> ~ holds pc n) /\
    (forall k', array (shared s) !! k' = Some n -> k' = k);
  safe_held tid pc n :
    workers s !! tid = Some pc -> holds pc n ->
    (n < next_node s)%nat /\ (n ∉ retired (events s)) /\
    (forall tid' pc', workers s !! tid' = Some pc' -> holds pc' n -> tid' = tid);
  safe_pc tid pc : workers s !! tid = Some pc -> pc_ok (shared s) pc;
  safe_retired :
    NoDup (retired (events s)) /\
    forall n, n ∈ retired (events s) -> (n < next_node s)%nat;
  safe_reads tid n was : (tid, n, was) ∈ flag_reads (events s) -> was = 0;
}.

Lemma lookup_update (ws : list worker_pc) tid pc pc' t p :
  ws !! tid = Some pc -> <[tid := pc']> ws !! t = Some p ->
  (t = tid /\ p = pc') \/ (t <> tid /\ ws !! t = Some p).
Proof.
  intros Hl Hp. apply list_lookup_insert_Some in Hp.
  destruct Hp as [(-> & -> & _)|[Hne Hp]]; [by left|right].
  split; [congruence|done].
Qed.

Lemma safe_init num_threads : safe (init num_threads).
Proof.
  split; simpl; try done.
  - intros tid pc n Hl. apply lookup_replicate in Hl as [-> _]. done.
  - intros tid pc Hl. apply lookup_replicate in Hl as [-> _]. done.
  - split; [constructor|]. intros n Hn. by apply elem_of_nil in Hn.
  - intros tid n was Hn. by apply elem_of_nil in Hn.
Qed.

Lemma pc_ok_collected m m' pc :
  collected m' = collected m -> pc_ok m pc -> pc_ok m' pc.
Proof. intros E. unfold pc_ok. by rewrite E. Qed.

Lemma retired_app ev1 ev2 : retired (ev1 ++ ev2) = retired ev1 ++ retired ev2.
Proof. unfold retired. by rewrite retire_calls_app, fmap_app. Qed.

(** A step that leaves the table, the flags, the hand-offs and the flag
    reads as they are, and after which the thread has in hand at most what
    it had. *)
Lemma safe_update m m' nx ws ev ev' tid pc pc' :
  safe {| shared := m; next_node := nx; workers := ws; events := ev |} ->
  ws !! tid = Some pc ->
  array m' = array m -> collected m' = collected m ->
  retired ev' = retired ev -> flag_reads ev' = flag_reads ev ->
  (forall n, holds pc' n -> holds pc n) ->
  (pc_ok m pc -> pc_ok m pc') ->
  safe {| shared := m'; next_node := nx; workers := <[tid := pc']> ws;
          events := ev' |}.
Proof.
  intros [Hslot Hheld Hpc Hret Hreads] Hl Ea Ec Er Ef Hh Hok. simpl in *.
  split; simpl; rewrite ?Ea, ?Ec, ?Er, ?Ef; try done.
  - intros k n Hk. destruct (Hslot k n Hk) as (? & ? & ? & Hno & ?).
    repeat (split; [done|]). split; [|done].
    intros t p Hp Hhp.
    destruct (lookup_update _ _ _ _ _ _ Hl Hp) as [[-> ->]|[_ Hp']].
    + by apply (Hno tid pc Hl), Hh.
    + by apply (Hno t p Hp').
  - intros t p n Hp Hhp.
    destruct (lookup_update _ _ _ _ _ _ Hl Hp) as [[-> ->]|[Hne Hp']].
    + destruct (Hheld tid pc n Hl (Hh _ Hhp)) as (? & ? & Hu).
      repeat (split; [done|]). intros t' p' Hp' Hhp'.
      destruct (lookup_update _ _ _ _ _ _ Hl Hp') as [[-> ->]|[_ Hp'']];
        [done|by eapply Hu].
    + destruct (Hheld t p n Hp' Hhp) as (? & ? & Hu).
      repeat (split; [done|]). intros t' p' Hp'' Hhp'.
      destruct (lookup_update _ _ _ _ _ _ Hl Hp'') as [[-> ->]|[_ Hp3]].
      * by apply (Hu tid pc Hl), Hh.
      * by eapply Hu.
  - intros t p Hp. apply (pc_ok_collected m); [done|].
    destruct (lookup_update _ _ _ _ _ _ Hl Hp) as [[-> ->]|[_ Hp']].
    + by apply Hok, (Hpc tid).
    + by apply (Hpc t).
Qed.

(** [forkscan_malloc] and the initialisation of the node. *)
Lemma safe_malloc m nx ws ev tid key :
  safe {| shared := m; next_node := nx; workers := ws; events := ev |} ->
  ws !! tid = Some (InAdd (AtMalloc key)) ->
  safe {| shared := {| array := array m;
                       collected := <[nx := 0]> (collected m) |};
          next_node := S nx;
          workers := <[tid := InAdd (AtCas key nx)]> ws; events := ev |}.
Proof.
  intros [Hslot Hheld Hpc Hret Hreads] Hl. simpl in *.
  split; simpl; try done.
  - intros k n Hk. destruct (Hslot k n Hk) as (Hlt & Hc & ? & Hno & ?).
    split; [lia|]. split; [rewrite lookup_insert_ne; [done|lia]|].
    split; [done|]. split; [|done].
    intros t p Hp Hhp.
    destruct (lookup_update _ _ _ _ _ _ Hl Hp) as [[-> ->]|[_ Hp']].
    + simpl in Hhp. lia.
    + by apply (Hno t p Hp').
  - intros t p n Hp Hhp.
    destruct (lookup_update _ _ _ _ _ _ Hl Hp) as [[-> ->]|[Hne Hp']].
    + simpl in Hhp. subst n. split; [lia|]. split.
      * intros Hin. apply Hret in Hin. lia.
      * intros t' p' Hp' Hhp'.
        destruct (lookup_update _ _ _ _ _ _ Hl Hp') as [[-> ->]|[_ Hp'']];
          [done|].
        destruct (Hheld t' p' nx Hp'' Hhp') as (? & _). lia.
    + destruct (Hheld t p n Hp' Hhp) as (? & ? & Hu).
      split; [lia|]. split; [done|]. intros t' p' Hp'' Hhp'.
      destruct (lookup_update _ _ _ _ _ _ Hl Hp'') as [[-> ->]|[_ Hp3]].
      * simpl in Hhp'. lia.
      * by eapply Hu.
  - intros t p Hp.
    destruct (lookup_update _ _ _ _ _ _ Hl Hp) as [[-> ->]|[_ Hp']].
    + simpl. by rewrite lookup_insert_eq.
    + pose proof (Hpc t p Hp') as Hok. pose proof (Hheld t p) as Hh.
      destruct p as [|[]|[]|[]]; simpl in *; try done.
      * destruct (Hh newNode Hp' eq_refl) as (? & _).
        rewrite lookup_insert_ne; [done|lia].
      * destruct (Hh oldval Hp' eq_refl) as (? & _).
        rewrite lookup_insert_ne; [done|lia].
  - destruct Hret as [? Hb]. split; [done|]. intros n Hn.
    specialize (Hb n Hn). lia.
Qed.

(** The compare-and-swap of [add] finds the slot empty and publishes the
    node. *)
Lemma safe_cas m nx ws ev tid key n :
  safe {| shared := m; next_node := nx; workers := ws; events := ev |} ->
  ws !! tid = Some (InAdd (AtCas key n)) ->
  array m !! key = None ->
  safe {| shared := {| array := <[key := n]> (array m);
                       collected := collected m |};
          next_node := nx;
          workers := <[tid := InAdd (AddReturned true)]> ws; events := ev |}.
Proof.
  intros [Hslot Hheld Hpc Hret Hreads] Hl Hnone. simpl in *.
  destruct (Hheld tid _ n Hl eq_refl) as (Hlt & Hnr & Hu).
  pose proof (Hpc tid _ Hl) as Hc. simpl in Hc.
  split; simpl; try done.
  - intros k n' Hk. apply lookup_insert_Some in Hk.
    destruct Hk as [[<- <-]|[Hne Hk]].
    + repeat (split; [done|]). split.
      * intros t p Hp Hhp.
        destruct (lookup_update _ _ _ _ _ _ Hl Hp) as [[-> ->]|[Hne Hp']];
          [done|].
        apply Hne. by eapply Hu.
      * intros k' Hk'. apply lookup_insert_Some in Hk'.
        destruct Hk' as [[<- _]|[_ Hk']]; [done|].
        destruct (Hslot k' n Hk') as (_ & _ & _ & Hno & _).
        by destruct (Hno tid _ Hl).
    + destruct (Hslot k n' Hk) as (? & ? & ? & Hno & Hinj).
      repeat (split; [done|]). split.
      * intros t p Hp Hhp.
        destruct (lookup_update _ _ _ _ _ _ Hl Hp) as [[-> ->]|[_ Hp']];
          [done|by apply (Hno t p Hp')].
      * intros k' Hk'. apply lookup_insert_Some in Hk'.
        destruct Hk' as [[<- <-]|[_ Hk']]; [|by apply Hinj].
        by destruct (Hno tid _ Hl).
  - intros t p n' Hp Hhp.
    destruct (lookup_update _ _ _ _ _ _ Hl Hp) as [[-> ->]|[Hne Hp']];
      [done|].
    destruct (Hheld t p n' Hp' Hhp) as (? & ? & Hu').
    repeat (split; [done|]). intros t' p' Hp'' Hhp'.
    destruct (lookup_update _ _ _ _ _ _ Hl Hp'') as [[-> ->]|[_ Hp3]];
      [done|by eapply Hu'].
  - intros t p Hp. apply (pc_ok_collected m); [done|].
    destruct (lookup_update _ _ _ _ _ _ Hl Hp) as [[-> ->]|[_ Hp']];
      [done|by apply (Hpc t)].
Qed.

(** The exchange of [remove_node] takes a node out of its slot. *)
Lemma safe_slot_exchange m nx ws ev tid key n :
  safe {| shared := m; next_node := nx; workers := ws; events := ev |} ->
  ws !! tid = Some (InRemove (AtSlot key)) ->
  array m !! key = Some n ->
  safe {| shared := {| array := delete key (array m);
                       collected := collected m |};
          next_node := nx;
          workers := <[tid := InRemove (AtFlag n)]> ws;
          events := ev ++ [SlotExchanged tid key (Some n)] |}.
Proof.
  intros [Hslot Hheld Hpc Hret Hreads] Hl Hsome. simpl in *.
  destruct (Hslot key n Hsome) as (Hlt & Hc & Hnr & Hno & Hinj).
  assert (Er : retired (ev ++ [SlotExchanged tid key (Some n)]) = retired ev)
    by (by rewrite retired_app, app_nil_r).
  assert (Ef : flag_reads (ev ++ [SlotExchanged tid key (Some n)]) =
               flag_reads ev)
    by (by rewrite flag_reads_app, app_nil_r).
  split; simpl; rewrite ?Er, ?Ef; try done.
  - intros k n' Hk. apply lookup_delete_Some in Hk as [Hne Hk].
    destruct (Hslot k n' Hk) as (? & ? & ? & Hno' & Hinj').
    repeat (split; [done|]). split.
    + intros t p Hp Hhp.
      destruct (lookup_update _ _ _ _ _ _ Hl Hp) as [[-> ->]|[_ Hp']];
        [|by apply (Hno' t p Hp')].
      simpl in Hhp. subst n'. apply Hne. by apply Hinj'.
    + intros k' Hk'. apply lookup_delete_Some in Hk' as [_ Hk'].
      by apply Hinj'.
  - intros t p n' Hp Hhp.
    destruct (lookup_update _ _ _ _ _ _ Hl Hp) as [[-> ->]|[Hne Hp']].
    + simpl in Hhp. subst n'. repeat (split; [done|]).
      intros t' p' Hp' Hhp'.
      destruct (lookup_update _ _ _ _ _ _ Hl Hp') as [[-> ->]|[_ Hp'']];
        [done|].
      by destruct (Hno t' p' Hp'').
    + destruct (Hheld t p n' Hp' Hhp) as (? & ? & Hu).
      repeat (split; [done|]). intros t' p' Hp'' Hhp'.
      destruct (lookup_update _ _ _ _ _ _ Hl Hp'') as [[-> ->]|[_ Hp3]];
        [|by eapply Hu].
      simpl in Hhp'. subst n'. by destruct (Hno t p Hp').
  - intros t p Hp. apply (pc_ok_collected m); [done|].
    destruct (lookup_update _ _ _ _ _ _ Hl Hp) as [[-> ->]|[_ Hp']];
      [done|by apply (Hpc t)].
Qed.

(** The exchange on [collected] reads 0 and sets the flag. *)
Lemma safe_flag m nx ws ev tid n :
  safe {| shared := m; next_node := nx; workers := ws; events := ev |} ->
  ws !! tid = Some (InRemove (AtFlag n)) ->
  default 0 (collected m !! n) = 0 /\
  safe {| shared := {| array := array m;
                       collected := <[n := 1]> (collected m) |};
          next_node := nx;
          workers := <[tid := InRemove (AtRetire n 0)]> ws;
          events := ev ++ [FlagExchanged tid n 0] |}.
Proof.
  intros [Hslot Hheld Hpc Hret Hreads] Hl. simpl in *.
  destruct (Hheld tid _ n Hl eq_refl) as (Hlt & Hnr & Hu).
  pose proof (Hpc tid _ Hl) as Hc. simpl in Hc.
  split; [by rewrite Hc|].
  assert (Er : retired (ev ++ [FlagExchanged tid n 0]) = retired ev)
    by (by rewrite retired_app, app_nil_r).
  split; simpl; rewrite ?Er; try done.
  - intros k n' Hk.
    destruct (Hslot k n' Hk) as (? & ? & ? & Hno & Hinj).
    assert (n' <> n) by (intros ->; by destruct (Hno tid _ Hl)).
    split; [done|]. split; [by rewrite lookup_insert_ne|].
    split; [done|]. split; [|done].
    intros t p Hp Hhp.
    destruct (lookup_update _ _ _ _ _ _ Hl Hp) as [[-> ->]|[_ Hp']];
      [done|by apply (Hno t p Hp')].
  - intros t p n' Hp Hhp.
    destruct (lookup_update _ _ _ _ _ _ Hl Hp) as [[-> ->]|[Hne Hp']].
    + simpl in Hhp. subst n'. repeat (split; [done|]).
      intros t' p' Hp' Hhp'.
      destruct (lookup_update _ _ _ _ _ _ Hl Hp') as [[-> ->]|[_ Hp'']];
        [done|by eapply Hu].
    + destruct (Hheld t p n' Hp' Hhp) as (? & ? & Hu').
      repeat (split; [done|]). intros t' p' Hp'' Hhp'.
      destruct (lookup_update _ _ _ _ _ _ Hl Hp'') as [[-> ->]|[_ Hp3]];
        [|by eapply Hu'].
      simpl in Hhp'. subst n'. by apply (Hu' tid _ Hl).
  - intros t p Hp.
    destruct (lookup_update _ _ _ _ _ _ Hl Hp) as [[-> ->]|[Hne Hp']];
      [done|].
    pose proof (Hpc t p Hp') as Hok.
    assert (Hn : forall n', holds p n' -> n' <> n).
    { intros n' Hh ->. apply Hne. by eapply Hu. }
    destruct p as [|[]|[]|[]]; simpl in *; try done.
    + rewrite lookup_insert_ne; [done|]. intros E. by apply (Hn newNode).
    + rewrite lookup_insert_ne; [done|]. intros E. by apply (Hn oldval).
  - intros t n' was Hin. rewrite flag_reads_app in Hin. simpl in Hin.
    apply elem_of_app in Hin as [Hin|Hin]; [by eapply Hreads|].
    apply list_elem_of_singleton in Hin. by injection Hin.
Qed.

(** The hand-off to the reclaimer. *)
Lemma safe_retire m nx ws ev tid n :
  safe {| shared := m; next_node := nx; workers := ws; events := ev |} ->
  ws !! tid = Some (InRemove (AtRetire n 0)) ->
  safe {| shared := m; next_node := nx;
          workers := <[tid := InRemove (Returned true)]> ws;
          events := ev ++ [Retired tid n] |}.
Proof.
  intros [Hslot Hheld Hpc Hret Hreads] Hl. simpl in *.
  destruct (Hheld tid _ n Hl eq_refl) as (Hlt & Hnr & Hu).
  assert (Er : retired (ev ++ [Retired tid n]) = retired ev ++ [n])
    by (by rewrite retired_app).
  assert (Ef : flag_reads (ev ++ [Retired tid n]) = flag_reads ev)
    by (by rewrite flag_reads_app, app_nil_r).
  split; simpl; rewrite ?Er, ?Ef; try done.
  - intros k n' Hk.
    destruct (Hslot k n' Hk) as (? & ? & ? & Hno & Hinj).
    assert (n' <> n) by (intros ->; by destruct (Hno tid _ Hl)).
    repeat (split; [done|]). split; [|split; [|done]].
    + rewrite elem_of_app, list_elem_of_singleton. tauto.
    + intros t p Hp Hhp.
      destruct (lookup_update _ _ _ _ _ _ Hl Hp) as [[-> ->]|[_ Hp']];
        [done|by apply (Hno t p Hp')].
  - intros t p n' Hp Hhp.
    destruct (lookup_update _ _ _ _ _ _ Hl Hp) as [[-> ->]|[Hne Hp']];
      [done|].
    destruct (Hheld t p n' Hp' Hhp) as (? & ? & Hu').
    split; [done|]. split.
    + rewrite elem_of_app, list_elem_of_singleton. intros [?| ->]; [done|].
      apply Hne. by eapply Hu.
    + intros t' p' Hp'' Hhp'.
      destruct (lookup_update _ _ _ _ _ _ Hl Hp'') as [[-> ->]|[_ Hp3]];
        [done|by eapply Hu'].
  - intros t p Hp.
    destruct (lookup_update _ _ _ _ _ _ Hl Hp) as [[-> ->]|[_ Hp']];
      [done|by apply (Hpc t)].
  - destruct Hret as [Hnd Hb]. split.
    + apply NoDup_app. split; [done|]. split; [|apply NoDup_singleton].
      intros x Hx Hx'. apply list_elem_of_singleton in Hx'. by subst x.
    + intros x Hx. apply elem_of_app in Hx as [Hx|Hx]; [by apply Hb|].
      apply list_elem_of_singleton in Hx. by subst x.
Qed.

Lemma safe_step s a : safe s -> safe (do_action s a).
Proof.
  destruct s as [m nx ws ev]. intros Hs.
  destruct a as [tid c|tid]; simpl;
    destruct (ws !! tid) as [pc|] eqn:Hl; try done.
  - destruct (between_calls pc); [|done].
    apply (safe_update m m nx ws ev ev tid pc); try done; by destruct c.
  - destruct pc as [|apc|rpc|cpc]; simpl; [done| | |].
    + destruct apc as [key|key|key n|n|result]; simpl.
      * destruct (array m !! key);
          by apply (safe_update m m nx ws ev ev tid (InAdd (AtLoad key))).
      * by apply safe_malloc.
      * destruct (array m !! key) eqn:Hk; [|by apply safe_cas].
        by apply (safe_update m m nx ws ev ev tid (InAdd (AtCas key n))).
      * by apply (safe_update m m nx ws ev ev tid (InAdd (AtFree n))).
      * by apply (safe_update m m nx ws ev ev tid
                    (InAdd (AddReturned result))).
    + destruct rpc as [key|n|n was|result]; simpl.
      * destruct (array m !! key) eqn:Hk; [by apply safe_slot_exchange|].
        apply (safe_update m _ nx ws ev _ tid (InRemove (AtSlot key)));
          try done; simpl.
        -- by apply delete_id.
        -- by rewrite retired_app, app_nil_r.
        -- by rewrite flag_reads_app, app_nil_r.
      * destruct (safe_flag m nx ws ev tid n Hs Hl) as [-> Hs']. done.
      * pose proof (safe_pc _ Hs tid _ Hl) as Hw. simpl in Hw. subst was.
        simpl. by apply safe_retire.
      * rewrite app_nil_r.
        by apply (safe_update m m nx ws ev ev tid (InRemove (Returned result))).
    + by apply (safe_update m m nx ws ev ev tid (InContains cpc)).
Qed.

Lemma safe_run schedule s : safe s -> safe (run_actions schedule s).
Proof.
  revert s. induction schedule as [|a schedule IH]; intros s Hs; [done|].
  simpl. by apply IH, safe_step.
Qed.

Lemma safe_reachable num_threads schedule :
  safe (run_actions schedule (init num_threads)).
Proof. apply safe_run, safe_init. Qed.

(** [add] run by one thread while no other thread runs is the sequential
    [add] with the address the allocator hands out. *)
Lemma add_alone_spec s tid key :
  workers s !! tid = Some (InAdd (AtLoad key)) ->
  let s' := run_actions [Run tid; Run tid; Run tid] s in
  shared s' = (add (shared s) key (next_node s)).1 /\
  workers s' !! tid =
    Some (InAdd (AddReturned (add (shared s) key (next_node s)).2)) /\
  events s' = events s.
Proof.
  destruct s as [[arr col] nx ws ev]. simpl. intros Hl.
  assert (Hlen : (tid < length ws)%nat) by (by eapply lookup_lt_Some).
  unfold add. simpl. rewrite Hl. simpl.
  destruct (arr !! key) eqn:Hk; simpl.
  - rewrite list_lookup_insert_eq by done. simpl.
    rewrite list_lookup_insert_eq by (by rewrite length_insert). simpl.
    by rewrite list_lookup_insert_eq by (by rewrite !length_insert).
  - rewrite list_lookup_insert_eq by done. simpl.
    rewrite list_lookup_insert_eq by (by rewrite length_insert). simpl.
    rewrite Hk. simpl.
    by rewrite list_lookup_insert_eq by (by rewrite !length_insert).
Qed.

Lemma contains_add m key newNode k :
  contains (add m key newNode).1 k = contains m k || bool_decide (k = key).
Proof.
  unfold contains, add. destruct (array m !! key) eqn:Hk; simpl.
  - repeat case_bool_decide; subst; simpl; try done.
    exfalso. rewrite Hk in *. naive_solver.
  - destruct (decide (k = key)) as [->|Hne].
    + rewrite lookup_insert_eq, Hk.
      repeat case_bool_decide; simpl; try done; naive_solver.
    + rewrite lookup_insert_ne by done.
      repeat case_bool_decide; simpl; try done; naive_solver.
Qed.

Lemma remove_node_result m key :
  (remove_node m key).1.2 = contains m key /\
  array (remove_node m key).1.1 = delete key (array m).
Proof.
  unfold remove_node, contains. simpl.
  destruct (array m !! key) as [n|] eqn:Hk; simpl.
  - by destruct (decide (default 0 (collected m !! n) = 0)).
  - done.
Qed.

(** X20: in every interleaving of any number of threads that run [add],
    [remove_node] and [contains] on a table that starts empty, no node is
    handed to [forkscan_retire] twice, and every exchange on a [collected]
    flag reads 0: the branch of [remove_node] that skips the hand-off is
    never taken. *)
Theorem workers_retire_once (num_threads : nat) (schedule : list action) :
  let s := run_actions schedule (init num_threads) in
  NoDup (retired (events s)) /\
  forall tid n was, (tid, n, was) ∈ flag_reads (events s) -> was = 0.
Proof.
  simpl. pose proof (safe_reachable num_threads schedule) as Hs.
  split; [apply (safe_retired _ Hs)|apply (safe_reads _ Hs)].
Qed.

(** X21: in every interleaving of any number of threads that run [add],
    [remove_node] and [contains] on a table that starts empty, a node
    found in the table is live: its [collected] flag is 0, it has not
    been handed to [forkscan_retire], no thread has it in hand for
    freeing or hand-off, and no other slot points to it. *)
Theorem workers_table_live (num_threads : nat) (schedule : list action)
    (key : Z) (n : ptr) :
  let s := run_actions schedule (init num_threads) in
  array (shared s) !! key = Some n ->
  collected (shared s) !! n = Some 0 /\
  (n ∉ retired (events s)) /\
  (forall tid pc, workers s !! tid = Some pc -> ~ holds pc n) /\
  (forall key', array (shared s) !! key' = Some n -> key' = key).
Proof.
  simpl. pose proof (safe_reachable num_threads schedule) as Hs. intros Hk.
  by destruct (safe_slot _ Hs key n Hk) as (_ & ? & ? & ? & ?).
Qed.

Lemma workers_table_live_witness :
  let s := run_actions [Invoke 0 (CallAdd 7); Run 0; Run 0; Run 0] (init 1) in
  collected (shared s) !! 0%nat = Some 0 /\
  (0%nat ∉ retired (events s)) /\
  (forall tid pc, workers s !! tid = Some pc -> ~ holds pc 0%nat) /\
  (forall key', array (shared s) !! key' = Some 0%nat -> key' = 7).
Proof.
  apply (workers_table_live 1 [Invoke 0 (CallAdd 7); Run 0; Run 0; Run 0]
           7 0%nat).
  reflexivity.
Defined.

(** X30: in every interleaving of any number of threads that run [add],
    [remove_node] and [contains] on a table that starts empty, a node
    that has been handed to [forkscan_retire] is out of reach: no slot of
    the table points to it and no thread has it in hand for another
    hand-off or for freeing. *)
Theorem workers_retired_unreachable (num_threads : nat)
    (schedule : list action) (n : ptr) :
  let s := run_actions schedule (init num_threads) in
  n ∈ retired (events s) ->
  (forall key, array (shared s) !! key <> Some n) /\
  (forall tid pc, workers s !! tid = Some pc -> ~ holds pc n).
Proof.
  simpl. pose proof (safe_reachable num_threads schedule) as Hs. intros Hn.
  split.
  - intros key Hk. by destruct (safe_slot _ Hs key n Hk) as (_ & _ & ? & _).
  - intros tid pc Hl Hh. by destruct (safe_held _ Hs tid pc n Hl Hh) as (_ & ? & _).
Qed.

Lemma workers_retired_unreachable_witness :
  let s := run_actions [Invoke 0 (CallAdd 7); Run 0; Run 0; Run 0;
                        Invoke 1 (CallRemove 7); Run 1; Run 1; Run 1;
                        Invoke 0 (CallAdd 7); Run 0; Run 0] (init 2) in
  (forall key, array (shared s) !! key <> Some 0%nat) /\
  (forall tid pc, workers s !! tid = Some pc -> ~ holds pc 0%nat).
Proof.
  apply (workers_retired_unreachable 2
           [Invoke 0 (CallAdd 7); Run 0; Run 0; Run 0;
            Invoke 1 (CallRemove 7); Run 1; Run 1; Run 1;
            Invoke 0 (CallAdd 7); Run 0; Run 0] 0%nat).
  vm_compute. apply list_elem_of_here.
Defined.

(** X22: run one at a time, the three operations are those of a set of
    keys.  [add] returns true exactly when [contains] answered false and
    afterwards [contains] answers true for the key; [remove_node] returns
    what [contains] answered and afterwards [contains] answers false for
    the key; neither changes the answer for another key. *)
Theorem sequential_set_semantics (m : memory) (key : Z) (newNode : ptr)
    (k : Z) :
  (add m key newNode).2 = negb (contains m key) /\
  contains (add m key newNode).1 k = contains m k || bool_decide (k = key) /\
  (remove_node m key).1.2 = contains m key /\
  contains (remove_node m key).1.1 k =
    contains m k && negb (bool_decide (k = key)).
Proof.
  split; [|split; [apply contains_add|]].
  - unfold add, contains. by destruct (array m !! key).
  - destruct (remove_node_result m key) as [Hr Ha]. split; [done|].
    unfold contains at 1. rewrite Ha. unfold contains.
    destruct (decide (k = key)) as [->|Hne].
    + rewrite lookup_delete_eq.
      repeat case_bool_decide; simpl; try done; naive_solver.
    + rewrite lookup_delete_ne by done.
      repeat case_bool_decide; simpl; try done; naive_solver.
Qed.

(** X23: [add] of an absent key followed by [remove_node], with no other
    thread running: [add] returns true; [remove_node] returns true, hands
    the new node, and nothing else, to [forkscan_retire], leaves its
    [collected] flag at 1 and the table as it was before the [add]; a
    second [remove_node] returns false and hands off nothing. *)
Theorem add_remove_round_trip (m : memory) (key : Z) (newNode : ptr) :
  array m !! key = None ->
  let m1 := (add m key newNode).1 in
  let r := remove_node m1 key in
  (add m key newNode).2 = true /\
  r.1.2 = true /\ r.2 = [newNode] /\
  array r.1.1 = array m /\
  collected r.1.1 !! newNode = Some 1 /\
  (remove_node r.1.1 key).1.2 = false /\
  (remove_node r.1.1 key).2 = [].
Proof.
  intros Hk. unfold add. rewrite Hk. simpl.
  unfold remove_node. simpl. rewrite lookup_insert_eq. simpl.
  rewrite lookup_insert_eq. simpl.
  rewrite lookup_delete_eq. simpl.
  by rewrite lookup_insert_eq, delete_insert_id.
Qed.

Lemma add_remove_round_trip_witness :
  let m := {| array := {[ 3 := 0%nat ]}; collected := {[ 0%nat := 0 ]} |} in
  let m1 := (add m 7 1%nat).1 in
  let r := remove_node m1 7 in
  (add m 7 1%nat).2 = true /\
  r.1.2 = true /\ r.2 = [1%nat] /\
  array r.1.1 = array m /\
  collected r.1.1 !! 1%nat = Some 1 /\
  (remove_node r.1.1 7).1.2 = false /\
  (remove_node r.1.1 7).2 = [].
Proof.
  apply (add_remove_round_trip
           {| array := {[ 3 := 0%nat ]}; collected := {[ 0%nat := 0 ]} |}
           7 1%nat).
  reflexivity.
Defined.

(** X24: [add] stepped by one thread while the others stand still does
    what the sequential [add] does with the address the allocator hands
    out: after three steps the shared memory and the result are those of
    [add], and nothing has been handed to the reclaimer. *)
Theorem add_alone (s : state) (tid : nat) (key : Z) :
  workers s !! tid = Some (InAdd (AtLoad key)) ->
  let s' := run_actions [Run tid; Run tid; Run tid] s in
  shared s' = (add (shared s) key (next_node s)).1 /\
  workers s' !! tid =
    Some (InAdd (AddReturned (add (shared s) key (next_node s)).2)) /\
  events s' = events s.
Proof. apply add_alone_spec. Qed.

Lemma add_alone_witness :
  let s := run_actions [Invoke 1 (CallAdd 7)] (init 2) in
  let s' := run_actions [Run 1; Run 1; Run 1]%nat s in
  shared s' = (add (shared s) 7 (next_node s)).1 /\
  workers s' !! 1%nat =
    Some (InAdd (AddReturned (add (shared s) 7 (next_node s)).2)) /\
  events s' = events s.
Proof.
  apply (add_alone (run_actions [Invoke 1 (CallAdd 7)] (init 2)) 1 7).
  reflexivity.
Defined.

(** ** Every operation returns after a bounded number of its own steps *)

Definition add_steps_left (pc : add_pc) : nat :=
  match pc with
  | AtLoad _ => 4
  | AtMalloc _ => 3
  | AtCas _ _ => 2
  | AtFree _ => 1
  | AddReturned _ => 0
  end.

Definition contains_steps_left (pc : contains_pc) : nat :=
  match pc with
  | AtFlush _ => 3
  | AtSlotLoad _ => 2
  | AtFlushAgain _ => 1
  | ContainsReturned _ => 0
  end.

Definition worker_steps_left pc : nat :=
  match pc with
  | InAdd apc => add_steps_left apc
  | InRemove rpc => steps_left rpc
  | InContains cpc => contains_steps_left cpc
  | Idle => 0
  end.



Lemma worker_steps_left_bound pc : (worker_steps_left pc <= 4)%nat.
Proof. destruct pc as [|[]|[]|[]]; simpl; lia. Qed.







(** ** Threads that race to add the same key *)

(** [k] threads enter [add(key)] together. *)
Definition adders (m : memory) (next : ptr) (key : Z) (k : nat) : state :=
  {| shared := m; next_node := next;
     workers := replicate k (InAdd (AtLoad key)); events := [] |}.

Definition all_returned (s : state) : bool := forallb between_calls (workers s).

(** The thread is inside [add(key)] or has returned from it. *)
Definition adding (key : Z) pc : Prop :=
  match pc with
  | InAdd (AtLoad k) | InAdd (AtMalloc k) | InAdd (AtCas k _) => k = key
  | InAdd _ => True
  | _ => False
  end.

(** The thread has not yet seen the slot taken. *)
Definition early pc : Prop :=
  match pc with
  | InAdd (AtLoad _) | InAdd (AtMalloc _) | InAdd (AtCas _ _) => True
  | _ => False
  end.

Definition add_race_inv (key : Z) s : Prop :=
  (forall t pc, workers s !! t = Some pc -> adding key pc) /\
  ((array (shared s) !! key = None /\
    forall t pc, workers s !! t = Some pc -> early pc) \/
   (is_Some (array (shared s) !! key) /\
    exists w, workers s !! w = Some (InAdd (AddReturned true)) /\
      forall t, workers s !! t = Some (InAdd (AddReturned true)) -> t = w)).

Lemma add_race_inv_step key s t :
  add_race_inv key s -> add_race_inv key (do_action s (Run t)).
Proof.
  destruct s as [m nx ws ev]. intros [Hadd Hcase]. simpl in *.
  destruct (ws !! t) as [pc|] eqn:Hl; [|by split].
  pose proof (lookup_lt_Some _ _ _ Hl) as Hlen.
  pose proof (Hadd t pc Hl) as Hpc.
  destruct pc as [|apc| |]; try done. simpl.
  destruct Hcase as [[Hnone Hearly]|[[n0 Hn0] (w & Hw & Hu)]].
  - pose proof (Hearly t _ Hl) as He.
    destruct apc as [k|k|k n| |]; simpl in *; try done; subst k;
      rewrite ?Hnone; unfold add_race_inv; simpl;
      (split;
       [intros t' p Hp;
        destruct (lookup_update _ _ _ _ _ _ Hl Hp) as [[-> ->]|[_ Hp']];
        [done|by eapply Hadd]|]).
    + left. split; [done|]. intros t' p Hp.
      destruct (lookup_update _ _ _ _ _ _ Hl Hp) as [[-> ->]|[_ Hp']];
        [done|by eapply Hearly].
    + left. split; [done|]. intros t' p Hp.
      destruct (lookup_update _ _ _ _ _ _ Hl Hp) as [[-> ->]|[_ Hp']];
        [done|by eapply Hearly].
    + right. split; [by rewrite lookup_insert_eq|].
      exists t. split; [by apply list_lookup_insert_eq|].
      intros t' Hp.
      destruct (lookup_update _ _ _ _ _ _ Hl Hp) as [[-> _]|[_ Hp']];
        [done|].
      by destruct (Hearly t' _ Hp').
  - destruct apc as [k|k|k n|n|result]; simpl in *; try subst k;
      rewrite ?Hn0; unfold add_race_inv; simpl;
      (split;
       [intros t' p Hp;
        destruct (lookup_update _ _ _ _ _ _ Hl Hp) as [[-> ->]|[_ Hp']];
        [done|by eapply Hadd]|]);
      right; (split; [by eexists|]); exists w;
      (split;
       [destruct (decide (w = t)) as [->|Hne];
        [rewrite Hl in Hw;
         first [discriminate Hw
               |injection Hw as ->; by apply list_lookup_insert_eq]
        |by rewrite list_lookup_insert_ne]
       |intros t' Hp;
        destruct (lookup_update _ _ _ _ _ _ Hl Hp) as [[-> E]|[_ Hp']];
        [first [discriminate E|injection E as E; subst result; by apply Hu]
        |by apply Hu]]).
Qed.

Lemma add_race_inv_run key schedule s :
  add_race_inv key s -> add_race_inv key (run_actions (Run <$> schedule) s).
Proof.
  revert s. induction schedule as [|t schedule IH]; intros s Hs; [done|].
  simpl. by apply IH, add_race_inv_step.
Qed.

Lemma add_race_inv_adders m next key k :
  array m !! key = None -> add_race_inv key (adders m next key k).
Proof.
  intros Hk. split; simpl.
  - intros t pc Hl. by apply lookup_replicate in Hl as [-> _].
  - left. split; [done|]. intros t pc Hl.
    by apply lookup_replicate in Hl as [-> _].
Qed.

Lemma run_actions_length schedule s :
  length (workers (run_actions schedule s)) = length (workers s).
Proof.
  revert s. induction schedule as [|a schedule IH]; intros s; [done|].
  simpl. rewrite IH. destruct a as [t c|t]; simpl.
  - destruct (workers s !! t) as [p|]; [|done].
    destruct (between_calls p); [|done]. simpl. by rewrite length_insert.
  - destruct (workers s !! t) as [p|]; [|done].
    destruct p as [|apc|rpc|cpc]; simpl; [done| | |].
    + destruct (add_step (shared s) (next_node s) apc) as [[m' nx'] apc'].
      simpl. by rewrite length_insert.
    + destruct (remove_node_step t (shared s) rpc) as [[m' rpc'] evs].
      simpl. by rewrite length_insert.
    + by rewrite length_insert.
Qed.

(** X26: when any number of threads run [add(key)] together on a key that
    is absent, and nothing else runs, then in every interleaving that lets
    them all return exactly one of them returns true and every other one
    returns false; the key is then in the table. *)
Theorem add_race (m : memory) (next : ptr) (key : Z) (k : nat)
    (schedule : list nat) :
  array m !! key = None ->
  (0 < k)%nat ->
  let s := run_actions (Run <$> schedule) (adders m next key k) in
  all_returned s = true ->
  exists w,
    workers s !! w = Some (InAdd (AddReturned true)) /\
    (forall t, (t < k)%nat -> t <> w ->
       workers s !! t = Some (InAdd (AddReturned false))) /\
    contains (shared s) key = true.
Proof.
  intros Hk Hpos s Hall.
  pose proof (add_race_inv_run key schedule _
                (add_race_inv_adders m next key k Hk)) as [Hadd Hcase].
  fold s in Hadd, Hcase.
  assert (Hlen : length (workers s) = k).
  { subst s. rewrite run_actions_length. simpl. apply length_replicate. }
  unfold all_returned in Hall. rewrite forallb_forall in Hall.
  assert (Hret : forall t pc, workers s !! t = Some pc ->
                   exists r, pc = InAdd (AddReturned r)).
  { intros t pc Hl. pose proof (Hadd t pc Hl) as Ha.
    pose proof (Hall pc) as Hb.
    rewrite <- list_elem_of_In in Hb.
    specialize (Hb ltac:(by eapply list_elem_of_lookup_2)).
    destruct pc as [|[]|[]|[]]; simpl in *; try done. by eexists. }
  destruct Hcase as [[_ Hearly]|[Hsome (w & Hw & Hu)]].
  - destruct (lookup_lt_is_Some_2 (workers s) 0) as [pc Hl]; [lia|].
    destruct (Hret 0%nat pc Hl) as [r ->]. by destruct (Hearly 0%nat _ Hl).
  - exists w. split; [done|]. split.
    + intros t Ht Hne.
      destruct (lookup_lt_is_Some_2 (workers s) t) as [pc Hl]; [lia|].
      destruct (Hret t pc Hl) as [[] ->]; [|done].
      by destruct Hne; apply Hu.
    + unfold contains. by apply bool_decide_eq_true_2.
Qed.

Lemma add_race_witness :
  let m := {| array := {[ 3 := 0%nat ]}; collected := {[ 0%nat := 0 ]} |} in
  let s := run_actions (Run <$> [0; 1; 2; 1; 0; 2; 2; 1; 1; 0; 0; 2]%nat)
             (adders m 1%nat 7 3) in
  exists w,
    workers s !! w = Some (InAdd (AddReturned true)) /\
    (forall t, (t < 3)%nat -> t <> w ->
       workers s !! t = Some (InAdd (AddReturned false))) /\
    contains (shared s) 7 = true.
Proof.
  apply (add_race
           {| array := {[ 3 := 0%nat ]}; collected := {[ 0%nat := 0 ]} |}
           1%nat 7 3 [0; 1; 2; 1; 0; 2; 2; 1; 1; 0; 0; 2]%nat).
  - reflexivity.
  - lia.
  - reflexivity.
Defined.

(** ** The loop of [main] that fills the table *)

Lemma keys_in_range_size (a : gmap Z ptr) (range : Z) :
  0 <= range ->
  (forall k, is_Some (a !! k) -> 0 <= k < range) ->
  Z.of_nat (size a) <= range.
Proof.
  intros Hr Hk.
  assert (Hsub : dom a ⊆ (list_to_set (seqZ 0 range) : gset Z)).
  { intros k Hin. apply elem_of_dom in Hin. apply elem_of_list_to_set.
    apply elem_of_seqZ. specialize (Hk k Hin). lia. }
  apply subseteq_size in Hsub.
  rewrite size_dom, size_list_to_set, length_seqZ in Hsub
    by apply NoDup_seqZ.
  lia.
Qed.

Lemma prefill_spec draws target range m next inserted :
  0 < range <= KEY_RANGE ->
  Forall (fun x => 0 <= x) draws ->
  inserted <= target ->
  inserted = Z.of_nat (size (array m)) ->
  (forall k, is_Some (array m !! k) -> 0 <= k < range) ->
  exists m' next' inserted' exited,
    prefill draws target range m next inserted =
      Some (m', next', inserted', exited) /\
    inserted' = Z.of_nat (size (array m')) /\
    inserted <= inserted' <= target /\
    (exited = true <-> inserted' = target) /\
    (forall k, is_Some (array m' !! k) -> 0 <= k < range).
Proof.
  intros Hr Hd. revert m next inserted.
  induction Hd as [|x draws Hx Hd IH]; intros m next inserted Hle Hs Hk;
    simpl.
  - destruct (decide (inserted < target)).
    + exists m, next, inserted, false. repeat (split; try done); lia.
    + exists m, next, inserted, true. repeat (split; try done); lia.
  - destruct (decide (inserted < target)).
    2: { exists m, next, inserted, true. repeat (split; try done); lia. }
    rewrite decide_False by lia.
    pose proof (Z.rem_bound_pos x range Hx ltac:(lia)) as Hb.
    rewrite decide_True by lia.
    unfold add. destruct (array m !! Z.rem x range) eqn:Hslot.
    + destruct (IH m next inserted Hle Hs Hk)
        as (m' & next' & inserted' & exited & -> & ? & ? & ? & ?).
      by exists m', next', inserted', exited.
    + destruct (IH {| array := <[Z.rem x range := next]> (array m);
                      collected := <[next := 0]> (collected m) |}
                  (S next) (inserted + 1))
        as (m' & next' & inserted' & exited & -> & ? & ? & ? & ?).
      * lia.
      * simpl. rewrite map_size_insert_None by done. lia.
      * simpl. intros k [n Hn]. apply lookup_insert_Some in Hn.
        destruct Hn as [[<- _]|[_ Hn]]; [lia|]. apply Hk. by eexists.
      * exists m', next', inserted', exited.
        repeat (split; try done); lia.
Qed.

(** X27: the loop of [main] that fills the table.  With a key range
    between 1 and the size of the table, a target that is not negative
    and draws that are not negative, the loop neither divides by zero nor
    leaves the table; the count it keeps is the number of keys in the
    table, which all lie below the range; the count never passes the
    target nor the range, and the loop is left exactly when the count has
    reached the target. *)
Theorem prefill_counts (draws : list Z) (target range : Z) :
  0 <= target ->
  0 < range <= KEY_RANGE ->
  Forall (fun x => 0 <= x) draws ->
  exists m' next' inserted' exited,
    prefill draws target range {| array := ∅; collected := ∅ |} 0%nat 0 =
      Some (m', next', inserted', exited) /\
    inserted' = Z.of_nat (size (array m')) /\
    inserted' <= target /\ inserted' <= range /\
    (exited = true <-> inserted' = target) /\
    (forall k, contains m' k = true -> 0 <= k < range).
Proof.
  intros Ht Hr Hd.
  destruct (prefill_spec draws target range {| array := ∅; collected := ∅ |}
              0%nat 0 Hr Hd Ht)
    as (m' & next' & inserted' & exited & He & Hs & Hle & Hex & Hk).
  { done. }
  { simpl. intros k [n Hn]. by rewrite lookup_empty in Hn. }
  exists m', next', inserted', exited. split; [done|]. split; [done|].
  split; [lia|]. split.
  - rewrite Hs. apply keys_in_range_size; [lia|done].
  - split; [done|]. intros k Hc. apply Hk. unfold contains in Hc.
    by apply bool_decide_eq_true_1 in Hc.
Qed.

Lemma prefill_counts_witness :
  exists m' next' inserted' exited,
    prefill [5; 12; 8; 2; 9; 7] 3 4 {| array := ∅; collected := ∅ |} 0%nat 0 =
      Some (m', next', inserted', exited) /\
    inserted' = Z.of_nat (size (array m')) /\
    inserted' <= 3 /\ inserted' <= 4 /\
    (exited = true <-> inserted' = 3) /\
    (forall k, contains m' k = true -> 0 <= k < 4).
Proof.
  apply (prefill_counts [5; 12; 8; 2; 9; 7] 3 4); [lia|unfold KEY_RANGE; lia|].
  repeat (constructor; [lia|]). constructor.
Defined.

(** X28: for a key range between 1 and [KEY_RANGE] and a target that is
    larger than the key range, the loop of [main] that fills the table is
    never left: whatever non-negative values [rand()] returns, and however
    many draws are made, the loop is still running, with at most [range]
    keys inserted. *)
Theorem prefill_never_done (draws : list Z) (target range : Z) :
  0 < range <= KEY_RANGE ->
  range < target ->
  Forall (fun x => 0 <= x) draws ->
  exists m' next' inserted',
    prefill draws target range {| array := ∅; collected := ∅ |} 0%nat 0 =
      Some (m', next', inserted', false) /\
    inserted' <= range.
Proof.
  intros Hr Ht Hd.
  destruct (prefill_spec draws target range {| array := ∅; collected := ∅ |}
              0%nat 0 Hr Hd)
    as (m' & next' & inserted' & exited & He & Hs & Hle & Hex & Hk).
  { lia. }
  { done. }
  { simpl. intros k [n Hn]. by rewrite lookup_empty in Hn. }
  assert (Hb : inserted' <= range).
  { rewrite Hs. apply keys_in_range_size; [lia|done]. }
  exists m', next', inserted'. split; [|done].
  destruct exited; [|done]. destruct Hex as [Hex _].
  specialize (Hex eq_refl). lia.
Qed.

Lemma prefill_never_done_witness :
  exists m' next' inserted',
    prefill [5; 12; 8; 2; 9; 7; 3; 11] 3 2 {| array := ∅; collected := ∅ |}
      0%nat 0 = Some (m', next', inserted', false) /\
    inserted' <= 2.
Proof.
  apply (prefill_never_done [5; 12; 8; 2; 9; 7; 3; 11] 3 2);
    [unfold KEY_RANGE; lia|lia|].
  repeat (constructor; [lia|]). constructor.
Defined.

End WorkersSafety.
